(** * SBMM planning tool: the spatial analytics engine

    A shallow embedding of the geometric and numeric routines of the
    contour module (IDW interpolation, convex hull, hull buffering,
    threshold colours), of the analysis module (gap grid, hot-zone grid)
    and of the cross-section module (transect clicks, column layout).

    JavaScript numbers are modelled as exact rationals [Q]: every
    comparison and arithmetic operation of the source is kept, rounding of
    IEEE doubles is not modelled.  Numeric equality of the source ([===] on
    numbers) is [Qeq].  Where the source divides, the results below are
    about divisors that are not zero. *)

From Stdlib Require Import String.
From Stdlib Require Import QArith Qround Qminmax Qabs Qpower Lqa Lia ZArith.
From Stdlib Require Import List Bool Permutation.
Import Corelib.Init.Datatypes.
Import ListNotations.
Open Scope Q_scope.

Set Implicit Arguments.

(* ================================================================== *)
(** * Numbers and arrays *)
(* ================================================================== *)

(** [x < y] as a boolean, the way the source tests it. *)
Definition Qltb (x y : Q) : bool := negb (Qle_bool y x).

(** An array length as a number. *)
Definition Qlen {A : Type} (l : list A) : Q := inject_Z (Z.of_nat (length l)).

(** [Math.round]: the nearest integer, halves rounded up. *)
Definition jsRound (x : Q) : Z := Qfloor (x + (1 # 2)).

(** [Math.min.apply(null, l)] and [Math.max.apply(null, l)] on a non-empty
    array (on an empty one the source gets an infinity; the callers below
    treat that case apart). *)
Definition listMin (l : list Q) : Q :=
match l with
| [] => 0
| x :: xs => fold_left Qmin xs x
end.

Definition listMax (l : list Q) : Q :=
match l with
| [] => 0
| x :: xs => fold_left Qmax xs x
end.

(** [Array.prototype.sort(cmp)]: a stable sort; [cmp a b <= 0] keeps [a]
    before [b]. *)
Fixpoint insert {A : Type} (cmp : A -> A -> Q) (x : A) (l : list A) : list A :=
match l with
| [] => [x]
| y :: l' =>
    if Qle_bool (cmp x y) 0 then x :: y :: l' else y :: insert cmp x l'
end.

Definition sort {A : Type} (cmp : A -> A -> Q) (l : list A) : list A :=
fold_right (insert cmp) [] l.

(** [for (x = lo; x < hi; x += step)]: the values [x] takes.  The loop is
    unrolled at most [fuel] times. *)
Fixpoint forLoop (fuel : nat) (x hi step : Q) : list Q :=
match fuel with
| O => []
| S fuel' => if Qltb x hi then x :: forLoop fuel' (x + step) hi step else []
end.

(** The number of iterations of such a loop with a positive step.  (With
    a step of zero or less and [lo < hi] the source would never leave the
    loop; the grid sizes below are positive.) *)
Definition loopBound (lo hi step : Q) : nat :=
Z.to_nat (Qceiling ((hi - lo) / step)).

Definition forRange (lo hi step : Q) : list Q :=
forLoop (loopBound lo hi step) lo hi step.

(* ================================================================== *)
(** * Coordinates and configuration *)
(* ================================================================== *)

(** The source reads [.lat] and [.lon] off whatever object it is handed
    (samples, hull vertices, planned points). *)
Class HasLatLon (A : Type) := { lat : A -> Q; lon : A -> Q }.

(** A bare [{lat, lon}] object, also Leaflet's [L.latLng(lat, lon)]. *)
Record LatLng : Type := mkLatLng { ll_lat : Q; ll_lon : Q }.

#[export] Instance LatLng_HasLatLon : HasLatLon LatLng :=
{| lat := ll_lat; lon := ll_lon |}.

(** A sample with its value for the analyte at hand, [{lat, lon, value}]. *)
Record SamplePoint : Type := mkSample { sp_lat : Q; sp_lon : Q; value : Q }.

#[export] Instance SamplePoint_HasLatLon : HasLatLon SamplePoint :=
{| lat := sp_lat; lon := sp_lon |}.

(** [AppConfig.coordConversion].  The configuration object is not among the
    sources, so its three constants are parameters. *)
Record CoordConversion : Type := mkConv {
  metersPerDegLat : Q;
  metersPerDegLon : Q;
  feetToMeters : Q
}.

Definition conv_positive (conv : CoordConversion) : Prop :=
0 < metersPerDegLat conv /\ 0 < metersPerDegLon conv /\ 0 < feetToMeters conv.

(** An entry of [AppConfig.thresholds]. *)
Record Threshold : Type := mkThreshold { low : Q; high : Q }.

(** A record of [AppState.data.samples2025] or [AppState.data.eaSamples].
    The 2025 records carry [sampled] and a [metals] object, the historical
    ones one field per metal; a field an object lacks is [None]. *)
Record Sample : Type := mkSampleRec {
  s_lat : Q;
  s_lon : Q;
  sampled : bool;
  metals : option (String.string -> option Q);
  mercury : option Q;
  arsenic : option Q;
  antimony : option Q;
  thallium : option Q
}.

#[export] Instance Sample_HasLatLon : HasLatLon Sample :=
{| lat := s_lat; lon := s_lon |}.

Record AppData : Type := mkData {
  samples2025 : list Sample;
  eaSamples : list Sample
}.

(** The fields of [AppState] the analysis module reads. *)
Record AppState : Type := mkState {
  data : AppData;
  plannedPoints : list LatLng;
  includePlannedInGaps : bool;
  gridSizeFt : Q;
  currentAnalyte : String.string
}.

(* ================================================================== *)
(** * Utils *)
(* ================================================================== *)

Module Utils.

(** [getSampleValue(sample, analyte, isEA)]; [None] is [null] or
    [undefined]. *)
Definition getSampleValue (sample : Sample) (analyte : String.string)
  (isEA : bool) : option Q :=
if isEA then
  if String.eqb analyte "Mercury"%string then mercury sample
  else if String.eqb analyte "Arsenic"%string then arsenic sample
  else if String.eqb analyte "Antimony"%string then antimony sample
  else if String.eqb analyte "Thallium"%string then thallium sample
  else None
else
  match metals sample with
  | Some m => m analyte
  | None => None
  end.

End Utils.

(* ================================================================== *)
(** * Contour module *)
(* ================================================================== *)

Module Contour.

(** ** Colour mapping *)

Record Color : Type := mkColor { r : Z; g : Z; b : Z }.

Definition C_GREEN : Color := mkColor 114 175 38.
Definition C_YELLOW : Color := mkColor 240 208 0.
Definition C_ORANGE : Color := mkColor 240 147 43.
Definition C_RED : Color := mkColor 214 62 42.

Definition lerpChannel (c1 c2 : Z) (t : Q) : Z :=
jsRound (inject_Z c1 + (inject_Z c2 - inject_Z c1) * t).

Definition lerpColor (c1 c2 : Color) (t : Q) : Color :=
let t := Qmax 0 (Qmin 1 t) in
mkColor (lerpChannel (r c1) (r c2) t)
        (lerpChannel (g c1) (g c2) t)
        (lerpChannel (b c1) (b c2) t).

Definition valueToColor (value : Q) (thresh : Threshold) : Color :=
if Qle_bool value 0 then C_GREEN
else if Qeq_bool (low thresh) (high thresh) then
  if Qltb value (low thresh) then
    lerpColor C_GREEN C_YELLOW (value / low thresh)
  else
    let t := Qmin ((value - high thresh) / high thresh) 1 in
    lerpColor C_YELLOW C_RED t
else if Qltb value (low thresh) then
  lerpColor C_GREEN C_YELLOW (value / low thresh)
else if Qltb value (high thresh) then
  lerpColor C_YELLOW C_ORANGE
    ((value - low thresh) / (high thresh - low thresh))
else
  let range := high thresh - low thresh in
  let t2 := Qmin ((value - high thresh) / range) 1 in
  lerpColor C_ORANGE C_RED t2.

(** ** Inverse-distance weighting *)

Section IDW.
Variable conv : CoordConversion.

(** The loop of [computeIDW] from index [i] on, with the two accumulators;
    falling off the end is the final [return]. *)
Fixpoint idwLoop (lt ln : Q) (points : list SamplePoint)
  (numerator denominator : Q) : Q :=
match points with
| [] => if Qltb 0 denominator then numerator / denominator else 0
| p :: rest =>
    let dLat := (lt - lat p) * metersPerDegLat conv in
    let dLon := (ln - lon p) * metersPerDegLon conv in
    let distSq := dLat * dLat + dLon * dLon in
    if Qltb distSq 1 then value p
    else
      let weight := 1 / distSq in
      idwLoop lt ln rest (numerator + value p * weight) (denominator + weight)
end.

Definition computeIDW (lt ln : Q) (points : list SamplePoint) : Q :=
idwLoop lt ln points 0 0.

(** Squared planar distance in meters between the query and a sample, as
    the loop computes it. *)
Definition distSqTo (lt ln : Q) (p : SamplePoint) : Q :=
let dLat := (lt - lat p) * metersPerDegLat conv in
let dLon := (ln - lon p) * metersPerDegLon conv in
dLat * dLat + dLon * dLon.

End IDW.

(** ** Convex hull *)

Section Hull.
Context {A : Type} `{HasLatLon A}.

(** 2D cross product of OA and OB, [lon] as x and [lat] as y. *)
Definition cross2D (O P B : A) : Q :=
(lon P - lon O) * (lat B - lat O) - (lat P - lat O) * (lon B - lon O).

(** The comparison function handed to [sort]. *)
Definition byLonLat (a b : A) : Q :=
if negb (Qeq_bool (lon a) (lon b)) then lon a - lon b else lat a - lat b.

(** The inner [while] loop.  A chain under construction is kept with its
    last array element first: [top :: below :: _] is the array
    [..., below, top]. *)
Fixpoint popWhile (stack : list A) (p : A) : list A :=
match stack with
| top :: ((below :: _) as rest) =>
    if Qle_bool (cross2D below top p) 0 then popWhile rest p else stack
| _ => stack
end.

(** One iteration of a chain loop: pop, then push. *)
Definition pushPoint (stack : list A) (p : A) : list A :=
p :: popWhile stack p.

(** A whole chain loop over the points in the order given. *)
Definition buildChain (pts : list A) : list A :=
fold_left pushPoint pts [].

(** [computeConvexHull].  [lower] walks [sorted] from index 0 up, [upper]
    from the last index down; [tl] is the final [pop()] of each chain and
    [rev] restores array order. *)
Definition computeConvexHull (points : list A) : list A :=
if (length points <? 3)%nat then points
else
  let sorted := sort byLonLat points in
  let lower := buildChain sorted in
  let upper := buildChain (rev sorted) in
  rev (tl lower) ++ rev (tl upper).

(** The body of the loop of [pointInConvexHull] at index [i]: does the
    edge from [hull[i]] to [hull[(i+1) % n]] pass the test. *)
Definition edgeOk (lt ln : Q) (hull : list A) (i : nat) : bool :=
let n := length hull in
let j := ((i + 1) mod n)%nat in
match nth_error hull i, nth_error hull j with
| Some hi, Some hj =>
    let cross := (lon hj - lon hi) * (lt - lat hi)
                 - (lat hj - lat hi) * (ln - lon hi) in
    negb (Qltb cross 0)
| _, _ => false
end.

(** [pointInConvexHull]: false below three vertices, false at the first
    edge with a negative cross product, true otherwise. *)
Definition pointInConvexHull (lt ln : Q) (hull : list A) : bool :=
let n := length hull in
if (n <? 3)%nat then false
else forallb (edgeOk lt ln hull) (seq 0 n).

(** ** Hull buffering *)

Variable conv : CoordConversion.

(** [Math.sqrt].  Nothing below depends on what it returns. *)
Variable sqrt : Q -> Q.

Definition toLatLng (v : A) : LatLng := mkLatLng (lat v) (lon v).

(** The body of the second loop of [bufferConvexHull] for one vertex. *)
Definition bufferVertex (centLat centLon bufLat bufLon : Q) (v : A) : LatLng :=
let dLat := lat v - centLat in
let dLon := lon v - centLon in
let dLatM := dLat * metersPerDegLat conv in
let dLonM := dLon * metersPerDegLon conv in
let dist := sqrt (dLatM * dLatM + dLonM * dLonM) in
if Qltb dist (1 # 1000) then mkLatLng (lat v) (lon v)
else mkLatLng (lat v + (dLatM / dist) * bufLat)
              (lon v + (dLonM / dist) * bufLon).

Definition centroidLat (hull : list A) : Q :=
fold_left (fun acc v => acc + lat v) hull 0 / Qlen hull.

Definition centroidLon (hull : list A) : Q :=
fold_left (fun acc v => acc + lon v) hull 0 / Qlen hull.

(** [bufferConvexHull]; below three vertices the source hands back its
    argument, here its vertices as they are. *)
Definition bufferConvexHull (hull : list A) (bufferMeters : Q) : list LatLng :=
if (length hull <? 3)%nat then map toLatLng hull
else
  let centLat := centroidLat hull in
  let centLon := centroidLon hull in
  let bufLat := bufferMeters / metersPerDegLat conv in
  let bufLon := bufferMeters / metersPerDegLon conv in
  map (bufferVertex centLat centLon bufLat bufLon) hull.

End Hull.

End Contour.

(* ================================================================== *)
(** * Analysis module: gap grid and hot-zone grid *)
(* ================================================================== *)

Module Analysis.

(** An [L.rectangle([[latMin, lonMin], [latMax, lonMax]], {...})] added to
    a layer, with its fill colour and fill opacity. *)
Record Rect : Type := mkRect {
  latMin : Q;
  lonMin : Q;
  latMax : Q;
  lonMax : Q;
  color : string;
  fillOpacity : Q
}.

Section Grid.
Variable conv : CoordConversion.

(** Leaflet's [LatLng.distanceTo], in meters: a library function, kept
    as a parameter. *)
Variable distanceTo : LatLng -> LatLng -> Q.

(** [AppConfig.thresholds[analyte]], for the analytes the configuration
    knows. *)
Variable thresholds : string -> Threshold.

Variable st : AppState.

Definition sizeMeters : Q := gridSizeFt st * feetToMeters conv.
Definition gridSizeLat : Q := sizeMeters / metersPerDegLat conv.
Definition gridSizeLon : Q := sizeMeters / metersPerDegLon conv.
Definition searchRadius : Q := sizeMeters.

(** The padding of the bounding box, 0.0005 degrees. *)
Definition PAD : Q := 5 # 10000.

(** The two nested [for] loops over cell corners, [body] being what is
    done at each corner. *)
Definition gridLoop {B : Type} (minLat maxLat minLon maxLon : Q)
  (body : Q -> Q -> list B) : list B :=
flat_map (fun lt =>
  flat_map (fun ln => body lt ln) (forRange minLon maxLon gridSizeLon))
  (forRange minLat maxLat gridSizeLat).

Definition cellCenter (lt ln : Q) : LatLng :=
mkLatLng (lt + gridSizeLat / 2) (ln + gridSizeLon / 2).

(** ** Gap analysis *)

Definition baseSamples : list LatLng :=
map (fun s => mkLatLng (lat s) (lon s))
    (filter sampled (samples2025 (data st)))
++ map (fun e => mkLatLng (lat e) (lon e)) (eaSamples (data st)).

Definition densitySamples : list LatLng :=
baseSamples ++
(if includePlannedInGaps st
 then map (fun p => mkLatLng (lat p) (lon p)) (plannedPoints st)
 else []).

(** The counting loop of one cell. *)
Definition countNear (center : LatLng) : nat :=
fold_left (fun count s =>
  if Qle_bool (distanceTo center (mkLatLng (lat s) (lon s))) searchRadius
  then S count else count) densitySamples O.

Definition gapCell (lt ln : Q) : list Rect :=
let count := countNear (cellCenter lt ln) in
let '(color, opacity) :=
  if (count =? 0)%nat then ("#ff0000"%string, 35 # 100)
  else if (count <=? 2)%nat then ("#ffff00"%string, 3 # 10)
  else ("#00ff00"%string, 2 # 10) in
[mkRect lt ln (lt + gridSizeLat) (ln + gridSizeLon) color opacity].

(** [createGapGrid]: the rectangles added to the gap layer, in order.
    Without base samples the bounds are infinities of the wrong sign and
    the loops do not run. *)
Definition createGapGrid : list Rect :=
match baseSamples with
| [] => []
| _ =>
  let lats := map ll_lat baseSamples in
  let lons := map ll_lon baseSamples in
  let minLat := listMin lats - PAD in
  let maxLat := listMax lats + PAD in
  let minLon := listMin lons - PAD in
  let maxLon := listMax lons + PAD in
  gridLoop minLat maxLat minLon maxLon gapCell
end.

(** ** Hot zones *)

Definition allSamples : list SamplePoint :=
let analyte := currentAnalyte st in
flat_map (fun s =>
  match Utils.getSampleValue s analyte false with
  | Some val => [mkSample (lat s) (lon s) val]
  | None => []
  end) (filter sampled (samples2025 (data st)))
++ flat_map (fun e =>
  match Utils.getSampleValue e analyte true with
  | Some val => [mkSample (lat e) (lon e) val]
  | None => []
  end) (eaSamples (data st)).

Definition inRadius (center : LatLng) (s : SamplePoint) : bool :=
Qle_bool (distanceTo center (mkLatLng (lat s) (lon s))) searchRadius.

(** The scanning loop of one cell: the pair [(maxVal, foundAny)] after the
    samples in [samples], started from the pair given. *)
Definition scanCell (center : LatLng) (samples : list SamplePoint)
  (init : Q * bool) : Q * bool :=
fold_left (fun '(maxVal, foundAny) s =>
  if inRadius center s
  then (if Qltb maxVal (value s) then value s else maxVal, true)
  else (maxVal, foundAny)) samples init.

(** The colour and opacity chosen from [maxVal]. *)
Definition classify (maxVal : Q) (thresh : Threshold) : string * Q :=
if Qltb (high thresh) maxVal then ("#ff0000"%string, 5 # 10)
else if Qltb (low thresh) maxVal then ("#ff9900"%string, 4 # 10)
else ("#00cc00"%string, 25 # 100).

Definition hotCell (lt ln : Q) : list Rect :=
let '(maxVal, foundAny) := scanCell (cellCenter lt ln) allSamples (0, false) in
if negb foundAny then []
else
  let '(color, opacity) := classify maxVal (thresholds (currentAnalyte st)) in
  [mkRect lt ln (lt + gridSizeLat) (ln + gridSizeLon) color opacity].

(** [createHotZoneGrid]: the rectangles added to the hot-zone layer. *)
Definition createHotZoneGrid : list Rect :=
match allSamples with
| [] => []
| _ =>
  let lats := map sp_lat allSamples in
  let lons := map sp_lon allSamples in
  let minLat := listMin lats - PAD in
  let maxLat := listMax lats + PAD in
  let minLon := listMin lons - PAD in
  let maxLon := listMax lons + PAD in
  gridLoop minLat maxLat minLon maxLon hotCell
end.

End Grid.

End Analysis.

(* ================================================================== *)
(** * Cross-section module *)
(* ================================================================== *)

Module CrossSection.

Definition COLUMN_WIDTH_PX : Q := 24.

(** ** Column layout *)

(** A column position [{id, x}]. *)
Record Pos : Type := mkPos { id : string; x : Q }.

Definition setX (p : Pos) (x' : Q) : Pos := mkPos (id p) x'.

Section Layout.
Variable minGap plotLeft plotRight : Q.

(** One pass of the relaxation loop from index [i] on: [prev] is
    [positions[i - 1]] as the pass has left it and [rest] is
    [positions[i ..]].  Returns the array after the pass and [changed]. *)
Fixpoint relaxFrom (prev : Pos) (rest : list Pos) : list Pos * bool :=
match rest with
| [] => ([prev], false)
| cur :: rest' =>
    let gap := x cur - x prev in
    if Qltb gap minGap then
      let shift := (minGap - gap) / 2 in
      let '(out, _) := relaxFrom (setX cur (x cur + shift)) rest' in
      (setX prev (x prev - shift) :: out, true)
    else
      let '(out, changed) := relaxFrom cur rest' in
      (prev :: out, changed)
end.

Definition relaxPass (positions : list Pos) : list Pos * bool :=
match positions with
| [] => ([], false)
| p :: rest => relaxFrom p rest
end.

(** The [for (pass ...)] loop with [passes] passes left. *)
Fixpoint relax (passes : nat) (positions : list Pos) : list Pos :=
match passes with
| O => positions
| S passes' =>
    let '(positions', changed) := relaxPass positions in
    if changed then relax passes' positions' else positions'
end.

Definition clamp (p : Pos) : Pos :=
let halfCol := COLUMN_WIDTH_PX / 2 in
let p1 := if Qltb (x p - halfCol) plotLeft then setX p (plotLeft + halfCol) else p in
if Qltb plotRight (x p1 + halfCol) then setX p1 (plotRight - halfCol) else p1.

Definition byX (a b : Pos) : Q := x a - x b.

Definition resolveOverlaps (positions : list Pos) : list Pos :=
if (length positions <=? 1)%nat then positions
else map clamp (relax 5 (sort byX positions)).

End Layout.

(** ** Transect clicks *)

(** What [showStatus] displays. *)
Inductive StatusMsg : Type :=
| MsgClickFirst            (* Click first point of transect line... *)
| MsgClickSecond           (* Click second point of transect line... *)
| MsgTooShort              (* Transect too short. Click two distinct points. *)
| MsgNoSamples (widthFt : Q).  (* No samples within <width>ft corridor. ... *)

Section Transect.

(** A collected depth interval; its fields play no part here. *)
Variable Interval : Type.

(** Leaflet's [LatLng.distanceTo], in meters. *)
Variable distanceTo : LatLng -> LatLng -> Q.

(** [collectSamples()] as a function of what it reads: the two transect
    points and the corridor width. *)
Variable collectSamples : LatLng -> LatLng -> Q -> list Interval.

(** The four corners [drawTransectOnMap] computes with [computeBearing]
    and [offsetLatLng] (trigonometry), from the two points and the width. *)
Variable corridorCorners : LatLng -> LatLng -> Q -> list LatLng.

(** The module state, with [AppState.measureMode]. *)
Record State : Type := mkCS {
  active : bool;
  measureMode : bool;
  corridorWidthFt : Q;
  transectPoints : list LatLng;
  transectMarkers : list LatLng;
  transectLine : option (LatLng * LatLng);
  corridorPolygon : option (list LatLng);
  status : option StatusMsg;
  panel : option (list Interval);
  lastSamples : option (list Interval)
}.

Definition clearTransect (s : State) : State :=
mkCS (active s) (measureMode s) (corridorWidthFt s)
     [] [] None None (status s) (panel s) (lastSamples s).

Definition hidePanel (s : State) : State :=
mkCS (active s) (measureMode s) (corridorWidthFt s)
     (transectPoints s) (transectMarkers s) (transectLine s)
     (corridorPolygon s) (status s) None (lastSamples s).

Definition setLastSamples (s : State) (v : option (list Interval)) : State :=
mkCS (active s) (measureMode s) (corridorWidthFt s)
     (transectPoints s) (transectMarkers s) (transectLine s)
     (corridorPolygon s) (status s) (panel s) v.

Definition setStatus (s : State) (m : option StatusMsg) : State :=
mkCS (active s) (measureMode s) (corridorWidthFt s)
     (transectPoints s) (transectMarkers s) (transectLine s)
     (corridorPolygon s) m (panel s) (lastSamples s).

Definition showStatus (s : State) (m : StatusMsg) : State := setStatus s (Some m).
Definition hideStatus (s : State) : State := setStatus s None.

Definition renderPanel (s : State) (samples : list Interval) : State :=
mkCS (active s) (measureMode s) (corridorWidthFt s)
     (transectPoints s) (transectMarkers s) (transectLine s)
     (corridorPolygon s) (status s) (Some samples) (lastSamples s).

(** Push a marker and a point. *)
Definition pushPoint (s : State) (latlng : LatLng) : State :=
mkCS (active s) (measureMode s) (corridorWidthFt s)
     (transectPoints s ++ [latlng]) (transectMarkers s ++ [latlng])
     (transectLine s) (corridorPolygon s) (status s) (panel s) (lastSamples s).

(** Pop the last marker and the last point. *)
Definition popPoint (s : State) : State :=
mkCS (active s) (measureMode s) (corridorWidthFt s)
     (removelast (transectPoints s)) (removelast (transectMarkers s))
     (transectLine s) (corridorPolygon s) (status s) (panel s) (lastSamples s).

Definition drawTransectOnMap (s : State) : State :=
match transectPoints s with
| a :: b :: _ =>
    mkCS (active s) (measureMode s) (corridorWidthFt s)
         (transectPoints s) (transectMarkers s)
         (Some (a, b)) (Some (corridorCorners a b (corridorWidthFt s)))
         (status s) (panel s) (lastSamples s)
| _ => s
end.

(** [handleTransectClick(e)] with [latlng = e.latlng]. *)
Definition handleTransectClick (s : State) (latlng : LatLng) : State :=
if negb (active s) then s
else if measureMode s then s
else
  let s := if (2 <=? length (transectPoints s))%nat
           then setLastSamples (hidePanel (clearTransect s)) None
           else s in
  let s := pushPoint s latlng in
  match transectPoints s with
  | [_] => showStatus s MsgClickSecond
  | [p0; p1] =>
      let lengthM := distanceTo p0 p1 in
      if Qltb lengthM 3 then popPoint (showStatus s MsgTooShort)
      else
        let s := drawTransectOnMap (hideStatus s) in
        let samples := collectSamples p0 p1 (corridorWidthFt s) in
        if (0 <? length samples)%nat
        then renderPanel (setLastSamples s (Some samples)) samples
        else showStatus s (MsgNoSamples (corridorWidthFt s))
  | _ => s
  end.

End Transect.

End CrossSection.

(* ================================================================== *)
(** * Polygon module: enclosed area *)
(* ================================================================== *)

Module Polygon.

(** A vertex in feet, [{x, y}]. *)
Record XY : Type := mkXY { px : Q; py : Q }.

Section Area.
Context {A : Type} `{HasLatLon A}.
Variable conv : CoordConversion.

(** The conversion of one vertex to feet relative to [origin]. *)
Definition toFeet (origin v : A) : XY :=
let dLat := lat v - lat origin in
let dLon := lon v - lon origin in
let yFt := (dLat * metersPerDegLat conv) / feetToMeters conv in
let xFt := (dLon * metersPerDegLon conv) / feetToMeters conv in
mkXY xFt yFt.

(** The body of the shoelace loop at index [i]. *)
Definition shoelaceStep (points : list XY) (area : Q) (i : nat) : Q :=
let n := length points in
let j := ((i + 1) mod n)%nat in
let pi := nth i points (mkXY 0 0) in
let pj := nth j points (mkXY 0 0) in
area + px pi * py pj - px pj * py pi.

(** [calculateAreaSqFt(verts)]. *)
Definition calculateAreaSqFt (verts : list A) : Q :=
if (length verts <? 3)%nat then 0
else
  match verts with
  | [] => 0
  | origin :: _ =>
      let points := map (toFeet origin) verts in
      let n := length points in
      let area := fold_left (shoelaceStep points) (seq 0 n) 0 in
      Qabs (area / 2)
  end.

End Area.

End Polygon.

Unset Implicit Arguments.

(* ================================================================== *)
(** * Contour module: the overlay *)
(* ================================================================== *)

Module Overlay.
Import Contour.

Definition GRID_METERS : Q := 10.
Definition HULL_BUFFER_METERS : Q := 30.
Definition BOUNDS_BUFFER_DEG : Q := 5 # 10000.

(** The canvas handed to [L.imageOverlay]: its size in pixels, its RGBA
    bytes row by row from the north edge, and the bounds it is laid
    over. *)
Record Raster : Type := mkRaster {
  width : Z;
  height : Z;
  pixels : list Z;
  south : Q;
  west : Q;
  north : Q;
  east : Q
}.

Section Generate.
Variable conv : CoordConversion.
Variable sqrt : Q -> Q.

(** [AppConfig.thresholds[analyte]], [None] where the source finds no
    entry. *)
Variable thresholds : string -> option Threshold.

Variable st : AppState.

(** [collectSamplePoints()]. *)
Definition collectSamplePoints : list SamplePoint :=
let analyte := currentAnalyte st in
flat_map (fun s =>
  if negb (sampled s) then []
  else
    match (match metals s with Some m => m analyte | None => None end) with
    | Some val => [mkSample (lat s) (lon s) val]
    | None => []
    end) (samples2025 (data st))
++ flat_map (fun e =>
  match Utils.getSampleValue e analyte true with
  | Some eVal => [mkSample (lat e) (lon e) eVal]
  | None => []
  end) (eaSamples (data st)).

Definition minLat : Q := listMin (map sp_lat collectSamplePoints) - BOUNDS_BUFFER_DEG.
Definition maxLat : Q := listMax (map sp_lat collectSamplePoints) + BOUNDS_BUFFER_DEG.
Definition minLon : Q := listMin (map sp_lon collectSamplePoints) - BOUNDS_BUFFER_DEG.
Definition maxLon : Q := listMax (map sp_lon collectSamplePoints) + BOUNDS_BUFFER_DEG.

Definition cellLat : Q := GRID_METERS / metersPerDegLat conv.
Definition cellLon : Q := GRID_METERS / metersPerDegLon conv.

(** The safety clamp on a grid dimension. *)
Definition clampDim (n : Z) : Z := if (1000 <? n)%Z then 1000%Z else n.

Definition cols : Z := clampDim (Qceiling ((maxLon - minLon) / cellLon)).
Definition rows : Z := clampDim (Qceiling ((maxLat - minLat) / cellLat)).

Definition bufferedHull : list LatLng :=
bufferConvexHull conv sqrt (computeConvexHull collectSamplePoints)
  HULL_BUFFER_METERS.

(** The centre of the cell at [row], [col]; row 0 is the northern one. *)
Definition centerLat (row : nat) : Q :=
maxLat - (inject_Z (Z.of_nat row) + (1 # 2)) * cellLat.

Definition centerLon (col : nat) : Q :=
minLon + (inject_Z (Z.of_nat col) + (1 # 2)) * cellLon.

(** The four bytes of the pixel at [row], [col]: left at zero outside the
    buffered hull, the colour of the interpolated value and full opacity
    inside. *)
Definition pixelAt (thresh : Threshold) (row col : nat) : list Z :=
let lt := centerLat row in
let ln := centerLon col in
if negb (pointInConvexHull lt ln bufferedHull) then [0; 0; 0; 0]%Z
else
  let value := computeIDW conv lt ln collectSamplePoints in
  let color := valueToColor value thresh in
  [r color; g color; b color; 255%Z].

(** [generateContour()]: the overlay added to the map, [None] where the
    function returns before building one. *)
Definition generateContour : option Raster :=
if (length collectSamplePoints <? 3)%nat then None
else
  match thresholds (currentAnalyte st) with
  | None => None
  | Some thresh =>
      Some (mkRaster cols rows
        (flat_map (fun row =>
           flat_map (fun col => pixelAt thresh row col)
                    (seq 0 (Z.to_nat cols)))
           (seq 0 (Z.to_nat rows)))
        minLat minLon maxLat maxLon)
  end.

End Generate.

End Overlay.

(* ================================================================== *)
(** * Analysis module: grid size and buffer radius *)
(* ================================================================== *)

Module Tools.

(** [AppConfig.gridDefaults]; not among the sources, a parameter. *)
Record GridDefaults : Type := mkDefaults {
  sizeFt : Q;
  minSizeFt : Q;
  maxSizeFt : Q
}.

Definition setGridSize (st : AppState) (size : Q) : AppState :=
mkState (data st) (plannedPoints st) (includePlannedInGaps st) size
        (currentAnalyte st).

(** [adjustGridSize(delta)], as a change of [AppState]. *)
Definition adjustGridSize (defaults : GridDefaults) (st : AppState)
  (delta : Q) : AppState :=
let newSize := gridSizeFt st + delta in
let newSize := if Qltb newSize (minSizeFt defaults)
               then minSizeFt defaults else newSize in
let newSize := if Qltb (maxSizeFt defaults) newSize
               then maxSizeFt defaults else newSize in
setGridSize st newSize.

(** [toggleIncludePlanned()], as a change of [AppState]. *)
Definition toggleIncludePlanned (st : AppState) : AppState :=
mkState (data st) (plannedPoints st) (negb (includePlannedInGaps st))
        (gridSizeFt st) (currentAnalyte st).

(** [adjustBufferRadius(delta)]: the new [AppState.bufferRadiusFt]. *)
Definition adjustBufferRadius (bufferRadiusFt delta : Q) : Q :=
Qmax 25 (Qmin 200 (bufferRadiusFt + delta)).

End Tools.

(* ================================================================== *)
(** * Cross-section module: projection, collection, scaling *)
(* ================================================================== *)

Module Corridor.

Definition METERS_TO_FEET : Q := 328084 # 100000.
Definition CANVAS_WIDTH : Q := 960.
Definition CANVAS_HEIGHT : Q := 520.
Definition MARGIN_top : Q := 80.
Definition MARGIN_right : Q := 50.
Definition MARGIN_bottom : Q := 70.
Definition MARGIN_left : Q := 75.

(** The result of [projectOntoSegment], [{distance, t}]. *)
Record Projection : Type := mkProjection { distance : Q; t : Q }.

(** An interval of a test pit or boring, [{start, end, label, metals}]. *)
Record DepthInterval : Type := mkDepth {
  d_start : Q;
  d_end : Q;
  d_label : string;
  d_metals : option (string -> option Q)
}.

(** A test pit or soil boring; [depths] is [None] where the record has
    none. *)
Record Location : Type := mkLocation {
  loc_lat : Q;
  loc_lon : Q;
  loc_id : string;
  depths : option (list DepthInterval)
}.

(** A surface sample with its [label] (2025) or [id] (historical). *)
Record Named : Type := mkNamed { sample : Sample; name : string }.

(** The four data sets [collectSamples] walks. *)
Record TransectData : Type := mkTransectData {
  surface2025 : list Named;
  surfaceEA : list Named;
  testPits2025 : list Location;
  soilBorings2025 : list Location
}.

(** An interval record pushed by [tryAdd]. *)
Record Interval : Type := mkInterval {
  i_id : string;
  i_type : string;
  i_distAlong : Q;
  i_depthStart : Q;
  i_depthEnd : Q;
  i_value : option Q;
  i_depthLabel : string;
  i_lat : Q;
  i_lon : Q;
  i_offset : Q
}.

Section Project.

(** Leaflet's [LatLng.distanceTo]. *)
Variable distanceTo : LatLng -> LatLng -> Q.

(** [Math.cos(lat * Math.PI / 180)] as a function of [lat]. *)
Variable cosDeg : Q -> Q.

Variable conv : CoordConversion.

Definition projectOntoSegment (p a b : LatLng) : Projection :=
let cosLat := cosDeg (ll_lat a) in
let apLat := ll_lat p - ll_lat a in
let apLng := (ll_lon p - ll_lon a) * cosLat in
let abLat := ll_lat b - ll_lat a in
let abLng := (ll_lon b - ll_lon a) * cosLat in
let ab2 := abLat * abLat + abLng * abLng in
if Qltb ab2 (1 # 100000000000000000000)
then mkProjection (distanceTo a p) 0
else
  let t := (apLat * abLat + apLng * abLng) / ab2 in
  let t := Qmax 0 (Qmin 1 t) in
  let closestLat := ll_lat a + t * (ll_lat b - ll_lat a) in
  let closestLng := ll_lon a + t * (ll_lon b - ll_lon a) in
  let closest := mkLatLng closestLat closestLng in
  mkProjection (distanceTo closest p) t.

(** The inner function [tryAdd]: the record pushed, if any. *)
Definition tryAdd (a b : LatLng) (corridorWidthFt : Q) (lt ln : Q)
  (id type : string) (depthStart depthEnd : Q) (value : option Q)
  (depthLabel : string) : list Interval :=
let corridorM := corridorWidthFt * feetToMeters conv in
let transectFt := distanceTo a b * METERS_TO_FEET in
let p := mkLatLng lt ln in
let proj := projectOntoSegment p a b in
if Qle_bool (distance proj) corridorM
then [mkInterval id type (t proj * transectFt) depthStart depthEnd value
        depthLabel lt ln (distance proj * METERS_TO_FEET)]
else [].

Definition byDistAlong (ra rb : Interval) : Q := i_distAlong ra - i_distAlong rb.

(** The intervals of one test pit or boring. *)
Definition addLocation (a b : LatLng) (corridorWidthFt : Q)
  (analyte type : string) (loc : Location) : list Interval :=
match depths loc with
| None => []
| Some ds =>
    flat_map (fun d =>
      let val := match d_metals d with
                 | Some m => m analyte
                 | None => None
                 end in
      tryAdd a b corridorWidthFt (loc_lat loc) (loc_lon loc) (loc_id loc)
        type (d_start d) (d_end d) val (d_label d)) ds
end.

(** What the four loops push, before the sort. *)
Definition collected (a b : LatLng) (corridorWidthFt : Q) (analyte : string)
  (data : TransectData) : list Interval :=
flat_map (fun s =>
  if negb (sampled (sample s)) then []
  else
    let val := Utils.getSampleValue (sample s) analyte false in
    tryAdd a b corridorWidthFt (lat (sample s)) (lon (sample s)) (name s)
      "SS" 0 (1 # 2) val "0-6 in") (surface2025 data)
++ flat_map (fun e =>
    let val := Utils.getSampleValue (sample e) analyte true in
    tryAdd a b corridorWidthFt (lat (sample e)) (lon (sample e)) (name e)
      "EA" 0 (1 # 2) val "0-6 in") (surfaceEA data)
++ flat_map (addLocation a b corridorWidthFt analyte "TP") (testPits2025 data)
++ flat_map (addLocation a b corridorWidthFt analyte "SB")
     (soilBorings2025 data).

(** [collectSamples()] for the transect from [a] to [b]. *)
Definition collectSamples (a b : LatLng) (corridorWidthFt : Q)
  (analyte : string) (data : TransectData) : list Interval :=
sort byDistAlong (collected a b corridorWidthFt analyte data).

End Project.

(** ** The plot of [renderCrossSection] *)

Definition pL : Q := MARGIN_left.
Definition pR : Q := CANVAS_WIDTH - MARGIN_right.
Definition pT : Q := MARGIN_top.
Definition pB : Q := CANVAS_HEIGHT - MARGIN_bottom.
Definition pW : Q := pR - pL.
Definition pH : Q := pB - pT.

(** The deepest [depthEnd], not less than 1. *)
Definition deepest (samples : list Interval) : Q :=
fold_left (fun maxDepth s =>
  if Qltb maxDepth (i_depthEnd s) then i_depthEnd s else maxDepth) samples 1.

(** [maxDepth] after the rounding up to a clean number. *)
Definition plotMaxDepth (samples : list Interval) : Q :=
let maxDepth := deepest samples in
if Qle_bool maxDepth 2 then 2
else if Qle_bool maxDepth 5 then 5
else if Qle_bool maxDepth 10 then 10
else if Qle_bool maxDepth 15 then 15
else inject_Z (Qceiling (maxDepth / 10)) * 10.

Definition xPx (transectFt dist : Q) : Q := pL + (dist / transectFt) * pW.
Definition yPx (maxDepth depth : Q) : Q := pT + (depth / maxDepth) * pH.

(** The members a plain object such as [groups = {}] inherits from
    [Object.prototype]; each of them is truthy. *)
Definition objectPrototypeNames : list string :=
["constructor"; "__proto__"; "hasOwnProperty"; "isPrototypeOf";
 "propertyIsEnumerable"; "toLocaleString"; "toString"; "valueOf";
 "__defineGetter__"; "__defineSetter__"; "__lookupGetter__";
 "__lookupSetter__"]%string.

Definition inherited (id : string) : bool :=
existsb (String.eqb id) objectPrototypeNames.

(** The grouping by location id, [groupOrder] mapped to [{id, x}]: one
    per id, in the order of first appearance, at the [distAlong] of the
    first interval with that id; [seen] holds the ids that have a group.
    For an id that names an inherited member, [groups[s.id]] is truthy
    without being a group: no group is made, [groups[s.id].intervals] is
    undefined and the call of [push] on it throws a TypeError, here
    [None]. *)
Fixpoint groupColumns (transectFt : Q) (seen : list string)
  (samples : list Interval) : option (list CrossSection.Pos) :=
match samples with
| [] => Some []
| s :: rest =>
    if inherited (i_id s) then None
    else if existsb (String.eqb (i_id s)) seen
    then groupColumns transectFt seen rest
    else
      option_map
        (cons (CrossSection.mkPos (i_id s) (xPx transectFt (i_distAlong s))))
        (groupColumns transectFt (i_id s :: seen) rest)
end.

(** [displayPositions] of [renderCrossSection]; [None] when the grouping
    threw. *)
Definition displayPositions (transectFt : Q) (samples : list Interval)
  : option (list CrossSection.Pos) :=
option_map
  (CrossSection.resolveOverlaps (CrossSection.COLUMN_WIDTH_PX + 2) pL pR)
  (groupColumns transectFt [] samples).

End Corridor.

(* ================================================================== *)
(** * Cross-section module: switching the tool on and off *)
(* ================================================================== *)

Module Mode.
Import CrossSection.

Section Tool.
Variable Interval : Type.

(** The module state together with what it shares with [AppState]:
    [currentMode], [crossSectionMode], and whether the click handler is
    bound to the map. *)
Record Tool : Type := mkTool {
  cs : State Interval;
  currentMode : string;
  savedMode : string;
  crossSectionMode : bool;
  listening : bool
}.

Definition setActive (s : State Interval) (act mm : bool) : State Interval :=
mkCS act mm (corridorWidthFt s) (transectPoints s) (transectMarkers s)
     (transectLine s) (corridorPolygon s) (status s) (panel s) (lastSamples s).

(** [activate()].  [AnalysisModule.toggleMeasureMode()] leaves measure
    mode when it is on. *)
Definition activate (tool : Tool) : Tool :=
if active (cs tool) then tool
else
  let s := setActive (cs tool) true false in
  let s := clearTransect s in
  let s := setLastSamples s None in
  let s := hidePanel s in
  let s := showStatus s MsgClickFirst in
  mkTool s "view" (currentMode tool) true true.

(** [deactivate()]. *)
Definition deactivate (tool : Tool) : Tool :=
if negb (active (cs tool)) then tool
else
  let s := setActive (cs tool) false (measureMode (cs tool)) in
  let s := clearTransect s in
  let s := hidePanel s in
  let s := hideStatus s in
  let s := setLastSamples s None in
  mkTool s (savedMode tool) (savedMode tool) false false.

(** [toggle()] once the module is initialised. *)
Definition toggle (tool : Tool) : Tool :=
if active (cs tool) then deactivate tool else activate tool.

End Tool.

(** ** What happens to the tool *)

Definition DEFAULT_CORRIDOR_FT : Q := 50.

(** A click on the map, the toolbar button, the Escape key, the close
    button of the panel, and the measure button of the analysis tools. *)
Inductive Event : Type :=
| Click (latlng : LatLng)
| Toggle
| Escape
| Close
| ToggleMeasure.

Section Events.
Variable Interval : Type.
Variable distanceTo : LatLng -> LatLng -> Q.
Variable collectSamples : LatLng -> LatLng -> Q -> list Interval.
Variable corridorCorners : LatLng -> LatLng -> Q -> list LatLng.

Definition withCS (tool : Tool Interval) (s : State Interval) : Tool Interval :=
mkTool Interval s (currentMode Interval tool) (savedMode Interval tool)
       (crossSectionMode Interval tool) (listening Interval tool).

(** The listener of the close button. *)
Definition closePanel (s : State Interval) : State Interval :=
let s := hidePanel s in
let s := clearTransect s in
let s := setLastSamples s None in
if active s then showStatus s MsgClickFirst else s.

(** The first line of [AnalysisModule.toggleMeasureMode()]. *)
Definition toggleMeasureMode (s : State Interval) : State Interval :=
setActive Interval s (active s) (negb (measureMode s)).

(** The module before anything has happened to it. *)
Definition initial (mode : string) : Tool Interval :=
mkTool Interval
  (mkCS false false DEFAULT_CORRIDOR_FT [] [] None None None None None)
  mode "view" false false.

(** One event; the map calls [handleTransectClick] only while it is
    bound. *)
Definition step (tool : Tool Interval) (ev : Event) : Tool Interval :=
match ev with
| Click latlng =>
    if listening Interval tool
    then withCS tool
           (handleTransectClick distanceTo collectSamples corridorCorners
              (cs Interval tool) latlng)
    else tool
| Toggle => toggle Interval tool
| Escape =>
    if active (cs Interval tool) then deactivate Interval tool else tool
| Close => withCS tool (closePanel (cs Interval tool))
| ToggleMeasure => withCS tool (toggleMeasureMode (cs Interval tool))
end.

Definition run (tool : Tool Interval) (events : list Event) : Tool Interval :=
fold_left step events tool.

End Events.

End Mode.

(* ================================================================== *)
(** * Polygon module: containment and statistics *)
(* ================================================================== *)

Module Region.

Section InPolygon.
Context {A : Type} `{HasLatLon A}.

(** The crossing test of [pointInPolygon] for the edge between
    [polygon[i]] and [polygon[j]]. *)
Definition intersect (lt ln : Q) (vi vj : A) : bool :=
let yi := lat vi in
let xi := lon vi in
let yj := lat vj in
let xj := lon vj in
negb (Bool.eqb (Qltb lt yi) (Qltb lt yj))
&& Qltb ln ((xj - xi) * (lt - yi) / (yj - yi) + xi).

(** The loop of [pointInPolygon] from index [i] on; [vj] is
    [polygon[j]], the vertex before. *)
Fixpoint rayLoop (lt ln : Q) (vj : A) (rest : list A) (inside : bool) : bool :=
match rest with
| [] => inside
| vi :: rest' =>
    rayLoop lt ln vi rest'
      (if intersect lt ln vi vj then negb inside else inside)
end.

(** [pointInPolygon(lat, lon, polygon)]; the loop starts with
    [j = n - 1]. *)
Definition pointInPolygon (lt ln : Q) (polygon : list A) : bool :=
match polygon with
| [] => false
| v0 :: _ => rayLoop lt ln (last polygon v0) polygon false
end.

End InPolygon.

(** The statistics of one analyte, [{count, min, max, mean,
    exceedances}]; [None] is [null]. *)
Record AnalyteStats : Type := mkStats {
  count : nat;
  min : option Q;
  max : option Q;
  mean : option Q;
  exceedances : nat
}.

(** What [analyzePolygon] returns. *)
Record Analysis : Type := mkAnalysis {
  totalSamples : nat;
  stats : list (string * AnalyteStats);
  areaSqFt : Q
}.

Definition analytes : list string :=
["Mercury"; "Arsenic"; "Antimony"; "Thallium"]%string.

Section Analyze.
Variable conv : CoordConversion.

(** [AppConfig.exceedsROD(val, analyte)]. *)
Variable exceedsROD : Q -> string -> bool.

(** The rounding of the sum and of the quotient that give the mean. *)
Variable rnd : Q -> Q.

(** The entries [{sample, isEA}] of the samples inside the polygon. *)
Definition samplesInside (verts : list LatLng) (data : AppData)
  : list (Sample * bool) :=
flat_map (fun s =>
  if negb (sampled s) || (match metals s with Some _ => false | None => true end)
  then []
  else if pointInPolygon (lat s) (lon s) verts then [(s, false)] else [])
  (samples2025 data)
++ flat_map (fun e =>
  if pointInPolygon (lat e) (lon e) verts then [(e, true)] else [])
  (eaSamples data).

(** The values of one analyte among the samples inside. *)
Definition valuesOf (analyte : string) (inside : list (Sample * bool)) : list Q :=
flat_map (fun entry =>
  match Utils.getSampleValue (fst entry) analyte (snd entry) with
  | Some val => [val]
  | None => []
  end) inside.

Definition statsOf (analyte : string) (inside : list (Sample * bool))
  : AnalyteStats :=
let values := valuesOf analyte inside in
let exceedCount :=
  fold_left (fun n val => if exceedsROD val analyte then S n else n)
            values O in
if (0 <? length values)%nat then
  let sum := fold_left (fun a b => rnd (a + b)) values 0 in
  mkStats (length values) (Some (listMin values)) (Some (listMax values))
          (Some (rnd (sum / Qlen values))) exceedCount
else mkStats (length values) None None None exceedCount.

(** [analyzePolygon(verts)]. *)
Definition analyzePolygon (verts : list LatLng) (data : AppData) : Analysis :=
let inside := samplesInside verts data in
mkAnalysis (length inside)
  (map (fun analyte => (analyte, statsOf analyte inside)) analytes)
  (Polygon.calculateAreaSqFt conv verts).

End Analyze.

End Region.

(* ================================================================== *)
(** * Planned points and their undo history *)
(* ================================================================== *)

Module History.

(** A planned point, [{id, type, lat, lon, note, depth, color}]. *)
Record Point : Type := mkPoint {
  p_id : string;
  p_type : string;
  p_lat : Q;
  p_lon : Q;
  p_note : string;
  p_depth : string;
  p_color : string
}.

(** An entry of the undo or redo stack.  The [data] of [add_point] and
    [delete_point] is a point object, here the index of the object among
    [objects]; the other two carry plain values. *)
Inductive Action : Type :=
| add_point (data : nat)
| delete_point (data : nat)
| move_point (id : string) (oldLat oldLon newLat newLon : Q)
| edit_point (id : string) (oldNote oldDepth newNote newDepth : string).

(** The point objects created so far, [AppState.plannedPoints] as the
    objects it holds, and the two stacks, last element on top. *)
Record Plan : Type := mkPlan {
  objects : list Point;
  plannedPoints : list nat;
  undoStack : list Action;
  redoStack : list Action
}.

Definition maxUndoSize : nat := 50.

Definition nullPoint : Point := mkPoint "" "" 0 0 "" "" "".

Definition obj (s : Plan) (ref : nat) : Point := nth ref (objects s) nullPoint.

(** Assignment to the fields of one object. *)
Fixpoint update (objs : list Point) (ref : nat) (f : Point -> Point)
  : list Point :=
match objs, ref with
| [], _ => []
| o :: rest, O => f o :: rest
| o :: rest, S ref' => o :: update rest ref' f
end.

(** [splice(idx, 1)]. *)
Fixpoint removeAt {B : Type} (idx : nat) (l : list B) : list B :=
match l, idx with
| [], _ => []
| _ :: rest, O => rest
| x :: rest, S idx' => x :: removeAt idx' rest
end.

(** [state.pushUndo(action)]. *)
Definition pushUndo (s : Plan) (action : Action) : Plan :=
let stack := undoStack s ++ [action] in
let stack := if (maxUndoSize <? length stack)%nat then tl stack else stack in
mkPlan (objects s) (plannedPoints s) stack [].

(** [plannedPoints.findIndex(p => p.id === pointId)]. *)
Fixpoint findIndexFrom (s : Plan) (pointId : string) (refs : list nat)
  (idx : nat) : option nat :=
match refs with
| [] => None
| ref :: rest =>
    if String.eqb (p_id (obj s ref)) pointId then Some idx
    else findIndexFrom s pointId rest (S idx)
end.

Definition findIndex (s : Plan) (pointId : string) : option nat :=
findIndexFrom s pointId (plannedPoints s) 0.

(** [plannedPoints.find(p => p.id === pointId)]: the object found. *)
Definition find (s : Plan) (pointId : string) : option nat :=
match findIndex s pointId with
| Some idx => nth_error (plannedPoints s) idx
| None => None
end.

(** The deletion shared by [deletePointById] and the delete button of
    the list: a deep copy of the point at [idx] goes on the undo
    stack. *)
Definition deleteAt (s : Plan) (idx : nat) : Plan :=
match nth_error (plannedPoints s) idx with
| None => s
| Some ref =>
    let deletedPoint := length (objects s) in
    let s := mkPlan (objects s ++ [obj s ref])
                    (removeAt idx (plannedPoints s))
                    (undoStack s) (redoStack s) in
    pushUndo s (delete_point deletedPoint)
end.

(** [PlanningModule.deletePointById(pointId)]. *)
Definition deletePointById (s : Plan) (pointId : string) : Plan :=
match findIndex s pointId with
| Some idx => deleteAt s idx
| None => s
end.

Definition pushPoint (s : Plan) (ref : nat) : Plan :=
mkPlan (objects s) (plannedPoints s ++ [ref]) (undoStack s) (redoStack s).

Definition assign (s : Plan) (ref : nat) (f : Point -> Point) : Plan :=
mkPlan (update (objects s) ref f) (plannedPoints s) (undoStack s)
       (redoStack s).

Definition setLatLon (lt ln : Q) (p : Point) : Point :=
mkPoint (p_id p) (p_type p) lt ln (p_note p) (p_depth p) (p_color p).

Definition setNoteDepth (note depth : string) (p : Point) : Point :=
mkPoint (p_id p) (p_type p) (p_lat p) (p_lon p) note depth (p_color p).

(** The end of [confirmAddPoint] and of [addFromCoordinates], from the
    new point object on. *)
Definition addPoint (s : Plan) (point : Point) : Plan :=
let ref := length (objects s) in
let s := mkPlan (objects s ++ [point]) (plannedPoints s ++ [ref])
                (undoStack s) (redoStack s) in
pushUndo s (add_point ref).

(** The [dragend] listener of the marker of the point object [ref]. *)
Definition dragEnd (s : Plan) (ref : nat) (newLat newLon : Q) : Plan :=
let oldLat := p_lat (obj s ref) in
let oldLon := p_lon (obj s ref) in
let s := assign s ref (setLatLon newLat newLon) in
pushUndo s (move_point (p_id (obj s ref)) oldLat oldLon newLat newLon).

(** [savePointNote(pointId)] with the two inputs read from the popup. *)
Definition savePointNote (s : Plan) (pointId note depth : string) : Plan :=
match find s pointId with
| Some ref =>
    let oldNote := p_note (obj s ref) in
    let oldDepth := p_depth (obj s ref) in
    let s := assign s ref (setNoteDepth note depth) in
    pushUndo s (edit_point (p_id (obj s ref)) oldNote oldDepth
                  (p_note (obj s ref)) (p_depth (obj s ref)))
| None => s
end.

(** [clearAllPlanned()] once confirmed. *)
Definition clearAllPlanned (s : Plan) : Plan :=
match plannedPoints s with
| [] => s
| _ => mkPlan (objects s) [] [] []
end.

(** [state.undo()]. *)
Definition undo (s : Plan) : Plan :=
match undoStack s with
| [] => s
| a0 :: rest =>
    let action := last rest a0 in
    let s := mkPlan (objects s) (plannedPoints s) (removelast (undoStack s))
                    (redoStack s ++ [action]) in
    match action with
    | add_point data => deletePointById s (p_id (obj s data))
    | delete_point data => pushPoint s data
    | move_point id oldLat oldLon _ _ =>
        match find s id with
        | Some ref => assign s ref (setLatLon oldLat oldLon)
        | None => s
        end
    | edit_point id oldNote oldDepth _ _ =>
        match find s id with
        | Some ref => assign s ref (setNoteDepth oldNote oldDepth)
        | None => s
        end
    end
end.

(** [state.redo()]. *)
Definition redo (s : Plan) : Plan :=
match redoStack s with
| [] => s
| a0 :: rest =>
    let action := last rest a0 in
    let s := mkPlan (objects s) (plannedPoints s) (undoStack s ++ [action])
                    (removelast (redoStack s)) in
    match action with
    | add_point data => pushPoint s data
    | delete_point data => deletePointById s (p_id (obj s data))
    | move_point id _ _ newLat newLon =>
        match find s id with
        | Some ref => assign s ref (setLatLon newLat newLon)
        | None => s
        end
    | edit_point id _ _ newNote newDepth =>
        match find s id with
        | Some ref => assign s ref (setNoteDepth newNote newDepth)
        | None => s
        end
    end
end.

(** What the user does to the plan. *)
Inductive Edit : Type :=
| Add (point : Point)
| DeleteById (pointId : string)
| DeleteListed (idx : nat)
| Drag (ref : nat) (newLat newLon : Q)
| Save (pointId note depth : string)
| ClearAll
| Undo
| Redo.

Definition apply (s : Plan) (e : Edit) : Plan :=
match e with
| Add point => addPoint s point
| DeleteById pointId => deletePointById s pointId
| DeleteListed idx => deleteAt s idx
| Drag ref newLat newLon => dragEnd s ref newLat newLon
| Save pointId note depth => savePointNote s pointId note depth
| ClearAll => clearAllPlanned s
| Undo => undo s
| Redo => redo s
end.

Definition applyAll (s : Plan) (edits : list Edit) : Plan :=
fold_left apply edits s.

End History.

(* ================================================================== *)
(** * Planning module: numbering the points *)
(* ================================================================== *)

Module Numbering.

Section Next.

(** [parseInt] of the rest of an id; [None] is [NaN]. *)
Variable parseInt : string -> option Z.

(** The array [usedNums] for the ids of the planned points. *)
Definition usedNums (prefix : string) (ids : list string) : list (option Z) :=
flat_map (fun id =>
  if String.prefix prefix id
  then [parseInt (String.substring (String.length prefix)
                    (String.length id - String.length prefix) id)]
  else []) ids.

(** [usedNums.indexOf(nextNum) !== -1]; [NaN] equals no number. *)
Definition isUsed (used : list (option Z)) (nextNum : nat) : bool :=
existsb (fun num =>
  match num with
  | Some z => (z =? Z.of_nat nextNum)%Z
  | None => false
  end) used.

(** The [while] loop, unrolled at most [fuel] times. *)
Fixpoint nextFrom (fuel : nat) (used : list (option Z)) (nextNum : nat) : nat :=
match fuel with
| O => nextNum
| S fuel' =>
    if isUsed used nextNum then nextFrom fuel' used (S nextNum) else nextNum
end.

(** [getNextPointNumber(type)] for the prefix of the type; the loop
    cannot run more often than there are numbers in use. *)
Definition getNextPointNumber (prefix : string) (ids : list string) : nat :=
let used := usedNums prefix ids in
nextFrom (S (length used)) used 1.

End Next.

End Numbering.

(* ================================================================== *)
(** * Double-precision rounding *)
(* ================================================================== *)

(** The numbers of the source are doubles: each arithmetic operation
    returns the double nearest to its exact result, ties going to the even
    significand.  [round64] is that rounding on the rationals, the
    exponent range left unbounded: what the operation returns as long as
    it neither overflows nor falls into the subnormal range. *)

Module Binary64.

Definition pow2 (e : Z) : Q := 2 ^ e.

(** The exponent [e] with [2^e <= x < 2^(e+1)], for positive [x]. *)
Definition exponent (x : Q) : Z :=
let e0 := (Z.log2 (Qnum x) - Z.log2 (Zpos (Qden x)))%Z in
if Qle_bool (pow2 e0) x then e0 else (e0 - 1)%Z.

(** The integer nearest to [q], ties to the even one. *)
Definition nearestEven (q : Q) : Z :=
let f := Qfloor q in
let r := q - inject_Z f in
match Qcompare r (1 # 2) with
| Lt => f
| Gt => (f + 1)%Z
| Eq => if Z.even f then f else (f + 1)%Z
end.

(** The number with a 53-bit significand nearest to [x], ties to even:
    what a double operation returns for the exact result [x], as long as
    the exponent stays in the normal range. *)
Definition round64 (x : Q) : Q :=
match Qnum x with
| Z0 => 0
| _ =>
    let a := Qabs x in
    let ulp := pow2 (exponent a - 52) in
    let m := inject_Z (nearestEven (a / ulp)) in
    Qred (if Qle_bool 0 x then m * ulp else - (m * ulp))
end.

(** The relative error bound of [round64]. *)
Definition epsilon : Q := 1 # 9007199254740992.

End Binary64.

(** A rounding is accurate to [u] when its relative error is at most
    [u]. *)
Definition accurate (u : Q) (rnd : Q -> Q) : Prop :=
forall x, Qabs (rnd x - x) <= u * Qabs x.

(* ================================================================== *)
(** * The contour module with every operation rounded *)
(* ================================================================== *)

(** The functions of [Contour] once more, each arithmetic operation
    followed by the rounding [rnd].  With [Binary64.round64] for [rnd] and
    doubles for arguments these are the numbers the source computes; the
    definitions of [Contour] give the exact values they approximate. *)

Module Rounded.

Section Arithmetic.

(** The rounding that follows every arithmetic operation on numbers;
    [Binary64.round64] for the doubles of the source. *)
Variable rnd : Q -> Q.

Definition add (a b : Q) : Q := rnd (a + b).
Definition sub (a b : Q) : Q := rnd (a - b).
Definition mul (a b : Q) : Q := rnd (a * b).
Definition div (a b : Q) : Q := rnd (a / b).

(** ** [computeIDW] *)

Section IDW.
Variable conv : CoordConversion.

(** [distSq] of the loop body for the sample [p]. *)
Definition distSqTo (lt ln : Q) (p : SamplePoint) : Q :=
let dLat := mul (sub lt (lat p)) (metersPerDegLat conv) in
let dLon := mul (sub ln (lon p)) (metersPerDegLon conv) in
add (mul dLat dLat) (mul dLon dLon).

(** The loop of [computeIDW] from index [i] on, with the two
    accumulators. *)
Fixpoint idwLoop (lt ln : Q) (points : list SamplePoint)
  (numerator denominator : Q) : Q :=
match points with
| [] => if Qltb 0 denominator then div numerator denominator else 0
| p :: rest =>
    let distSq := distSqTo lt ln p in
    if Qltb distSq 1 then value p
    else
      let weight := div 1 distSq in
      idwLoop lt ln rest (add numerator (mul (value p) weight))
              (add denominator weight)
end.

Definition computeIDW (lt ln : Q) (points : list SamplePoint) : Q :=
idwLoop lt ln points 0 0.

End IDW.

(** ** [computeConvexHull] and [pointInConvexHull] *)

Section Hull.
Context {A : Type} `{HasLatLon A}.

Definition cross2D (O P B : A) : Q :=
sub (mul (sub (lon P) (lon O)) (sub (lat B) (lat O)))
    (mul (sub (lat P) (lat O)) (sub (lon B) (lon O))).

Definition byLonLat (a b : A) : Q :=
if negb (Qeq_bool (lon a) (lon b)) then sub (lon a) (lon b)
else sub (lat a) (lat b).

(** The inner [while] loop; a chain is kept with its last array element
    first. *)
Fixpoint popWhile (stack : list A) (p : A) : list A :=
match stack with
| top :: ((below :: _) as rest) =>
    if Qle_bool (cross2D below top p) 0 then popWhile rest p else stack
| _ => stack
end.

Definition pushPoint (stack : list A) (p : A) : list A :=
p :: popWhile stack p.

Definition buildChain (pts : list A) : list A :=
fold_left pushPoint pts [].

Definition computeConvexHull (points : list A) : list A :=
if (length points <? 3)%nat then points
else
  let sorted := sort byLonLat points in
  let lower := buildChain sorted in
  let upper := buildChain (rev sorted) in
  rev (tl lower) ++ rev (tl upper).

(** The cross product of the loop body of [pointInConvexHull] for the
    edge from [hi] to [hj]. *)
Definition edgeCross (hi hj : A) (lt ln : Q) : Q :=
sub (mul (sub (lon hj) (lon hi)) (sub lt (lat hi)))
    (mul (sub (lat hj) (lat hi)) (sub ln (lon hi))).

Definition edgeOk (lt ln : Q) (hull : list A) (i : nat) : bool :=
let n := length hull in
let j := ((i + 1) mod n)%nat in
match nth_error hull i, nth_error hull j with
| Some hi, Some hj => negb (Qltb (edgeCross hi hj lt ln) 0)
| _, _ => false
end.

Definition pointInConvexHull (lt ln : Q) (hull : list A) : bool :=
let n := length hull in
if (n <? 3)%nat then false
else forallb (edgeOk lt ln hull) (seq 0 n).

End Hull.

End Arithmetic.

End Rounded.

Set Implicit Arguments.

(* ================================================================== *)
(** * Facts about numbers and arrays *)
(* ================================================================== *)

Lemma Qltb_lt (x y : Q) : Qltb x y = true <-> x < y.
Proof.
unfold Qltb. rewrite negb_true_iff.
split; intro H.
- apply Qnot_le_lt. intro K. apply Qle_bool_iff in K. congruence.
- destruct (Qle_bool y x) eqn:E; [|reflexivity].
  apply Qle_bool_iff in E. exfalso. apply (Qlt_not_le _ _ H E).
Qed.

Lemma Qltb_ge (x y : Q) : Qltb x y = false <-> y <= x.
Proof.
unfold Qltb. rewrite negb_false_iff. apply Qle_bool_iff.
Qed.

Lemma Qle_bool_gt (x y : Q) : Qle_bool x y = false <-> y < x.
Proof.
rewrite <- Qltb_lt. unfold Qltb. rewrite negb_true_iff. tauto.
Qed.

Lemma insert_perm {A : Type} (cmp : A -> A -> Q) (x : A) (l : list A) :
  Permutation (x :: l) (insert cmp x l).
Proof.
induction l as [|y l IH]; simpl.
- apply Permutation_refl.
- destruct (Qle_bool (cmp x y) 0).
  + apply Permutation_refl.
  + eapply perm_trans; [apply perm_swap|]. now apply perm_skip.
Qed.

Lemma sort_perm {A : Type} (cmp : A -> A -> Q) (l : list A) :
  Permutation l (sort cmp l).
Proof.
induction l as [|x l IH]; simpl.
- constructor.
- eapply perm_trans; [|apply insert_perm]. now apply perm_skip.
Qed.

Lemma sort_length {A : Type} (cmp : A -> A -> Q) (l : list A) :
  length (sort cmp l) = length l.
Proof. symmetry. apply Permutation_length, sort_perm. Qed.

Lemma sort_In {A : Type} (cmp : A -> A -> Q) (l : list A) (x : A) :
  In x (sort cmp l) <-> In x l.
Proof.
split; intro H.
- eapply Permutation_in; [apply Permutation_sym, sort_perm|exact H].
- eapply Permutation_in; [apply sort_perm|exact H].
Qed.

Lemma fold_min_le (xs : list Q) (x : Q) : fold_left Qmin xs x <= x.
Proof.
revert x. induction xs as [|y xs IH]; intro x; simpl.
- apply Qle_refl.
- eapply Qle_trans; [apply IH|]. apply Q.le_min_l.
Qed.

Lemma fold_min_le_In (xs : list Q) (x y : Q) :
  In y xs -> fold_left Qmin xs x <= y.
Proof.
revert x. induction xs as [|z xs IH]; intros x Hin; simpl in *.
- contradiction.
- destruct Hin as [->|Hin].
  + eapply Qle_trans; [apply fold_min_le|]. apply Q.le_min_r.
  + now apply IH.
Qed.

Lemma fold_max_ge (xs : list Q) (x : Q) : x <= fold_left Qmax xs x.
Proof.
revert x. induction xs as [|y xs IH]; intro x; simpl.
- apply Qle_refl.
- eapply Qle_trans; [|apply IH]. apply Q.le_max_l.
Qed.

Lemma fold_max_ge_In (xs : list Q) (x y : Q) :
  In y xs -> y <= fold_left Qmax xs x.
Proof.
revert x. induction xs as [|z xs IH]; intros x Hin; simpl in *.
- contradiction.
- destruct Hin as [->|Hin].
  + eapply Qle_trans; [|apply fold_max_ge]. apply Q.le_max_r.
  + now apply IH.
Qed.

Lemma listMin_le (l : list Q) (y : Q) : In y l -> listMin l <= y.
Proof.
destruct l as [|x xs]; simpl; [contradiction|].
intros [->|Hin]; [apply fold_min_le | now apply fold_min_le_In].
Qed.

Lemma listMax_ge (l : list Q) (y : Q) : In y l -> y <= listMax l.
Proof.
destruct l as [|x xs]; simpl; [contradiction|].
intros [->|Hin]; [apply fold_max_ge | now apply fold_max_ge_In].
Qed.

Lemma jsRound_integer (c : Z) (q : Q) : q == 0 -> jsRound (inject_Z c + q) = c.
Proof.
intro Hq. unfold jsRound.
rewrite (Qfloor_comp (inject_Z c + q + (1 # 2)) (inject_Z c + (1 # 2))).
- unfold Qfloor, Qplus, inject_Z. simpl.
  symmetry. apply Z.div_unique with (r := 1%Z); lia.
- rewrite Hq. ring.
Qed.

(* ================================================================== *)
(** * Colour mapping at the thresholds *)
(* ================================================================== *)

Module ColorFacts.
Import Contour.

Lemma lerpColor_start (c1 c2 : Color) (t : Q) : t <= 0 -> lerpColor c1 c2 t = c1.
Proof.
intro Ht. unfold lerpColor, lerpChannel.
assert (H0 : Qmax 0 (Qmin 1 t) == 0).
{ apply Q.max_l. eapply Qle_trans; [apply Q.le_min_r|exact Ht]. }
rewrite !jsRound_integer; try (rewrite H0; ring).
now destruct c1.
Qed.

(** C5.  With [0 < low <= high]: the colour at [low] is the yellow stop,
    the colour at [0] is the green stop, and when [low < high] the colour
    at [high] is the orange stop. *)
Theorem valueToColor_at_stops (thresh : Threshold) :
  0 < low thresh -> low thresh <= high thresh ->
  valueToColor (low thresh) thresh = mkColor 240 208 0 /\
  valueToColor 0 thresh = mkColor 114 175 38 /\
  (low thresh < high thresh ->
   valueToColor (high thresh) thresh = mkColor 240 147 43).
Proof.
intros Hlow Hle. destruct thresh as [lo hi]. simpl in *.
assert (Hhi : 0 < hi) by (eapply Qlt_le_trans; eauto).
split; [|split].
- unfold valueToColor; simpl.
  rewrite (proj2 (Qle_bool_gt lo 0) Hlow).
  rewrite (proj2 (Qltb_ge lo lo) (Qle_refl lo)).
  destruct (Qeq_bool lo hi) eqn:E.
  + apply Qeq_bool_eq in E.
    apply lerpColor_start.
    eapply Qle_trans; [apply Q.le_min_l|].
    rewrite E. unfold Qminus. rewrite Qplus_opp_r.
    unfold Qdiv. rewrite Qmult_0_l. apply Qle_refl.
  + destruct (Qltb lo hi) eqn:L.
    * apply lerpColor_start.
      unfold Qminus. rewrite Qplus_opp_r.
      unfold Qdiv. rewrite Qmult_0_l. apply Qle_refl.
    * apply Qltb_ge in L.
      assert (lo == hi) by (apply Qle_antisym; assumption).
      apply Qeq_eq_bool in H. congruence.
- reflexivity.
- intro Hlt. unfold valueToColor; simpl.
  rewrite (proj2 (Qle_bool_gt hi 0) Hhi).
  destruct (Qeq_bool lo hi) eqn:E.
  + apply Qeq_bool_eq in E. rewrite E in Hlt. exfalso. apply (Qlt_irrefl _ Hlt).
  + rewrite (proj2 (Qltb_ge hi lo) Hle).
    rewrite (proj2 (Qltb_ge hi hi) (Qle_refl hi)).
    apply lerpColor_start.
    eapply Qle_trans; [apply Q.le_min_l|].
    unfold Qminus at 1. rewrite Qplus_opp_r.
    unfold Qdiv. rewrite Qmult_0_l. apply Qle_refl.
Qed.

Lemma valueToColor_at_stops_witness :
  let t := mkThreshold 1 204 in
  valueToColor (low t) t = mkColor 240 208 0 /\
  valueToColor 0 t = mkColor 114 175 38 /\
  (low t < high t -> valueToColor (high t) t = mkColor 240 147 43).
Proof.
apply (valueToColor_at_stops (mkThreshold 1 204)); simpl.
- reflexivity.
- discriminate.
Defined.

End ColorFacts.

(* ================================================================== *)
(** * Inverse-distance weighting *)
(* ================================================================== *)

Module IDWFacts.
Import Contour.

Section WithConv.
Variable conv : CoordConversion.


Lemma weight_pos (d : Q) : 1 <= d -> 0 < 1 / d.
Proof.
intro Hd. unfold Qdiv. rewrite Qmult_1_l.
apply Qinv_lt_0_compat. eapply Qlt_le_trans; [|exact Hd]. reflexivity.
Qed.

End WithConv.

End IDWFacts.

(* ================================================================== *)
(** * Convex hull: the vertices are input points *)
(* ================================================================== *)

Module HullVertices.
Import Contour.

Section WithPoints.
Context {A : Type} `{HasLatLon A}.

Lemma popWhile_suffix (stack : list A) (p : A) :
  exists popped, stack = popped ++ popWhile stack p.
Proof.
induction stack as [|top rest IH].
- now exists [].
- destruct rest as [|below rest'].
  + now exists [].
  + cbn [popWhile].
    destruct (Qle_bool (cross2D below top p) 0).
    * destruct IH as [popped IH]. exists (top :: popped).
      cbn [app]. f_equal. exact IH.
    * now exists [].
Qed.

Lemma popWhile_In (stack : list A) (p v : A) :
  In v (popWhile stack p) -> In v stack.
Proof.
destruct (popWhile_suffix stack p) as [popped E].
intro Hin. rewrite E. apply in_or_app. now right.
Qed.

Lemma fold_pushPoint_In (pts stack : list A) (v : A) :
  In v (fold_left pushPoint pts stack) -> In v stack \/ In v pts.
Proof.
revert stack. induction pts as [|p pts IH]; intros stack Hin; simpl in *.
- now left.
- destruct (IH _ Hin) as [Hs|Hp].
  + destruct Hs as [->|Hs].
    * right. now left.
    * left. eapply popWhile_In; eauto.
  + right. now right.
Qed.

Lemma buildChain_In (pts : list A) (v : A) : In v (buildChain pts) -> In v pts.
Proof.
intro Hin. destruct (fold_pushPoint_In _ _ _ Hin) as [[]|Hp]. exact Hp.
Qed.

Lemma In_tl (l : list A) (v : A) : In v (tl l) -> In v l.
Proof. destruct l; simpl; auto. Qed.

End WithPoints.

Lemma hull_vertex_In {A : Type} `{HasLatLon A} (points : list A) (v : A) :
  In v (computeConvexHull points) -> In v points.
Proof.
unfold computeConvexHull.
destruct (length points <? 3)%nat; [auto|].
intro Hin. apply in_app_or in Hin.
destruct Hin as [Hin|Hin];
  apply in_rev, In_tl, buildChain_In in Hin.
- now apply sort_In in Hin.
- apply in_rev in Hin. now apply sort_In in Hin.
Qed.

(** C10.  Every vertex of the polygon returned by [computeConvexHull] is
    an element of the input array. *)
Theorem computeConvexHull_vertices_from_input {A : Type} `{HasLatLon A}
  (points : list A) (v : A) :
  In v (computeConvexHull points) -> In v points.
Proof. apply hull_vertex_In. Qed.

Lemma computeConvexHull_vertices_from_input_witness :
  let pts := [mkLatLng 0 0; mkLatLng 1 1; mkLatLng 0 2; mkLatLng 2 0] in
  In (mkLatLng 0 2) (computeConvexHull pts) /\ In (mkLatLng 0 2) pts.
Proof.
cbv zeta.
assert (Hin : In (mkLatLng 0 2)
                (computeConvexHull
                   [mkLatLng 0 0; mkLatLng 1 1; mkLatLng 0 2; mkLatLng 2 0])).
{ vm_compute. right. left. reflexivity. }
split; [exact Hin|].
exact (@computeConvexHull_vertices_from_input LatLng _
         [mkLatLng 0 0; mkLatLng 1 1; mkLatLng 0 2; mkLatLng 2 0]
         (mkLatLng 0 2) Hin).
Defined.

End HullVertices.

(* ================================================================== *)
(** * Transect clicks: the minimum length *)
(* ================================================================== *)

Module TransectFacts.
Import CrossSection.

(** C7.  The module being active with one point [a] placed, a click at
    [b] less than 3 m from [a] is rejected: [b] is dropped again, nothing
    is drawn or rendered and the status asks for distinct points; a click
    at 3 m or more completes the transect, draws it, and renders the
    samples collected along it (or reports that there are none).  Points
    2 m apart are rejected, points 5 m apart accepted. *)
Theorem handleTransectClick_min_length (Interval : Type)
  (distanceTo : LatLng -> LatLng -> Q)
  (collectSamples : LatLng -> LatLng -> Q -> list Interval)
  (corridorCorners : LatLng -> LatLng -> Q -> list LatLng)
  (s : State Interval) (a b : LatLng) :
  active s = true -> measureMode s = false -> transectPoints s = [a] ->
  let s' := handleTransectClick distanceTo collectSamples corridorCorners s b in
  let samples := collectSamples a b (corridorWidthFt s) in
  let rejected :=
    transectPoints s' = [a] /\
    transectMarkers s' = transectMarkers s /\
    transectLine s' = transectLine s /\
    corridorPolygon s' = corridorPolygon s /\
    panel s' = panel s /\
    lastSamples s' = lastSamples s /\
    status s' = Some MsgTooShort in
  let accepted :=
    transectPoints s' = [a; b] /\
    transectLine s' = Some (a, b) /\
    corridorPolygon s' = Some (corridorCorners a b (corridorWidthFt s)) /\
    (samples <> [] ->
     panel s' = Some samples /\ lastSamples s' = Some samples /\
     status s' = None) /\
    (samples = [] ->
     panel s' = panel s /\ status s' = Some (MsgNoSamples (corridorWidthFt s))) in
  (distanceTo a b < 3 -> rejected) /\
  (3 <= distanceTo a b -> accepted) /\
  (distanceTo a b == 2 -> rejected) /\
  (distanceTo a b == 5 -> accepted).
Proof.
intros Hact Hmm Hpts s' samples rejected accepted.
assert (Hrej : distanceTo a b < 3 -> rejected).
{ intro Hlt. subst rejected s'. unfold handleTransectClick.
  rewrite Hact, Hmm, Hpts. simpl.
  rewrite Hpts. simpl.
  rewrite (proj2 (Qltb_lt _ _) Hlt). simpl.
  rewrite Hpts. simpl. rewrite removelast_last.
  repeat split; reflexivity. }
assert (Hacc : 3 <= distanceTo a b -> accepted).
{ intro Hge. subst accepted s' samples. unfold handleTransectClick.
  rewrite Hact, Hmm, Hpts. simpl.
  rewrite Hpts. simpl.
  rewrite (proj2 (Qltb_ge _ _) Hge).
  unfold drawTransectOnMap. simpl. rewrite Hpts. simpl.
  destruct (collectSamples a b (corridorWidthFt s)) as [|i l] eqn:E; simpl.
  - repeat split; try reflexivity; congruence.
  - repeat split; try reflexivity; congruence. }
split; [exact Hrej|]. split; [exact Hacc|]. split.
- intro E. apply Hrej. rewrite E. reflexivity.
- intro E. apply Hacc. rewrite E. discriminate.
Qed.

Lemma handleTransectClick_min_length_witness :
  let distanceTo := fun p q : LatLng => Qabs (ll_lat p - ll_lat q) * 111000 in
  let collect := fun (p q : LatLng) (w : Q) => [1%nat; 2%nat] in
  let corners := fun (p q : LatLng) (w : Q) => [p; q] in
  let a := mkLatLng 0 0 in
  let s := mkCS true false 50 [a] [a] None None (Some MsgClickSecond)
             (@None (list nat)) None in
  transectPoints
    (handleTransectClick distanceTo collect corners s (mkLatLng (1 # 100000) 0))
  = [a] /\
  transectPoints
    (handleTransectClick distanceTo collect corners s (mkLatLng (1 # 10000) 0))
  = [a; mkLatLng (1 # 10000) 0].
Proof.
cbv zeta. split.
- destruct (@handleTransectClick_min_length nat
           (fun p q : LatLng => Qabs (ll_lat p - ll_lat q) * 111000)
           (fun (p q : LatLng) (w : Q) => [1%nat; 2%nat])
           (fun (p q : LatLng) (w : Q) => [p; q])
           (mkCS true false 50 [mkLatLng 0 0] [mkLatLng 0 0] None None
              (Some MsgClickSecond) (@None (list nat)) None)
           (mkLatLng 0 0) (mkLatLng (1 # 100000) 0)
           eq_refl eq_refl eq_refl) as [Hrej _].
  apply Hrej. reflexivity.
- destruct (@handleTransectClick_min_length nat
           (fun p q : LatLng => Qabs (ll_lat p - ll_lat q) * 111000)
           (fun (p q : LatLng) (w : Q) => [1%nat; 2%nat])
           (fun (p q : LatLng) (w : Q) => [p; q])
           (mkCS true false 50 [mkLatLng 0 0] [mkLatLng 0 0] None None
              (Some MsgClickSecond) (@None (list nat)) None)
           (mkLatLng 0 0) (mkLatLng (1 # 10000) 0)
           eq_refl eq_refl eq_refl) as [_ [Hacc _]].
  apply Hacc. vm_compute. discriminate.
Defined.

End TransectFacts.

(* ================================================================== *)
(** * The two nested grid loops *)
(* ================================================================== *)

Module GridFacts.
Import Analysis.

Section WithState.
Variable conv : CoordConversion.
Variable st : AppState.

(** Every rectangle of a grid comes from the body run at its own corner. *)
Lemma gridLoop_In (minLat maxLat minLon maxLon : Q)
  (body : Q -> Q -> list Rect) (r : Rect) :
  (forall lt ln r', In r' (body lt ln) -> latMin r' = lt /\ lonMin r' = ln) ->
  In r (gridLoop conv st minLat maxLat minLon maxLon body) ->
  In r (body (latMin r) (lonMin r)).
Proof.
intros Hbody Hin. unfold gridLoop in Hin.
apply in_flat_map in Hin. destruct Hin as (lt & _ & Hin).
apply in_flat_map in Hin. destruct Hin as (ln & _ & Hin).
destruct (Hbody _ _ _ Hin) as [-> ->]. exact Hin.
Qed.

Lemma gridLoop_incl (minLat maxLat minLon maxLon : Q)
  (body : Q -> Q -> list Rect) (lt ln : Q) (r : Rect) :
  In lt (forRange minLat maxLat (gridSizeLat conv st)) ->
  In ln (forRange minLon maxLon (gridSizeLon conv st)) ->
  In r (body lt ln) ->
  In r (gridLoop conv st minLat maxLat minLon maxLon body).
Proof.
intros Hlt Hln Hr. unfold gridLoop.
apply in_flat_map. exists lt. split; [exact Hlt|].
apply in_flat_map. exists ln. split; [exact Hln|exact Hr].
Qed.

End WithState.

End GridFacts.

(* ================================================================== *)
(** * Hot-zone grid: what a cell shows *)
(* ================================================================== *)

Module HotZoneFacts.
Import Analysis GridFacts.

Section WithState.
Variable conv : CoordConversion.
Variable distanceTo : LatLng -> LatLng -> Q.
Variable thresholds : string -> Threshold.
Variable st : AppState.

Let near (c : LatLng) (s : SamplePoint) : bool := inRadius conv distanceTo st c s.
Let scan := scanCell conv distanceTo st.

Lemma scanCell_cons (c : LatLng) (s : SamplePoint) (samples : list SamplePoint)
  (m : Q) (f : bool) :
  scan c (s :: samples) (m, f) =
  scan c samples
    (if near c s then (if Qltb m (value s) then value s else m, true)
     else (m, f)).
Proof. reflexivity. Qed.

(** What the scanning loop leaves in [(maxVal, foundAny)]. *)
Lemma scanCell_spec (c : LatLng) (samples : list SamplePoint) :
  forall (m0 : Q) (f0 : bool),
  let res := scan c samples (m0, f0) in
  snd res = (f0 || existsb (near c) samples)%bool /\
  m0 <= fst res /\
  (forall s, In s samples -> near c s = true -> value s <= fst res) /\
  (fst res = m0 \/ exists s, In s samples /\ near c s = true /\ fst res = value s).
Proof.
induction samples as [|s samples IH]; intros m0 f0.
- simpl. rewrite orb_false_r. repeat split; auto using Qle_refl.
  intros s [].
- cbv zeta. rewrite scanCell_cons. simpl existsb.
  destruct (near c s) eqn:En.
  + destruct (Qltb m0 (value s)) eqn:El.
    * apply Qltb_lt in El.
      destruct (IH (value s) true) as (Hf & Hge & Hall & Hwit).
      split; [rewrite Hf; now rewrite orb_true_r|].
      split; [eapply Qle_trans; [apply Qlt_le_weak, El|exact Hge]|].
      split.
      -- intros s' [<-|Hin] Hn; [exact Hge|now apply Hall].
      -- right. destruct Hwit as [E|(s' & Hin & Hn & E)].
         ++ exists s. repeat split; auto. now left.
         ++ exists s'. repeat split; auto. now right.
    * apply Qltb_ge in El.
      destruct (IH m0 true) as (Hf & Hge & Hall & Hwit).
      split; [rewrite Hf; now rewrite orb_true_r|].
      split; [exact Hge|].
      split.
      -- intros s' [<-|Hin] Hn; [eapply Qle_trans; eauto|now apply Hall].
      -- destruct Hwit as [E|(s' & Hin & Hn & E)]; [now left|].
         right. exists s'. repeat split; auto. now right.
  + destruct (IH m0 f0) as (Hf & Hge & Hall & Hwit).
    split; [exact Hf|]. split; [exact Hge|]. split.
    * intros s' [<-|Hin] Hn; [congruence|now apply Hall].
    * destruct Hwit as [E|(s' & Hin & Hn & E)]; [now left|].
      right. exists s'. repeat split; auto. now right.
Qed.

Lemma hotCell_corner (lt ln : Q) (r : Rect) :
  In r (hotCell conv distanceTo thresholds st lt ln) ->
  latMin r = lt /\ lonMin r = ln.
Proof.
unfold hotCell.
destruct (scanCell conv distanceTo st (cellCenter conv st lt ln)
            (allSamples st) (0, false)) as [m f].
destruct (negb f); [intros []|].
destruct (classify m (thresholds (currentAnalyte st))) as [col op].
intros [<-|[]]. now split.
Qed.

Lemma classify_cases (m : Q) (t : Threshold) :
  (high t < m -> classify m t = ("#ff0000"%string, 5 # 10)) /\
  (m <= high t -> low t < m -> classify m t = ("#ff9900"%string, 4 # 10)) /\
  (m <= high t -> m <= low t -> classify m t = ("#00cc00"%string, 25 # 100)).
Proof.
unfold classify. split; [|split].
- intro H. now rewrite (proj2 (Qltb_lt _ _) H).
- intros H1 H2. rewrite (proj2 (Qltb_ge _ _) H1).
  now rewrite (proj2 (Qltb_lt _ _) H2).
- intros H1 H2. rewrite (proj2 (Qltb_ge _ _) H1).
  now rewrite (proj2 (Qltb_ge _ _) H2).
Qed.

End WithState.

(** The rows and columns of cell corners [createHotZoneGrid] visits. *)
Definition hotRows (conv : CoordConversion) (st : AppState) : list Q :=
forRange (listMin (map sp_lat (allSamples st)) - PAD)
         (listMax (map sp_lat (allSamples st)) + PAD) (gridSizeLat conv st).

Definition hotCols (conv : CoordConversion) (st : AppState) : list Q :=
forRange (listMin (map sp_lon (allSamples st)) - PAD)
         (listMax (map sp_lon (allSamples st)) + PAD) (gridSizeLon conv st).

(** C6, as first stated, fails where every sample in reach of a cell has
    a negative value: the scan starts from 0, so the cell's aggregate is 0
    and is the value of no sample. *)
Lemma hot_zone_aggregate_not_a_sample_value :
  let conv := mkConv 111000 88000 (3048 # 10000) in
  let distanceTo := fun p q : LatLng => 0 in
  let ea := mkSampleRec 0 0 false None (Some (-1)) None None None in
  let st := mkState (mkData [] [ea]) [] true 100 "Mercury" in
  let center := cellCenter conv st 0 0 in
  let res := scanCell conv distanceTo st center (allSamples st) (0, false) in
  snd res = true /\
  ~ exists s, In s (allSamples st) /\
              inRadius conv distanceTo st center s = true /\
              fst res == value s.
Proof.
cbv zeta. split; [reflexivity|].
intros (s & Hin & _ & E).
destruct Hin as [<-|[]]. vm_compute in E. discriminate.
Qed.

(** C6, amended.  A cell with no valued sample within the search radius
    of its centre adds no rectangle.  A visited cell with such a sample
    adds one rectangle whose colour is decided by the aggregate [maxVal],
    where [maxVal] is the greater of 0 and the greatest value among the
    samples within the radius: red above [high], orange above [low],
    green otherwise. *)
Theorem createHotZoneGrid_cell (conv : CoordConversion)
  (distanceTo : LatLng -> LatLng -> Q) (thresholds : string -> Threshold)
  (st : AppState) (lt ln : Q) :
  let center := cellCenter conv st lt ln in
  let near := fun s => inRadius conv distanceTo st center s in
  let thresh := thresholds (currentAnalyte st) in
  let grid := createHotZoneGrid conv distanceTo thresholds st in
  ((forall s, In s (allSamples st) -> near s = false) ->
   forall r, In r grid -> ~ (latMin r = lt /\ lonMin r = ln)) /\
  ((exists s, In s (allSamples st) /\ near s = true) ->
   In lt (hotRows conv st) -> In ln (hotCols conv st) ->
   exists maxVal color opacity,
     0 <= maxVal /\
     (forall s, In s (allSamples st) -> near s = true -> value s <= maxVal) /\
     (maxVal = 0 \/
      exists s, In s (allSamples st) /\ near s = true /\ maxVal = value s) /\
     In (mkRect lt ln (lt + gridSizeLat conv st) (ln + gridSizeLon conv st)
           color opacity) grid /\
     (high thresh < maxVal -> color = "#ff0000"%string) /\
     (maxVal <= high thresh -> low thresh < maxVal ->
      color = "#ff9900"%string) /\
     (maxVal <= high thresh -> maxVal <= low thresh ->
      color = "#00cc00"%string)).
Proof.
intros center near thresh grid.
pose proof (scanCell_spec conv distanceTo st center (allSamples st) 0 false)
  as Hscan.
cbv zeta in Hscan. destruct Hscan as (Hf & Hge & Hall & Hwit).
split.
- intros Hnone r Hr [Elt Eln].
  assert (Hcell : In r (hotCell conv distanceTo thresholds st lt ln)).
  { subst grid. unfold createHotZoneGrid in Hr.
    destruct (allSamples st) eqn:Eall; [destruct Hr|].
    rewrite <- Eall in Hr.
    apply gridLoop_In in Hr; [|apply hotCell_corner].
    now rewrite Elt, Eln in Hr. }
  unfold hotCell in Hcell. fold center in Hcell.
  destruct (scanCell conv distanceTo st center (allSamples st) (0, false))
    as [m f].
  simpl in Hf.
  assert (Ef : f = false).
  { rewrite Hf. destruct (existsb _ _) eqn:Ex; [|reflexivity].
    apply existsb_exists in Ex. destruct Ex as (s & Hin & Hn).
    specialize (Hnone s Hin). unfold near in Hnone. congruence. }
  rewrite Ef in Hcell. exact Hcell.
- intros (s0 & Hin0 & Hn0) Hrow Hcol.
  remember (scanCell conv distanceTo st center (allSamples st) (0, false))
    as res eqn:Eres.
  destruct res as [m f]. simpl in *.
  assert (Ef : f = true).
  { rewrite Hf. apply existsb_exists. exists s0. now split. }
  destruct (classify m thresh) as [col op] eqn:Ecl.
  exists m, col, op.
  split; [exact Hge|]. split; [exact Hall|]. split; [exact Hwit|].
  split.
  + subst grid. unfold createHotZoneGrid.
    destruct (allSamples st) eqn:Eall; [destruct Hin0|].
    rewrite <- Eall in *.
    apply gridLoop_incl with (lt := lt) (ln := ln).
    * exact Hrow.
    * exact Hcol.
    * unfold hotCell. fold center. rewrite <- Eres. rewrite Ef. simpl.
      fold thresh. rewrite Ecl. now left.
  + destruct (classify_cases m thresh) as (Hred & Hor & Hgr).
    split; [|split].
    * intro H. rewrite (Hred H) in Ecl. congruence.
    * intros H1 H2. rewrite (Hor H1 H2) in Ecl. congruence.
    * intros H1 H2. rewrite (Hgr H1 H2) in Ecl. congruence.
Qed.

Lemma createHotZoneGrid_cell_witness :
  let conv := mkConv 111000 88000 (3048 # 10000) in
  let distanceTo := fun p q : LatLng => 0 in
  let thresholds := fun a : string => mkThreshold 1 204 in
  let ea := mkSampleRec 0 0 false None (Some 300) None None None in
  let st := mkState (mkData [] [ea]) [] true 100 "Mercury" in
  exists maxVal color opacity,
    300 <= maxVal /\
    In (mkRect (- (5 # 10000)) (- (5 # 10000))
          (- (5 # 10000) + gridSizeLat conv st)
          (- (5 # 10000) + gridSizeLon conv st) color opacity)
       (createHotZoneGrid conv distanceTo thresholds st) /\
    color = "#ff0000"%string.
Proof.
cbv zeta.
destruct (createHotZoneGrid_cell (mkConv 111000 88000 (3048 # 10000))
            (fun p q : LatLng => 0) (fun a : string => mkThreshold 1 204)
            (mkState (mkData []
               [mkSampleRec 0 0 false None (Some 300) None None None])
               [] true 100 "Mercury")
            (- (5 # 10000)) (- (5 # 10000))) as [_ H].
destruct H as (m & c & o & _ & Hall & _ & Hin & Hred & _).
- exists (mkSample 0 0 300). split; [left; reflexivity|reflexivity].
- vm_compute. left. reflexivity.
- vm_compute. left. reflexivity.
- assert (Hm : 300 <= m).
  { apply (Hall (mkSample 0 0 300)); [left; reflexivity|reflexivity]. }
  exists m, c, o. split; [exact Hm|]. split; [exact Hin|].
  apply Hred. simpl. eapply Qlt_le_trans; [|exact Hm]. reflexivity.
Defined.

End HotZoneFacts.

(* ================================================================== *)
(** * Counting loops *)
(* ================================================================== *)

Module LoopFacts.

(** [n] iterations are enough for the loop from [lo] to stop by its own
    test. *)
Definition enough (n : nat) (lo hi step : Q) : Prop :=
hi - lo <= inject_Z (Z.of_nat n) * step.

(** Consecutive values of a loop are a full step apart. *)
Fixpoint spaced (step : Q) (l : list Q) : Prop :=
match l with
| [] => True
| x :: rest => (forall y, In y rest -> x + step <= y) /\ spaced step rest
end.

Lemma inject_S (n : nat) :
  inject_Z (Z.of_nat (S n)) == inject_Z (Z.of_nat n) + 1.
Proof.
rewrite Nat2Z.inj_succ. unfold Z.succ. rewrite inject_Z_plus. reflexivity.
Qed.

Lemma enough_step (n : nat) (lo hi step : Q) :
  enough (S n) lo hi step -> enough n (lo + step) hi step.
Proof.
unfold enough. rewrite inject_S. intro H. lra.
Qed.

Lemma loopBound_enough (lo hi step : Q) :
  0 < step -> enough (loopBound lo hi step) lo hi step.
Proof.
intro Hs. unfold enough, loopBound.
set (q := (hi - lo) / step).
assert (Hq : hi - lo == q * step).
{ unfold q. field. intro E. rewrite E in Hs. apply (Qlt_irrefl _ Hs). }
rewrite Hq. apply Qmult_le_compat_r; [|now apply Qlt_le_weak].
eapply Qle_trans; [apply Qle_ceiling|].
rewrite <- Zle_Qle.
destruct (Z_le_gt_dec 0 (Qceiling q)) as [Hc|Hc].
- rewrite Z2Nat.id by exact Hc. apply Z.le_refl.
- lia.
Qed.

(** More fuel than enough does not change what the loop yields. *)
Lemma forLoop_fuel (n : nat) : forall (fuel : nat) (lo hi step : Q),
  0 < step -> enough n lo hi step -> (n <= fuel)%nat ->
  forLoop fuel lo hi step = forLoop n lo hi step.
Proof.
induction n as [|n IH]; intros fuel lo hi step Hs Hen Hle.
- unfold enough in Hen. change (inject_Z (Z.of_nat 0)) with 0 in Hen.
  assert (Hge : hi <= lo) by lra.
  destruct fuel; simpl; [reflexivity|].
  now rewrite (proj2 (Qltb_ge _ _) Hge).
- destruct fuel as [|fuel]; [lia|]. simpl.
  destruct (Qltb lo hi); [|reflexivity].
  f_equal. apply IH; [exact Hs|now apply enough_step|lia].
Qed.

Lemma forRange_fuel (fuel : nat) (lo hi step : Q) :
  0 < step -> (loopBound lo hi step <= fuel)%nat ->
  forLoop fuel lo hi step = forRange lo hi step.
Proof.
intros Hs Hle. unfold forRange.
apply forLoop_fuel; auto using loopBound_enough.
Qed.

Lemma forLoop_bounds (fuel : nat) : forall (lo hi step x : Q),
  0 < step -> In x (forLoop fuel lo hi step) -> lo <= x /\ x < hi.
Proof.
induction fuel as [|fuel IH]; intros lo hi step x Hs Hin; simpl in Hin.
- contradiction.
- destruct (Qltb lo hi) eqn:E; [|contradiction].
  apply Qltb_lt in E. destruct Hin as [<-|Hin].
  + split; [apply Qle_refl|exact E].
  + destruct (IH _ _ _ _ Hs Hin) as [H1 H2]. split; [lra|exact H2].
Qed.

Lemma forLoop_spaced (fuel : nat) : forall (lo hi step : Q),
  0 < step -> spaced step (forLoop fuel lo hi step).
Proof.
induction fuel as [|fuel IH]; intros lo hi step Hs; simpl.
- exact I.
- destruct (Qltb lo hi); simpl; [|exact I].
  split; [|now apply IH].
  intros y Hy. now apply (forLoop_bounds _ _ _ _ Hs) in Hy.
Qed.

(** With enough fuel every number from [lo] up to [hi] lies within one
    step above some value of the loop. *)
Lemma forLoop_cover (fuel : nat) : forall (lo hi step y : Q),
  0 < step -> enough fuel lo hi step -> lo < hi -> lo <= y -> y <= hi ->
  exists x, In x (forLoop fuel lo hi step) /\ x <= y /\ y <= x + step.
Proof.
induction fuel as [|fuel IH]; intros lo hi step y Hs Hen Hlt Hlo Hhi.
- unfold enough in Hen. change (inject_Z (Z.of_nat 0)) with 0 in Hen. lra.
- simpl. rewrite (proj2 (Qltb_lt _ _) Hlt).
  destruct (Qlt_le_dec (lo + step) y) as [Hy|Hy].
  + destruct (IH (lo + step) hi step y Hs (enough_step Hen)) as (x & Hin & H1 & H2);
      try lra.
    exists x. split; [now right|now split].
  + exists lo. split; [now left|]. split; [exact Hlo|exact Hy].
Qed.

Lemma spaced_apart (step : Q) (l : list Q) (x1 x2 : Q) :
  spaced step l -> In x1 l -> In x2 l ->
  x1 = x2 \/ x1 + step <= x2 \/ x2 + step <= x1.
Proof.
induction l as [|x rest IH]; intros Hsp H1 H2; simpl in *.
- contradiction.
- destruct Hsp as [Hx Hrest].
  destruct H1 as [<-|H1]; destruct H2 as [<-|H2].
  + now left.
  + right. left. now apply Hx.
  + right. right. now apply Hx.
  + now apply IH.
Qed.

Lemma spaced_NoDup (step : Q) (l : list Q) :
  0 < step -> spaced step l -> NoDup l.
Proof.
intro Hs. induction l as [|x rest IH]; intro Hsp; simpl in *.
- constructor.
- destruct Hsp as [Hx Hrest]. constructor; [|now apply IH].
  intro Hin. specialize (Hx x Hin). lra.
Qed.

End LoopFacts.

(* ================================================================== *)
(** * Gap grid: how the cells lie over the padded bounding box *)
(* ================================================================== *)

Module GapGridFacts.
Import Analysis GridFacts LoopFacts.

(** The padded bounding box of the base samples. *)
Definition gapMinLat (st : AppState) : Q := listMin (map ll_lat (baseSamples st)) - PAD.
Definition gapMaxLat (st : AppState) : Q := listMax (map ll_lat (baseSamples st)) + PAD.
Definition gapMinLon (st : AppState) : Q := listMin (map ll_lon (baseSamples st)) - PAD.
Definition gapMaxLon (st : AppState) : Q := listMax (map ll_lon (baseSamples st)) + PAD.

Definition inBox (st : AppState) (y x : Q) : Prop :=
gapMinLat st <= y /\ y <= gapMaxLat st /\ gapMinLon st <= x /\ x <= gapMaxLon st.

(** The point at latitude [y] and longitude [x] lies in the closed
    rectangle, and strictly inside it. *)
Definition inRect (r : Rect) (y x : Q) : Prop :=
latMin r <= y /\ y <= latMax r /\ lonMin r <= x /\ x <= lonMax r.

Definition inside (r : Rect) (y x : Q) : Prop :=
latMin r < y /\ y < latMax r /\ lonMin r < x /\ x < lonMax r.

(** The claim as first stated: the cells cover exactly the box and no two
    of them share area. *)
Definition exact_tiling (st : AppState) (grid : list Rect) : Prop :=
(forall y x, inBox st y x <-> exists r, In r grid /\ inRect r y x) /\
(forall r1 r2 y x,
   In r1 grid -> In r2 grid -> inside r1 y x -> inside r2 y x -> r1 = r2).

Section WithState.
Variable conv : CoordConversion.
Variable distanceTo : LatLng -> LatLng -> Q.
Variable st : AppState.
Hypothesis Hconv : conv_positive conv.
Hypothesis Hsize : 0 < gridSizeFt st.

Lemma gridSizeLat_pos : 0 < gridSizeLat conv st.
Proof.
destruct Hconv as (H1 & H2 & H3).
unfold gridSizeLat, sizeMeters.
apply Qlt_shift_div_l; [exact H1|]. rewrite Qmult_0_l.
apply Qmult_lt_0_compat; assumption.
Qed.

Lemma gridSizeLon_pos : 0 < gridSizeLon conv st.
Proof.
destruct Hconv as (H1 & H2 & H3).
unfold gridSizeLon, sizeMeters.
apply Qlt_shift_div_l; [exact H2|]. rewrite Qmult_0_l.
apply Qmult_lt_0_compat; assumption.
Qed.

Lemma gapCell_shape (lt ln : Q) :
  exists c o,
    gapCell conv distanceTo st lt ln =
    [mkRect lt ln (lt + gridSizeLat conv st) (ln + gridSizeLon conv st) c o].
Proof.
unfold gapCell.
destruct (countNear conv distanceTo st (cellCenter conv st lt ln) =? 0)%nat;
  [eauto|].
destruct (countNear conv distanceTo st (cellCenter conv st lt ln) <=? 2)%nat;
  eauto.
Qed.

Lemma gapCell_corner (lt ln : Q) (r : Rect) :
  In r (gapCell conv distanceTo st lt ln) -> latMin r = lt /\ lonMin r = ln.
Proof.
destruct (gapCell_shape lt ln) as (c & o & ->).
intros [<-|[]]. now split.
Qed.

Lemma gapCell_extent (lt ln : Q) (r : Rect) :
  In r (gapCell conv distanceTo st lt ln) ->
  latMax r = lt + gridSizeLat conv st /\ lonMax r = ln + gridSizeLon conv st.
Proof.
destruct (gapCell_shape lt ln) as (c & o & ->).
intros [<-|[]]. now split.
Qed.

Lemma gapCell_NoDup (lt ln : Q) : NoDup (gapCell conv distanceTo st lt ln).
Proof.
destruct (gapCell_shape lt ln) as (c & o & ->).
constructor; [intros []|constructor].
Qed.

End WithState.

Lemma listMin_le_listMax (l : list Q) : l <> [] -> listMin l <= listMax l.
Proof.
destruct l as [|x xs]; [congruence|]. intros _.
apply Qle_trans with x.
- apply listMin_le. now left.
- apply listMax_ge. now left.
Qed.

Lemma NoDup_flat_map {A B : Type} (f : A -> list B) (l : list A) :
  NoDup l ->
  (forall a, In a l -> NoDup (f a)) ->
  (forall a1 a2 b, In a1 l -> In a2 l -> In b (f a1) -> In b (f a2) -> a1 = a2) ->
  NoDup (flat_map f l).
Proof.
induction l as [|a l IH]; intros Hnd Hf Hinj; simpl.
- constructor.
- inversion Hnd as [|? ? Hnotin Hnd']; subst.
  apply NoDup_app.
  + apply Hf. now left.
  + apply IH; auto.
    * intros a' Ha'. apply Hf. now right.
    * intros a1 a2 b0 H1 H2. apply Hinj; now right.
  + intros b0 Hb Hb'. apply in_flat_map in Hb'.
    destruct Hb' as (a' & Ha' & Hb').
    assert (a = a') by (apply (Hinj a a' b0); auto; [now left|now right]).
    subst a'. contradiction.
Qed.

Lemma gridLoop_inv (conv : CoordConversion) (st : AppState)
  (minLat maxLat minLon maxLon : Q) (body : Q -> Q -> list Rect) (r : Rect) :
  In r (gridLoop conv st minLat maxLat minLon maxLon body) ->
  exists lt ln,
    In lt (forRange minLat maxLat (gridSizeLat conv st)) /\
    In ln (forRange minLon maxLon (gridSizeLon conv st)) /\
    In r (body lt ln).
Proof.
unfold gridLoop. intro Hin.
apply in_flat_map in Hin. destruct Hin as (lt & Hlt & Hin).
apply in_flat_map in Hin. destruct Hin as (ln & Hln & Hin).
now exists lt, ln.
Qed.

Lemma createGapGrid_unfold (conv : CoordConversion)
  (distanceTo : LatLng -> LatLng -> Q) (st : AppState) :
  baseSamples st <> [] ->
  createGapGrid conv distanceTo st =
  gridLoop conv st (gapMinLat st) (gapMaxLat st) (gapMinLon st) (gapMaxLon st)
    (gapCell conv distanceTo st).
Proof.
intro Hne. unfold createGapGrid, gapMinLat, gapMaxLat, gapMinLon, gapMaxLon.
destruct (baseSamples st); [congruence|reflexivity].
Qed.

Lemma pad_bounds (l : list Q) : l <> [] -> listMin l - PAD < listMax l + PAD.
Proof.
intro Hne. pose proof (listMin_le_listMax Hne) as H.
assert (0 < PAD) by reflexivity. lra.
Qed.

(** C2, as first stated, fails: the last row and the last column of cells
    reach beyond the padded box.  One base sample and a 100 ft grid. *)
Lemma gap_grid_overshoots_box :
  let conv := mkConv 111000 88000 (3048 # 10000) in
  let distanceTo := fun p q : LatLng => 0 in
  let ea := mkSampleRec 0 0 false None None None None None in
  let st := mkState (mkData [] [ea]) [] true 100 "Mercury" in
  baseSamples st <> [] /\
  ~ exact_tiling st (createGapGrid conv distanceTo st).
Proof.
cbv zeta. split; [discriminate|].
intros [Hcov _].
set (conv := mkConv 111000 88000 (3048 # 10000)) in *.
set (st := mkState _ _ _ _ _) in *.
set (grid := createGapGrid conv (fun _ _ : LatLng => 0) st) in *.
set (r0 := nth 9 grid (mkRect 0 0 0 0 "" 0)).
assert (Hin : In r0 grid).
{ apply nth_In. vm_compute. lia. }
assert (Hbox : inBox st (latMax r0) (lonMin r0)).
{ apply Hcov. exists r0. split; [exact Hin|].
  unfold inRect. repeat split; try apply Qle_refl; vm_compute; discriminate. }
destruct Hbox as (_ & Hle & _).
vm_compute in Hle. now apply Hle.
Qed.

(** C2, amended.  With base samples and a positive grid size the cells
    cover the padded bounding box, no two cells share area and no cell is
    added twice; every cell starts inside the box and is one grid step
    high and wide, so the cells reach beyond the box on its upper
    latitude and longitude sides by less than one cell. *)
Theorem createGapGrid_covers_without_overlap (conv : CoordConversion)
  (distanceTo : LatLng -> LatLng -> Q) (st : AppState) :
  conv_positive conv -> 0 < gridSizeFt st -> baseSamples st <> [] ->
  let grid := createGapGrid conv distanceTo st in
  (forall y x, inBox st y x -> exists r, In r grid /\ inRect r y x) /\
  (forall r1 r2 y x,
     In r1 grid -> In r2 grid -> inside r1 y x -> inside r2 y x -> r1 = r2) /\
  NoDup grid /\
  (forall r, In r grid ->
     gapMinLat st <= latMin r /\ latMin r < gapMaxLat st /\
     latMax r = latMin r + gridSizeLat conv st /\
     gapMinLon st <= lonMin r /\ lonMin r < gapMaxLon st /\
     lonMax r = lonMin r + gridSizeLon conv st).
Proof.
intros Hconv Hsize Hne grid.
pose proof (@gridSizeLat_pos conv st Hconv Hsize) as HgLat.
pose proof (@gridSizeLon_pos conv st Hconv Hsize) as HgLon.
assert (HneLat : map ll_lat (baseSamples st) <> []).
{ destruct (baseSamples st); [congruence|discriminate]. }
assert (HneLon : map ll_lon (baseSamples st) <> []).
{ destruct (baseSamples st); [congruence|discriminate]. }
pose proof (pad_bounds HneLat) as HLat. fold (gapMinLat st) (gapMaxLat st) in HLat.
pose proof (pad_bounds HneLon) as HLon. fold (gapMinLon st) (gapMaxLon st) in HLon.
subst grid. rewrite (@createGapGrid_unfold conv distanceTo st Hne).
set (rows := forRange (gapMinLat st) (gapMaxLat st) (gridSizeLat conv st)).
set (cols := forRange (gapMinLon st) (gapMaxLon st) (gridSizeLon conv st)).
assert (Hrows : spaced (gridSizeLat conv st) rows) by (now apply forLoop_spaced).
assert (Hcols : spaced (gridSizeLon conv st) cols) by (now apply forLoop_spaced).
assert (Hfrom : forall r,
  In r (gridLoop conv st (gapMinLat st) (gapMaxLat st) (gapMinLon st)
          (gapMaxLon st) (gapCell conv distanceTo st)) ->
  In (latMin r) rows /\ In (lonMin r) cols /\
  In r (gapCell conv distanceTo st (latMin r) (lonMin r))).
{ intros r Hr. apply gridLoop_inv in Hr.
  destruct Hr as (lt & ln & Hlt & Hln & Hr).
  destruct (@gapCell_corner _ _ _ _ _ _ Hr) as [-> ->]. now repeat split. }
split; [|split; [|split]].
- intros y x (Hy1 & Hy2 & Hx1 & Hx2).
  destruct (@forLoop_cover _ (gapMinLat st) (gapMaxLat st)
              (gridSizeLat conv st) y HgLat
              (@loopBound_enough _ _ _ HgLat) HLat Hy1 Hy2)
    as (lt & Hlt & Hlt1 & Hlt2).
  destruct (@forLoop_cover _ (gapMinLon st) (gapMaxLon st)
              (gridSizeLon conv st) x HgLon
              (@loopBound_enough _ _ _ HgLon) HLon Hx1 Hx2)
    as (ln & Hln & Hln1 & Hln2).
  destruct (gapCell_shape conv distanceTo st lt ln) as (c & o & E).
  exists (mkRect lt ln (lt + gridSizeLat conv st) (ln + gridSizeLon conv st) c o).
  split.
  + apply gridLoop_incl with (lt := lt) (ln := ln); auto.
    rewrite E. now left.
  + unfold inRect. simpl. now repeat split.
- intros r1 r2 y x H1 H2 (A1 & A2 & A3 & A4) (B1 & B2 & B3 & B4).
  destruct (Hfrom _ H1) as (R1 & C1 & G1).
  destruct (Hfrom _ H2) as (R2 & C2 & G2).
  destruct (@gapCell_extent _ _ _ _ _ _ G1) as [E1 F1].
  destruct (@gapCell_extent _ _ _ _ _ _ G2) as [E2 F2].
  rewrite E1 in A2. rewrite F1 in A4. rewrite E2 in B2. rewrite F2 in B4.
  assert (Elat : latMin r1 = latMin r2).
  { destruct (@spaced_apart _ _ _ _ Hrows R1 R2) as [E|[E|E]]; [exact E|lra|lra]. }
  assert (Elon : lonMin r1 = lonMin r2).
  { destruct (@spaced_apart _ _ _ _ Hcols C1 C2) as [E|[E|E]]; [exact E|lra|lra]. }
  rewrite Elat, Elon in G1.
  destruct (gapCell_shape conv distanceTo st (latMin r2) (lonMin r2))
    as (c & o & E).
  rewrite E in G1, G2.
  destruct G1 as [<-|[]]. destruct G2 as [<-|[]]. reflexivity.
- unfold gridLoop. fold rows cols.
  apply NoDup_flat_map.
  + now apply spaced_NoDup with (step := gridSizeLat conv st).
  + intros lt _. apply NoDup_flat_map.
    * now apply spaced_NoDup with (step := gridSizeLon conv st).
    * intros ln _. apply gapCell_NoDup.
    * intros ln1 ln2 r _ _ G1 G2.
      destruct (@gapCell_corner _ _ _ _ _ _ G1) as [_ <-].
      destruct (@gapCell_corner _ _ _ _ _ _ G2) as [_ <-]. reflexivity.
  + intros lt1 lt2 r _ _ G1 G2.
    apply in_flat_map in G1. destruct G1 as (ln1 & _ & G1).
    apply in_flat_map in G2. destruct G2 as (ln2 & _ & G2).
    destruct (@gapCell_corner _ _ _ _ _ _ G1) as [<- _].
    destruct (@gapCell_corner _ _ _ _ _ _ G2) as [<- _]. reflexivity.
- intros r Hr. destruct (Hfrom _ Hr) as (R & C & G).
  destruct (@gapCell_extent _ _ _ _ _ _ G) as [E F].
  destruct (@forLoop_bounds _ _ _ _ _ HgLat R) as [R1 R2].
  destruct (@forLoop_bounds _ _ _ _ _ HgLon C) as [C1 C2].
  now repeat split.
Qed.

Lemma createGapGrid_covers_without_overlap_witness :
  let conv := mkConv 111000 88000 (3048 # 10000) in
  let distanceTo := fun p q : LatLng => 0 in
  let ea := mkSampleRec 0 0 false None None None None None in
  let st := mkState (mkData [] [ea]) [] true 100 "Mercury" in
  NoDup (createGapGrid conv distanceTo st) /\
  length (createGapGrid conv distanceTo st) = 12%nat.
Proof.
cbv zeta. split; [|reflexivity].
apply (@createGapGrid_covers_without_overlap
         (mkConv 111000 88000 (3048 # 10000)) (fun p q : LatLng => 0)
         (mkState (mkData []
            [mkSampleRec 0 0 false None None None None None])
            [] true 100 "Mercury")).
- repeat split.
- reflexivity.
- discriminate.
Defined.

End GapGridFacts.

(* ================================================================== *)
(** * Column layout *)
(* ================================================================== *)

Module LayoutFacts.
Import CrossSection.

(** Every column is at least [minGap] to the right of the one before. *)
Fixpoint separated (minGap : Q) (l : list Pos) : Prop :=
match l with
| a :: ((b :: _) as rest) => minGap <= x b - x a /\ separated minGap rest
| _ => True
end.

(** The column drawn around [p] lies within the plot bounds. *)
Definition within (plotLeft plotRight : Q) (p : Pos) : Prop :=
plotLeft <= x p - COLUMN_WIDTH_PX / 2 /\ x p + COLUMN_WIDTH_PX / 2 <= plotRight.

Section WithBounds.
Variable minGap plotLeft plotRight : Q.

Lemma relaxFrom_ids (rest : list Pos) : forall prev,
  map id (fst (relaxFrom minGap prev rest)) = map id (prev :: rest).
Proof.
induction rest as [|cur rest IH]; intro prev; simpl.
- reflexivity.
- destruct (Qltb (x cur - x prev) minGap).
  + specialize (IH (setX cur (x cur + (minGap - (x cur - x prev)) / 2))).
    destruct (relaxFrom minGap _ rest) as [out ch]. simpl in *.
    now rewrite IH.
  + specialize (IH cur).
    destruct (relaxFrom minGap cur rest) as [out ch]. simpl in *.
    now rewrite IH.
Qed.

Lemma relaxPass_ids (l : list Pos) :
  map id (fst (relaxPass minGap l)) = map id l.
Proof.
destruct l as [|p rest]; [reflexivity|]. apply relaxFrom_ids.
Qed.

Lemma relax_ids (n : nat) : forall l, map id (relax minGap n l) = map id l.
Proof.
induction n as [|n IH]; intro l; simpl; [reflexivity|].
pose proof (relaxPass_ids l) as Hp.
destruct (relaxPass minGap l) as [l' ch]. simpl in Hp.
destruct ch; [rewrite IH|]; exact Hp.
Qed.

(** A pass over columns that are already apart changes nothing. *)
Lemma relaxFrom_separated (rest : list Pos) : forall prev,
  separated minGap (prev :: rest) ->
  relaxFrom minGap prev rest = (prev :: rest, false).
Proof.
induction rest as [|cur rest IH]; intros prev Hsep.
- reflexivity.
- destruct Hsep as [Hgap Hsep]. cbn [relaxFrom].
  rewrite (proj2 (Qltb_ge _ _) Hgap). now rewrite (IH cur Hsep).
Qed.

(** A pass that reports no change has found the columns apart. *)
Lemma relaxFrom_settled (rest : list Pos) : forall prev,
  snd (relaxFrom minGap prev rest) = false ->
  separated minGap (prev :: rest).
Proof.
induction rest as [|cur rest IH]; intros prev Hs.
- exact I.
- cbn [relaxFrom] in Hs.
  destruct (Qltb (x cur - x prev) minGap) eqn:E.
  + destruct (relaxFrom minGap _ rest) as [out ch]. discriminate.
  + apply Qltb_ge in E. specialize (IH cur).
    destruct (relaxFrom minGap cur rest) as [out ch]. simpl in *.
    split; [exact E|now apply IH].
Qed.

Lemma relax_separated (n : nat) (l : list Pos) :
  separated minGap l -> relax minGap n l = l.
Proof.
intro Hsep. destruct n as [|n]; [reflexivity|]. simpl.
destruct l as [|p rest]; [reflexivity|]. simpl.
now rewrite (relaxFrom_separated rest p Hsep).
Qed.

(** Two columns are apart after the first pass. *)
Lemma relax_two (n : nat) (a b : Pos) :
  separated minGap (relax minGap (S n) [a; b]).
Proof.
simpl. destruct (Qltb (x b - x a) minGap) eqn:E.
- set (a' := setX a _). set (b' := setX b _).
  assert (Hsep : separated minGap [a'; b']).
  { simpl. split; [|exact I]. unfold Qdiv.
    apply Qle_trans with
      (x b - x a + 2 * ((minGap - (x b - x a)) * / 2)); [|lra].
    assert (Hh : 2 * ((minGap - (x b - x a)) * / 2) == minGap - (x b - x a))
      by field.
    rewrite Hh. lra. }
  now rewrite relax_separated.
- apply Qltb_ge in E. simpl. split; [exact E|exact I].
Qed.

Lemma halfCol_12 : COLUMN_WIDTH_PX / 2 == 12.
Proof. reflexivity. Qed.

Lemma clamp_within (p : Pos) :
  plotLeft + COLUMN_WIDTH_PX <= plotRight ->
  within plotLeft plotRight (clamp plotLeft plotRight p).
Proof.
intro Hw. unfold within, clamp.
assert (Hc : COLUMN_WIDTH_PX == 24) by reflexivity.
pose proof halfCol_12 as Hh. rewrite Hc in Hw.
set (h := COLUMN_WIDTH_PX / 2) in *.
destruct (Qltb (x p - h) plotLeft) eqn:E1.
- simpl. destruct (Qltb plotRight (plotLeft + h + h)) eqn:E2; simpl.
  + apply Qltb_lt in E2. lra.
  + apply Qltb_ge in E2. lra.
- apply Qltb_ge in E1.
  destruct (Qltb plotRight (x p + h)) eqn:E2; simpl.
  + apply Qltb_lt in E2. lra.
  + apply Qltb_ge in E2. lra.
Qed.

Lemma clamp_fixed (p : Pos) :
  within plotLeft plotRight p -> clamp plotLeft plotRight p = p.
Proof.
intros [H1 H2]. unfold clamp.
rewrite (proj2 (Qltb_ge _ _) H1). now rewrite (proj2 (Qltb_ge _ _) H2).
Qed.

Lemma clamp_id (p : Pos) : id (clamp plotLeft plotRight p) = id p.
Proof.
unfold clamp.
destruct (Qltb (x p - COLUMN_WIDTH_PX / 2) plotLeft); simpl;
  match goal with |- context [Qltb ?a ?b] => destruct (Qltb a b) end;
  reflexivity.
Qed.

End WithBounds.

(** C9, as first stated, fails.  Three columns at the same place are not
    a full 26 px apart after the five passes, however wide the plot; and a
    single column outside the plot is handed back where it was. *)
Lemma resolveOverlaps_neither_apart_nor_clamped :
  let out := resolveOverlaps 26 (-1000) 1000
               [mkPos "a" 0; mkPos "b" 0; mkPos "c" 0] in
  let d := mkPos "" 0 in
  x (nth 1 out d) - x (nth 0 out d) < 26 /\
  resolveOverlaps 26 0 1000 [mkPos "a" (-100)] = [mkPos "a" (-100)] /\
  ~ within 0 1000 (mkPos "a" (-100)).
Proof.
cbv zeta. split; [vm_compute; reflexivity|]. split; [reflexivity|].
intros [H _]. vm_compute in H. now apply H.
Qed.

(** C9, amended.  [resolveOverlaps] keeps the columns, in order of [x].
    With two or more columns and plot bounds at least one column wide,
    every returned position is clamped so that its column lies within the
    bounds.  Columns that are [minGap] apart once sorted are not moved by
    the passes, two columns are always [minGap] apart after the passes,
    and whenever the passes leave the columns [minGap] apart and within
    the bounds, that is the result returned. *)
Theorem resolveOverlaps_layout (minGap plotLeft plotRight : Q)
  (positions : list Pos) :
  plotLeft + COLUMN_WIDTH_PX <= plotRight ->
  let sorted := sort byX positions in
  let relaxed := relax minGap 5 sorted in
  let out := resolveOverlaps minGap plotLeft plotRight positions in
  map id out = map id sorted /\
  Permutation positions sorted /\
  ((2 <= length positions)%nat ->
   (forall p, In p out -> within plotLeft plotRight p) /\
   (separated minGap sorted -> relaxed = sorted) /\
   (length positions = 2%nat -> separated minGap relaxed) /\
   (separated minGap relaxed ->
    (forall p, In p relaxed -> within plotLeft plotRight p) ->
    out = relaxed /\ separated minGap out)).
Proof.
intros Hw sorted relaxed out.
split; [|split].
- subst out. unfold resolveOverlaps.
  destruct (length positions <=? 1)%nat eqn:E.
  + apply Nat.leb_le in E. subst sorted.
    destruct positions as [|p [|q rest]]; simpl in *; try reflexivity; lia.
  + rewrite map_map.
    rewrite (map_ext _ id (clamp_id plotLeft plotRight)).
    apply relax_ids.
- apply sort_perm.
- intro Hlen. subst out. unfold resolveOverlaps.
  rewrite (proj2 (Nat.leb_gt _ _)) by lia.
  fold sorted. fold relaxed.
  split; [|split; [|split]].
  + intros p Hp. apply in_map_iff in Hp. destruct Hp as (q & <- & _).
    now apply clamp_within.
  + intro Hsep. now apply relax_separated.
  + intro H2. subst relaxed.
    assert (Hl : length sorted = 2%nat)
      by (subst sorted; now rewrite sort_length).
    destruct sorted as [|a [|b [|c rest]]]; simpl in Hl; try lia.
    apply relax_two.
  + intros Hsep Hin.
    assert (E : map (clamp plotLeft plotRight) relaxed = relaxed).
    { rewrite <- (map_id relaxed) at 2. apply map_ext_in.
      intros p Hp. now apply clamp_fixed, Hin. }
    rewrite E. now split.
Qed.

Lemma resolveOverlaps_layout_witness :
  let out := resolveOverlaps 26 0 900 [mkPos "b" 10; mkPos "a" 5] in
  map id out = ["a"%string; "b"%string] /\
  forall p, In p out -> within 0 900 p.
Proof.
cbv zeta.
destruct (@resolveOverlaps_layout 26 0 900 [mkPos "b" 10; mkPos "a" 5])
  as (Hid & _ & H).
- vm_compute. discriminate.
- split; [exact Hid|]. apply H. simpl. lia.
Defined.

End LayoutFacts.

(* ================================================================== *)
(** * Loops over the edges of a polygon *)
(* ================================================================== *)

Unset Implicit Arguments.

Module CyclicFacts.

(** The array rotated by one: element [(i + 1) % n] at index [i]. *)
Definition rot {B : Type} (l : list B) : list B :=
match l with
| [] => []
| a :: t => t ++ [a]
end.

(** The edges of a polygon: each vertex paired with the next one, the
    last with the first. *)
Definition cyc {B : Type} (l : list B) : list (B * B) := combine l (rot l).

(** Sum of a list of numbers. *)
Definition sumQ (l : list Q) : Q := fold_right Qplus 0 l.

Lemma rot_length {B : Type} (l : list B) : length (rot l) = length l.
Proof.
destruct l as [|a t]; simpl; [reflexivity|].
rewrite length_app. simpl. lia.
Qed.

Lemma cyc_length {B : Type} (l : list B) : length (cyc l) = length l.
Proof.
unfold cyc. rewrite length_combine, rot_length. lia.
Qed.

Lemma rot_nth {B : Type} (l : list B) (d : B) (i : nat) :
  (i < length l)%nat ->
  nth i (rot l) d = nth ((i + 1) mod length l) l d.
Proof.
destruct l as [|a t]; simpl length; [lia|]. intro Hi. cbn [rot].
destruct (Nat.eq_dec (i + 1) (S (length t))) as [E|E].
- rewrite E, Nat.Div0.mod_same. simpl.
  rewrite app_nth2 by lia.
  replace (i - length t)%nat with 0%nat by lia. reflexivity.
- rewrite Nat.mod_small by lia.
  replace (i + 1)%nat with (S i) by lia. simpl.
  apply app_nth1. lia.
Qed.

Lemma cyc_nth {B : Type} (l : list B) (d : B) (i : nat) :
  (i < length l)%nat ->
  nth i (cyc l) (d, d) = (nth i l d, nth ((i + 1) mod length l) l d).
Proof.
intro Hi. unfold cyc.
rewrite combine_nth by (now rewrite rot_length).
now rewrite rot_nth.
Qed.

(** The pairs of vertices an index loop with [j = (i + 1) % n] meets. *)
Lemma seq_cyc {B : Type} (l : list B) (d : B) :
  map (fun i => (nth i l d, nth ((i + 1) mod length l) l d))
      (seq 0 (length l)) = cyc l.
Proof.
apply nth_ext with
  (d := (fun i => (nth i l d, nth ((i + 1) mod length l) l d)) 0%nat)
  (d' := (d, d)).
- now rewrite length_map, length_seq, cyc_length.
- intros i Hi. rewrite length_map, length_seq in Hi.
  rewrite cyc_nth by exact Hi.
  pose proof (map_nth (fun i0 => (nth i0 l d, nth ((i0 + 1) mod length l) l d))
                (seq 0 (length l)) 0%nat i) as E.
  cbv beta in E. rewrite E. now rewrite seq_nth by exact Hi.
Qed.

Lemma cyc_In_nth {B : Type} (l : list B) (d : B) (u w : B) :
  In (u, w) (cyc l) ->
  exists i, (i < length l)%nat /\
            u = nth i l d /\ w = nth ((i + 1) mod length l) l d.
Proof.
intro Hin. apply In_nth with (d := (d, d)) in Hin.
destruct Hin as (i & Hi & E). rewrite cyc_length in Hi.
rewrite cyc_nth in E by exact Hi.
exists i. split; [exact Hi|]. now inversion E.
Qed.

Lemma cyc_In_l {B : Type} (l : list B) (u w : B) : In (u, w) (cyc l) -> In u l.
Proof. unfold cyc. apply in_combine_l. Qed.

Lemma rot_map {B C : Type} (f : B -> C) (l : list B) :
  rot (map f l) = map f (rot l).
Proof.
destruct l as [|a t]; simpl; [reflexivity|]. now rewrite map_app.
Qed.

Lemma combine_map {B C : Type} (f : B -> C) (l l' : list B) :
  combine (map f l) (map f l') =
  map (fun p => (f (fst p), f (snd p))) (combine l l').
Proof.
revert l'. induction l as [|a l IH]; intros [|b l']; simpl; try reflexivity.
now rewrite IH.
Qed.

Lemma cyc_map {B C : Type} (f : B -> C) (l : list B) :
  cyc (map f l) = map (fun p => (f (fst p), f (snd p))) (cyc l).
Proof.
unfold cyc. rewrite rot_map. apply combine_map.
Qed.

(** ** Sums *)

Lemma sumQ_app (l l' : list Q) : sumQ (l ++ l') == sumQ l + sumQ l'.
Proof.
induction l as [|a l IH]; simpl.
- ring.
- rewrite IH. ring.
Qed.

Lemma sumQ_ext {B : Type} (f g : B -> Q) (l : list B) :
  (forall a, In a l -> f a == g a) ->
  sumQ (map f l) == sumQ (map g l).
Proof.
induction l as [|a l IH]; intro H; simpl.
- reflexivity.
- rewrite (H a (or_introl eq_refl)). rewrite IH; [reflexivity|].
  intros a' Ha'. apply H. now right.
Qed.

Lemma sumQ_le {B : Type} (f g : B -> Q) (l : list B) :
  (forall a, In a l -> f a <= g a) ->
  sumQ (map f l) <= sumQ (map g l).
Proof.
induction l as [|a l IH]; intro H; simpl.
- apply Qle_refl.
- apply Qplus_le_compat; [apply H; now left|].
  apply IH. intros a' Ha'. apply H. now right.
Qed.

Lemma sumQ_nonneg {B : Type} (f : B -> Q) (l : list B) :
  (forall a, In a l -> 0 <= f a) -> 0 <= sumQ (map f l).
Proof.
induction l as [|a l IH]; intro H; simpl.
- apply Qle_refl.
- assert (0 <= f a) by (apply H; now left).
  assert (0 <= sumQ (map f l)) by (apply IH; intros; apply H; now right).
  lra.
Qed.

(** A sum of terms [c1 * f + c2 * g + c3 * h]. *)
Lemma sumQ_linear {B : Type} (f g h : B -> Q) (c1 c2 c3 : Q) (l : list B) :
  sumQ (map (fun a => c1 * f a + c2 * g a + c3 * h a) l) ==
  c1 * sumQ (map f l) + c2 * sumQ (map g l) + c3 * sumQ (map h l).
Proof.
induction l as [|a l IH]; simpl.
- ring.
- rewrite IH. ring.
Qed.

Lemma sumQ_const {B : Type} (c : Q) (l : list B) :
  sumQ (map (fun _ => c) l) == Qlen l * c.
Proof.
unfold Qlen. induction l as [|a l IH].
- simpl. ring.
- cbn [map sumQ fold_right length]. fold (sumQ (map (fun _ : B => c) l)).
  rewrite IH, Nat2Z.inj_succ. unfold Z.succ. rewrite inject_Z_plus. ring.
Qed.

Lemma combine_sum_fst {B C : Type} (f : B -> Q) (l : list B) (l' : list C) :
  length l = length l' ->
  sumQ (map (fun p => f (fst p)) (combine l l')) == sumQ (map f l).
Proof.
revert l'. induction l as [|a l IH]; intros [|b l'] Hlen; simpl in *;
  try reflexivity; try discriminate.
rewrite IH by lia. reflexivity.
Qed.

Lemma combine_sum_snd {B C : Type} (f : C -> Q) (l : list B) (l' : list C) :
  length l = length l' ->
  sumQ (map (fun p => f (snd p)) (combine l l')) == sumQ (map f l').
Proof.
revert l'. induction l as [|a l IH]; intros [|b l'] Hlen; simpl in *;
  try reflexivity; try discriminate.
rewrite IH by lia. reflexivity.
Qed.

Lemma sumQ_rot {B : Type} (f : B -> Q) (l : list B) :
  sumQ (map f (rot l)) == sumQ (map f l).
Proof.
destruct l as [|a t]; simpl; [reflexivity|].
rewrite map_app, sumQ_app. simpl. ring.
Qed.

(** Around a polygon what the edges start from and what they end at sum
    to the same. *)
Lemma cyc_sum_ends {B : Type} (f : B -> Q) (l : list B) :
  sumQ (map (fun p => f (fst p)) (cyc l)) ==
  sumQ (map (fun p => f (snd p)) (cyc l)).
Proof.
unfold cyc.
rewrite combine_sum_fst by (now rewrite rot_length).
rewrite combine_sum_snd by (now rewrite rot_length).
symmetry. apply sumQ_rot.
Qed.

Lemma fold_add_sumQ {B : Type} (f : B -> Q) (l : list B) (acc : Q) :
  fold_left (fun a v => a + f v) l acc == acc + sumQ (map f l).
Proof.
revert acc. induction l as [|v l IH]; intro acc; simpl.
- ring.
- rewrite IH. ring.
Qed.

End CyclicFacts.

(* ================================================================== *)
(** * The edge test of [pointInConvexHull] *)
(* ================================================================== *)

Module HullEdges.
Import Contour CyclicFacts.

(** The cross product [pointInConvexHull] computes for the edge from [u]
    to [w] and the point at latitude [y], longitude [x]. *)
Definition edgeCross {A : Type} `{HasLatLon A} (u w : A) (y x : Q) : Q :=
(lon w - lon u) * (y - lat u) - (lat w - lat u) * (x - lon u).

Lemma edgeCross_cross2D {A : Type} `{HasLatLon A} (u w p : A) :
  edgeCross u w (lat p) (lon p) = cross2D u w p.
Proof. reflexivity. Qed.

Lemma edgeOk_nth {A : Type} `{HasLatLon A} (y x : Q) (hull : list A)
  (d : A) (i : nat) :
  (i < length hull)%nat ->
  edgeOk y x hull i =
  negb (Qltb (edgeCross (nth i hull d)
                (nth ((i + 1) mod length hull) hull d) y x) 0).
Proof.
intro Hi. unfold edgeOk.
assert (Hj : ((i + 1) mod length hull < length hull)%nat)
  by (apply Nat.mod_upper_bound; lia).
rewrite (nth_error_nth' hull d Hi), (nth_error_nth' hull d Hj).
reflexivity.
Qed.

(** The point passes the test exactly when it is on the non-negative side
    of every edge of a polygon of at least three vertices. *)
Lemma pointInConvexHull_edges {A : Type} `{HasLatLon A} (y x : Q)
  (hull : list A) :
  pointInConvexHull y x hull = true <->
  (3 <= length hull)%nat /\
  forall u w, In (u, w) (cyc hull) -> 0 <= edgeCross u w y x.
Proof.
unfold pointInConvexHull.
destruct (length hull <? 3)%nat eqn:En.
- apply Nat.ltb_lt in En. split; [discriminate|]. intros [Hn _]. lia.
- apply Nat.ltb_ge in En. rewrite forallb_forall. split.
  + intro Hall. split; [exact En|]. intros u w Hin.
    destruct hull as [|d hull']; [destruct Hin|].
    destruct (cyc_In_nth (d :: hull') d u w Hin) as (i & Hi & -> & ->).
    specialize (Hall i (proj2 (in_seq _ _ _) (conj (Nat.le_0_l i) Hi))).
    rewrite (edgeOk_nth y x (d :: hull') d i Hi) in Hall.
    apply negb_true_iff, Qltb_ge in Hall. exact Hall.
  + intros [_ Hall] i Hi. apply in_seq in Hi. destruct Hi as [_ Hi].
    simpl in Hi.
    destruct hull as [|d hull']; [simpl in Hi; lia|].
    rewrite (edgeOk_nth y x (d :: hull') d i Hi).
    apply negb_true_iff, Qltb_ge. apply Hall.
    rewrite <- (seq_cyc (d :: hull') d).
    apply in_map_iff. exists i. split; [reflexivity|].
    apply in_seq. lia.
Qed.

End HullEdges.

(* ================================================================== *)
(** * Hull buffering and enclosed area *)
(* ================================================================== *)

Module AreaFacts.
Import Contour Polygon CyclicFacts HullEdges.

(** The shoelace term of the edge from [u] to [w], coordinates taken
    relative to the point at latitude [cLat], longitude [cLon]. *)
Definition rel {A : Type} `{HasLatLon A} (cLat cLon : Q) (p : A * A) : Q :=
(lon (fst p) - cLon) * (lat (snd p) - cLat)
- (lon (snd p) - cLon) * (lat (fst p) - cLat).

Definition relSum {A : Type} `{HasLatLon A} (cLat cLon : Q) (verts : list A) : Q :=
sumQ (map (rel cLat cLon) (cyc verts)).

(** Square feet per square degree. *)
Definition sqFtPerSqDeg (conv : CoordConversion) : Q :=
metersPerDegLon conv * metersPerDegLat conv
/ (feetToMeters conv * feetToMeters conv).

(** A polygon wound counter-clockwise and convex, the way
    [pointInConvexHull] tests it: every vertex is on the non-negative
    side of every edge. *)
Definition convexCCW {A : Type} `{HasLatLon A} (hull : list A) : Prop :=
forall v, In v hull -> pointInConvexHull (lat v) (lon v) hull = true.

(** The factor by which [bufferVertex] stretches the offset of [v] from
    the centroid. *)
Definition stretch {A : Type} `{HasLatLon A} (conv : CoordConversion)
  (sqrt : Q -> Q) (cLat cLon b : Q) (v : A) : Q :=
let dLatM := (lat v - cLat) * metersPerDegLat conv in
let dLonM := (lon v - cLon) * metersPerDegLon conv in
let dist := sqrt (dLatM * dLatM + dLonM * dLonM) in
if Qltb dist (1 # 1000) then 1 else 1 + b / dist.

Lemma rel_edgeCross {A : Type} `{HasLatLon A} (cLat cLon : Q) (u w : A) :
  rel cLat cLon (u, w) == edgeCross u w cLat cLon.
Proof. unfold rel, edgeCross. simpl. ring. Qed.

(** The shoelace sum does not depend on the reference point. *)
Lemma relSum_translate {A : Type} `{HasLatLon A} (a b : Q) (verts : list A) :
  relSum a b verts == relSum 0 0 verts.
Proof.
unfold relSum.
rewrite (sumQ_ext (rel a b)
  (fun p => 1 * rel 0 0 p
            + a * (lon (snd p) - lon (fst p))
            + b * (lat (fst p) - lat (snd p)))).
2:{ intros p _. unfold rel. ring. }
rewrite sumQ_linear.
assert (E1 : sumQ (map (fun p : A * A => lon (snd p) - lon (fst p))
                     (cyc verts)) == 0).
{ rewrite (sumQ_ext _ (fun p : A * A => 1 * lon (snd p)
                         + (-1) * lon (fst p) + 0 * 0)).
  2:{ intros p _. ring. }
  rewrite sumQ_linear.
  rewrite (cyc_sum_ends lon verts). ring. }
assert (E2 : sumQ (map (fun p : A * A => lat (fst p) - lat (snd p))
                     (cyc verts)) == 0).
{ rewrite (sumQ_ext _ (fun p : A * A => 1 * lat (fst p)
                         + (-1) * lat (snd p) + 0 * 0)).
  2:{ intros p _. ring. }
  rewrite sumQ_linear.
  rewrite (cyc_sum_ends lat verts). ring. }
rewrite E1, E2. ring.
Qed.

Section Shoelace.
Context {A : Type} `{HasLatLon A}.
Variable conv : CoordConversion.
Hypothesis Hconv : conv_positive conv.

Definition crossXY (p : XY * XY) : Q :=
px (fst p) * py (snd p) - px (snd p) * py (fst p).

Lemma shoelace_fold (points : list XY) (l : list nat) (acc : Q) :
  fold_left (shoelaceStep points) l acc ==
  acc + sumQ (map (fun i => crossXY
                     (nth i points (mkXY 0 0),
                      nth ((i + 1) mod length points) points (mkXY 0 0))) l).
Proof.
revert acc. induction l as [|i l IH]; intro acc; simpl.
- ring.
- rewrite IH. unfold shoelaceStep, crossXY. simpl. ring.
Qed.

Lemma shoelace_cyc (points : list XY) :
  fold_left (shoelaceStep points) (seq 0 (length points)) 0 ==
  sumQ (map crossXY (cyc points)).
Proof.
rewrite shoelace_fold.
rewrite <- (seq_cyc points (mkXY 0 0)). rewrite map_map. ring.
Qed.

Lemma feet_nonzero : ~ feetToMeters conv == 0.
Proof.
destruct Hconv as (_ & _ & Hf). intro E. rewrite E in Hf.
apply (Qlt_irrefl _ Hf).
Qed.

Lemma sqFt_pos : 0 < sqFtPerSqDeg conv.
Proof.
destruct Hconv as (H1 & H2 & H3). unfold sqFtPerSqDeg.
apply Qlt_shift_div_l.
- now apply Qmult_lt_0_compat.
- rewrite Qmult_0_l. now apply Qmult_lt_0_compat.
Qed.

Lemma crossXY_toFeet (origin : A) (p : A * A) :
  crossXY (toFeet conv origin (fst p), toFeet conv origin (snd p)) ==
  sqFtPerSqDeg conv * rel (lat origin) (lon origin) p.
Proof.
unfold crossXY, toFeet, rel, sqFtPerSqDeg. simpl.
field. apply feet_nonzero.
Qed.

(** The area in terms of the shoelace sum about any reference point. *)
Lemma calculateAreaSqFt_relSum (cLat cLon : Q) (verts : list A) :
  (3 <= length verts)%nat ->
  calculateAreaSqFt conv verts ==
  Qabs (sqFtPerSqDeg conv * relSum cLat cLon verts / 2).
Proof.
intro Hn. unfold calculateAreaSqFt.
rewrite (proj2 (Nat.ltb_ge _ _) Hn).
destruct verts as [|origin rest] eqn:E; [simpl in Hn; lia|].
rewrite <- E. cbv zeta.
rewrite shoelace_cyc. rewrite cyc_map. rewrite map_map.
rewrite (sumQ_ext _ (fun p => sqFtPerSqDeg conv * rel (lat origin) (lon origin) p
                              + 0 * 0 + 0 * 0)).
2:{ intros p _. rewrite crossXY_toFeet. ring. }
rewrite sumQ_linear.
fold (relSum (lat origin) (lon origin) verts).
rewrite (relSum_translate (lat origin) (lon origin)).
rewrite (relSum_translate cLat cLon).
apply Qabs_wd. field.
Qed.

End Shoelace.

Section Buffer.
Context {A : Type} `{HasLatLon A}.
Variable conv : CoordConversion.
Variable sqrt : Q -> Q.
Hypothesis Hconv : conv_positive conv.

Lemma Qlen_pos (l : list A) : (0 < length l)%nat -> 0 < Qlen l.
Proof.
intro Hl. unfold Qlen. change 0 with (inject_Z 0). rewrite <- Zlt_Qlt. lia.
Qed.

Lemma centroidLat_sum (hull : list A) :
  (0 < length hull)%nat ->
  Qlen hull * centroidLat hull == sumQ (map lat hull).
Proof.
intro Hl. pose proof (Qlen_pos hull Hl) as Hn.
unfold centroidLat. rewrite (fold_add_sumQ lat hull 0).
field. intro E. rewrite E in Hn. apply (Qlt_irrefl _ Hn).
Qed.

Lemma centroidLon_sum (hull : list A) :
  (0 < length hull)%nat ->
  Qlen hull * centroidLon hull == sumQ (map lon hull).
Proof.
intro Hl. pose proof (Qlen_pos hull Hl) as Hn.
unfold centroidLon. rewrite (fold_add_sumQ lon hull 0).
field. intro E. rewrite E in Hn. apply (Qlt_irrefl _ Hn).
Qed.

(** The centroid of the vertices is on the non-negative side of every
    edge of a convex polygon. *)
Lemma centroid_inside (hull : list A) (u w : A) :
  (3 <= length hull)%nat -> convexCCW hull -> In (u, w) (cyc hull) ->
  0 <= rel (centroidLat hull) (centroidLon hull) (u, w).
Proof.
intros Hn Hcvx Hin.
assert (Hl : (0 < length hull)%nat) by lia.
pose proof (Qlen_pos hull Hl) as Hq.
rewrite rel_edgeCross.
assert (Hsum : 0 <= sumQ (map (fun v => edgeCross u w (lat v) (lon v)) hull)).
{ apply sumQ_nonneg. intros v Hv.
  apply (proj2 (proj1 (pointInConvexHull_edges _ _ hull) (Hcvx v Hv))).
  exact Hin. }
rewrite (sumQ_ext _ (fun v => (lon w - lon u) * lat v
                      + (- (lat w - lat u)) * lon v
                      + ((lat w - lat u) * lon u - (lon w - lon u) * lat u)
                        * (fun _ => 1) v)) in Hsum.
2:{ intros v _. unfold edgeCross. ring. }
rewrite sumQ_linear in Hsum.
rewrite (sumQ_const 1 hull) in Hsum.
rewrite <- (centroidLat_sum hull Hl), <- (centroidLon_sum hull Hl) in Hsum.
assert (E : Qlen hull * edgeCross u w (centroidLat hull) (centroidLon hull) ==
            (lon w - lon u) * (Qlen hull * centroidLat hull)
            + - (lat w - lat u) * (Qlen hull * centroidLon hull)
            + ((lat w - lat u) * lon u - (lon w - lon u) * lat u)
              * (Qlen hull * 1)).
{ unfold edgeCross. ring. }
rewrite <- E in Hsum.
destruct (Qlt_le_dec (edgeCross u w (centroidLat hull) (centroidLon hull)) 0)
  as [Hneg|Hpos]; [|exact Hpos].
exfalso.
assert (Qlen hull * edgeCross u w (centroidLat hull) (centroidLon hull) < 0).
{ rewrite Qmult_comm.
  setoid_replace 0 with (0 * Qlen hull) by ring.
  now apply Qmult_lt_compat_r. }
lra.
Qed.

Lemma stretch_ge_1 (cLat cLon b : Q) (v : A) :
  0 < b -> 1 <= stretch conv sqrt cLat cLon b v.
Proof.
intro Hb. unfold stretch. cbv zeta.
match goal with |- context [Qltb ?d ?e] => destruct (Qltb d e) eqn:E end.
- apply Qle_refl.
- apply Qltb_ge in E.
  match type of E with _ <= ?d => set (dist := d) in * end.
  assert (Hd : 0 < dist) by (eapply Qlt_le_trans; [|exact E]; reflexivity).
  assert (0 < b / dist).
  { apply Qlt_shift_div_l; [exact Hd|]. now rewrite Qmult_0_l. }
  lra.
Qed.

(** [bufferVertex] moves a vertex along the ray from the centroid. *)
Lemma bufferVertex_stretch (cLat cLon b : Q) (v : A) :
  let v' := bufferVertex conv sqrt cLat cLon
              (b / metersPerDegLat conv) (b / metersPerDegLon conv) v in
  let k := stretch conv sqrt cLat cLon b v in
  lat v' - cLat == k * (lat v - cLat) /\
  lon v' - cLon == k * (lon v - cLon).
Proof.
destruct Hconv as (H1 & H2 & _).
assert (N1 : ~ metersPerDegLat conv == 0)
  by (intro E; rewrite E in H1; apply (Qlt_irrefl _ H1)).
assert (N2 : ~ metersPerDegLon conv == 0)
  by (intro E; rewrite E in H2; apply (Qlt_irrefl _ H2)).
unfold bufferVertex, stretch. cbv zeta.
match goal with |- context [Qltb ?d ?e] => destruct (Qltb d e) eqn:E end.
- simpl. split; ring.
- apply Qltb_ge in E.
  match type of E with _ <= ?d => set (dist := d) in * end.
  assert (Hd : 0 < dist) by (eapply Qlt_le_trans; [|exact E]; reflexivity).
  assert (N3 : ~ dist == 0)
    by (intro E'; rewrite E' in Hd; apply (Qlt_irrefl _ Hd)).
  simpl. split; field; auto.
Qed.

Lemma rel_buffer (cLat cLon b : Q) (p : A * A) :
  let bv := bufferVertex conv sqrt cLat cLon
              (b / metersPerDegLat conv) (b / metersPerDegLon conv) in
  let k := stretch conv sqrt cLat cLon b in
  rel cLat cLon (bv (fst p), bv (snd p)) ==
  k (fst p) * k (snd p) * rel cLat cLon p.
Proof.
cbv zeta. destruct p as [u w].
destruct (bufferVertex_stretch cLat cLon b u) as [Eu1 Eu2].
destruct (bufferVertex_stretch cLat cLon b w) as [Ew1 Ew2].
cbv zeta in *. unfold rel. cbn [fst snd].
rewrite Eu1, Eu2, Ew1, Ew2. ring.
Qed.

(** Stretching the vertices away from the centroid does not shrink the
    shoelace sum about it. *)
Lemma relSum_buffer (hull : list A) (b : Q) :
  (3 <= length hull)%nat -> convexCCW hull -> 0 < b ->
  let cLat := centroidLat hull in
  let cLon := centroidLon hull in
  0 <= relSum cLat cLon hull /\
  relSum cLat cLon hull <=
  relSum cLat cLon (bufferConvexHull conv sqrt hull b).
Proof.
intros Hn Hcvx Hb cLat cLon.
assert (Hnn : forall p, In p (cyc hull) -> 0 <= rel cLat cLon p).
{ intros [u w] Hin. now apply centroid_inside. }
split.
- unfold relSum. now apply sumQ_nonneg.
- unfold bufferConvexHull. rewrite (proj2 (Nat.ltb_ge _ _) Hn).
  cbv zeta. fold cLat cLon. unfold relSum.
  rewrite cyc_map, map_map.
  apply sumQ_le. intros p Hp.
  rewrite (rel_buffer cLat cLon b p). cbv zeta.
  pose proof (stretch_ge_1 cLat cLon b (fst p) Hb) as K1.
  pose proof (stretch_ge_1 cLat cLon b (snd p) Hb) as K2.
  pose proof (Hnn p Hp) as Hr.
  set (k1 := stretch conv sqrt cLat cLon b (fst p)) in *.
  set (k2 := stretch conv sqrt cLat cLon b (snd p)) in *.
  set (t := rel cLat cLon p) in *.
  assert (1 <= k1 * k2) by nra.
  nra.
Qed.

End Buffer.

(** C8.  For a convex, counter-clockwise hull of at least 3 vertices and
    a buffer distance above 0, the polygon returned by [bufferConvexHull]
    encloses at least the area of the hull, areas taken as
    [calculateAreaSqFt] computes them.  This holds whatever [Math.sqrt]
    returns. *)
Theorem bufferConvexHull_area_grows {A : Type} `{HasLatLon A}
  (conv : CoordConversion) (sqrt : Q -> Q) (hull : list A) (bufferMeters : Q) :
  conv_positive conv -> (3 <= length hull)%nat -> convexCCW hull ->
  0 < bufferMeters ->
  calculateAreaSqFt conv hull <=
  calculateAreaSqFt conv (bufferConvexHull conv sqrt hull bufferMeters).
Proof.
intros Hconv Hn Hcvx Hb.
destruct (relSum_buffer conv sqrt Hconv hull bufferMeters Hn Hcvx Hb)
  as [H0 Hle].
cbv zeta in *.
set (cLat := centroidLat hull) in *. set (cLon := centroidLon hull) in *.
assert (Hn' : (3 <= length (bufferConvexHull conv sqrt hull bufferMeters))%nat).
{ unfold bufferConvexHull. rewrite (proj2 (Nat.ltb_ge _ _) Hn).
  now rewrite length_map. }
rewrite (calculateAreaSqFt_relSum conv Hconv cLat cLon hull Hn).
rewrite (calculateAreaSqFt_relSum conv Hconv cLat cLon _ Hn').
pose proof (sqFt_pos conv Hconv) as HK.
set (K := sqFtPerSqDeg conv) in *.
set (S0 := relSum cLat cLon hull) in *.
set (S1 := relSum cLat cLon (bufferConvexHull conv sqrt hull bufferMeters)) in *.
assert (P0 : 0 <= K * S0) by nra.
assert (P1 : K * S0 <= K * S1) by nra.
rewrite !Qabs_pos.
- unfold Qdiv. apply Qmult_le_compat_r; [exact P1|discriminate].
- unfold Qdiv. apply Qmult_le_0_compat; [lra|discriminate].
- unfold Qdiv. apply Qmult_le_0_compat; [exact P0|discriminate].
Qed.

Lemma bufferConvexHull_area_grows_witness :
  let conv := mkConv 111000 88000 (3048 # 10000) in
  let sqrt := fun q : Q => inject_Z (Z.sqrt (Qfloor q)) in
  let hull := [mkLatLng 0 0; mkLatLng 0 (1 # 1000);
               mkLatLng (1 # 1000) (1 # 1000); mkLatLng (1 # 1000) 0] in
  calculateAreaSqFt conv hull <=
  calculateAreaSqFt conv (bufferConvexHull conv sqrt hull 30).
Proof.
apply (@bufferConvexHull_area_grows LatLng _
         (mkConv 111000 88000 (3048 # 10000))
         (fun q : Q => inject_Z (Z.sqrt (Qfloor q)))
         [mkLatLng 0 0; mkLatLng 0 (1 # 1000);
          mkLatLng (1 # 1000) (1 # 1000); mkLatLng (1 # 1000) 0] 30).
- repeat split.
- simpl. lia.
- intros v [<-|[<-|[<-|[<-|[]]]]]; vm_compute; reflexivity.
- reflexivity.
Defined.

End AreaFacts.

(* ================================================================== *)
(** * Convex hull: every input point is inside or on the hull *)
(* ================================================================== *)

Module HullContainment.
Import Contour CyclicFacts HullEdges HullVertices.

(** ** Planar vectors *)

(** A vector is to the right of the origin, or straight above it. *)
Definition lexpos (vx vy : Q) : Prop := 0 < vx \/ (vx == 0 /\ 0 < vy).

(** The same, the zero vector included. *)
Definition lexnn (vx vy : Q) : Prop := 0 < vx \/ (vx == 0 /\ 0 <= vy).

Lemma cross_times (bx by_ qx qy sx sy : Q) :
  bx * (qx * sy - qy * sx) ==
  qx * (bx * sy - by_ * sx) - sx * (bx * qy - by_ * qx).
Proof. ring. Qed.

(** [s] on the left of [b], [q] on its right, all three pointing
    rightwards: [s] is on the left of [q]. *)
Lemma turn_between (bx by_ sx sy qx qy : Q) :
  lexpos bx by_ -> lexnn sx sy -> lexnn qx qy ->
  0 <= bx * sy - by_ * sx -> bx * qy - by_ * qx <= 0 ->
  0 <= qx * sy - qy * sx.
Proof.
intros HB HS HQ H1 H2.
pose proof (cross_times bx by_ qx qy sx sy) as K.
destruct HB as [Hb|[Hb0 Hb]].
- assert (0 <= bx * (qx * sy - qy * sx)).
  { rewrite K. destruct HS as [Hs|[Hs0 Hs]]; destruct HQ as [Hq|[Hq0 Hq]]; nra. }
  nra.
- destruct HS as [Hs|[Hs0 Hs]]; destruct HQ as [Hq|[Hq0 Hq]]; nra.
Qed.

(** [s] behind and [q] ahead, both on the left of the direction [u]. *)
Lemma turn_behind (ux uy sx sy qx qy : Q) :
  lexpos ux uy -> lexnn (- sx) (- sy) -> lexnn qx qy ->
  0 <= ux * sy - uy * sx -> 0 < ux * qy - uy * qx ->
  0 <= qx * sy - qy * sx.
Proof.
intros HU HS HQ H1 H2.
pose proof (cross_times ux uy qx qy sx sy) as K.
destruct HU as [Hu|[Hu0 Hu]].
- assert (0 <= ux * (qx * sy - qy * sx)).
  { rewrite K. destruct HS as [Hs|[Hs0 Hs]]; destruct HQ as [Hq|[Hq0 Hq]]; nra. }
  nra.
- destruct HS as [Hs|[Hs0 Hs]]; destruct HQ as [Hq|[Hq0 Hq]]; nra.
Qed.

(** Two left turns in a row along a rightward chain. *)
Lemma turn_twice (cx cy qx qy ax ay : Q) :
  lexpos cx cy -> lexpos qx qy -> lexpos (- ax) (- ay) ->
  0 < cx * ay - cy * ax -> 0 < cx * qy - cy * qx ->
  0 < qx * ay - qy * ax.
Proof.
intros HC HQ HA H1 H2.
pose proof (cross_times cx cy qx qy ax ay) as K.
destruct HC as [Hc|[Hc0 Hc]].
- assert (0 < cx * (qx * ay - qy * ax)).
  { rewrite K. destruct HA as [Ha|[Ha0 Ha]]; destruct HQ as [Hq|[Hq0 Hq]]; nra. }
  nra.
- destruct HA as [Ha|[Ha0 Ha]]; destruct HQ as [Hq|[Hq0 Hq]]; nra.
Qed.

(** ** Points in the order of the sort *)

Section Points.
Context {A : Type} `{HasLatLon A}.

(** Same coordinates. *)
Definition same (a b : A) : Prop := lon a == lon b /\ lat a == lat b.

(** The order of [byLonLat]: by longitude, then by latitude. *)
Definition lexle (a b : A) : Prop :=
lon a < lon b \/ (lon a == lon b /\ lat a <= lat b).

Definition lexlt (a b : A) : Prop :=
lon a < lon b \/ (lon a == lon b /\ lat a < lat b).

Lemma lexlt_lexpos (a b : A) :
  lexlt a b <-> lexpos (lon b - lon a) (lat b - lat a).
Proof.
unfold lexlt, lexpos. split; intros [H1|[H1 H2]]; [left|right|left|right];
  try split; lra.
Qed.

Lemma lexle_lexnn (a b : A) :
  lexle a b <-> lexnn (lon b - lon a) (lat b - lat a).
Proof.
unfold lexle, lexnn. split; intros [H1|[H1 H2]]; [left|right|left|right];
  try split; lra.
Qed.

Lemma byLonLat_lexle (a b : A) :
  Qle_bool (byLonLat a b) 0 = true <-> lexle a b.
Proof.
unfold byLonLat, lexle. rewrite Qle_bool_iff.
destruct (Qeq_bool (lon a) (lon b)) eqn:E; simpl.
- apply Qeq_bool_eq in E. split.
  + intro Hle. right. split; [exact E|lra].
  + intros [Hlt|[_ Hle]]; lra.
- apply Qeq_bool_neq in E. split.
  + intro Hle. left.
    destruct (Qlt_le_dec (lon a) (lon b)) as [Hlt|Hge]; [exact Hlt|].
    exfalso. apply E. lra.
  + intros [Hlt|[Heq _]]; [lra|contradiction].
Qed.

Lemma lexle_refl (a : A) : lexle a a.
Proof. right. split; [reflexivity|apply Qle_refl]. Qed.

Lemma lexle_trans (a b c : A) : lexle a b -> lexle b c -> lexle a c.
Proof.
unfold lexle. intros [H1|[H1 H2]] [H3|[H3 H4]];
  [left|left|left|right]; try split; lra.
Qed.

Lemma lexle_total (a b : A) : lexle a b \/ lexle b a.
Proof.
unfold lexle.
destruct (Q_dec (lon a) (lon b)) as [[Hlt|Hgt]|Heq].
- left. now left.
- right. now left.
- destruct (Qlt_le_dec (lat b) (lat a)) as [Hlt|Hle].
  + right. right. split; [now symmetry|lra].
  + left. right. now split.
Qed.

Lemma lexlt_lexle (a b : A) : lexlt a b -> lexle a b.
Proof.
unfold lexlt, lexle. intros [H1|[H1 H2]]; [left|right]; try split; lra.
Qed.

Lemma lexle_cases (a b : A) : lexle a b -> lexlt a b \/ same a b.
Proof.
unfold lexle, lexlt, same. intros [H1|[H1 H2]].
- left. now left.
- destruct (Qlt_le_dec (lat a) (lat b)) as [Hlt|Hge].
  + left. right. now split.
  + right. split; [exact H1|lra].
Qed.

Lemma lexle_antisym (a b : A) : lexle a b -> lexle b a -> same a b.
Proof.
unfold lexle, same. intros [H1|[H1 H2]] [H3|[H3 H4]]; split; lra.
Qed.

Lemma same_lexle (a b : A) : same a b -> lexle a b.
Proof. intros [H1 H2]. right. split; [exact H1|lra]. Qed.

Lemma same_sym (a b : A) : same a b -> same b a.
Proof. intros [H1 H2]. split; now symmetry. Qed.

Lemma lexlt_lexle_trans (a b c : A) : lexlt a b -> lexle b c -> lexlt a c.
Proof.
unfold lexle, lexlt. intros [H1|[H1 H2]] [H3|[H3 H4]];
  [left|left|left|right]; try split; lra.
Qed.

(** ** Cross products *)

Lemma cross2D_same_third (a b s t : A) :
  same s t -> cross2D a b s == cross2D a b t.
Proof. intros [H1 H2]. unfold cross2D. rewrite H1, H2. reflexivity. Qed.

Lemma cross2D_end (a b : A) : cross2D a b b == 0.
Proof. unfold cross2D. ring. Qed.

Lemma cross2D_start (a b : A) : cross2D a b a == 0.
Proof. unfold cross2D. ring. Qed.

Lemma cross2D_same_edge (a b s : A) : same a b -> cross2D a b s == 0.
Proof. intros [H1 H2]. unfold cross2D. rewrite H1, H2. ring. Qed.

Lemma cross2D_flip (a b s : A) : cross2D b a s == - cross2D a b s.
Proof. unfold cross2D. ring. Qed.

(** ** The three turning rules, left to right *)

Lemma lex_between (a b s q : A) :
  lexlt a b -> lexle a s -> lexle a q ->
  0 <= cross2D a b s -> cross2D a b q <= 0 -> 0 <= cross2D a q s.
Proof.
intros Hab Has Haq H1 H2.
apply lexlt_lexpos in Hab. apply lexle_lexnn in Has. apply lexle_lexnn in Haq.
unfold cross2D in *.
exact (turn_between _ _ _ _ _ _ Hab Has Haq H1 H2).
Qed.

Lemma lex_behind (l t s q : A) :
  lexlt l t -> lexle s t -> lexle t q ->
  0 <= cross2D l t s -> 0 < cross2D l t q -> 0 <= cross2D t q s.
Proof.
intros Hlt Hst Htq H1 H2.
apply lexlt_lexpos in Hlt. apply lexle_lexnn in Hst. apply lexle_lexnn in Htq.
unfold cross2D in *.
assert (Hs : lexnn (- (lon s - lon t)) (- (lat s - lat t))).
{ destruct Hst as [K|[K1 K2]]; [left|right]; try split; lra. }
apply (turn_behind (lon t - lon l) (lat t - lat l)
         (lon s - lon t) (lat s - lat t) _ _ Hlt Hs Htq); lra.
Qed.

Lemma lex_twice (a b c q : A) :
  lexlt a b -> lexlt b c -> lexle c q ->
  0 < cross2D a b c -> 0 < cross2D b c q -> 0 < cross2D a b q.
Proof.
intros Hab Hbc Hcq H1 H2.
pose proof (lexlt_lexle_trans _ _ _ Hbc Hcq) as Hbq.
apply lexlt_lexpos in Hab. apply lexlt_lexpos in Hbc.
apply lexlt_lexpos in Hbq.
unfold cross2D in *.
assert (Ha : lexpos (- (lon a - lon b)) (- (lat a - lat b))).
{ destruct Hab as [K|[K1 K2]]; [left|right]; try split; lra. }
pose proof (turn_twice (lon c - lon b) (lat c - lat b)
              (lon q - lon b) (lat q - lat b)
              (lon a - lon b) (lat a - lat b) Hbc Hbq Ha) as K.
lra.
Qed.

(** ** The same rules, right to left *)

Lemma lexlt_flip_lexpos (a b : A) :
  lexlt b a <-> lexpos (- (lon b - lon a)) (- (lat b - lat a)).
Proof.
unfold lexlt, lexpos. split; intros [H1|[H1 H2]]; [left|right|left|right];
  try split; lra.
Qed.

Lemma lexle_flip_lexnn (a b : A) :
  lexle b a <-> lexnn (- (lon b - lon a)) (- (lat b - lat a)).
Proof.
unfold lexle, lexnn. split; intros [H1|[H1 H2]]; [left|right|left|right];
  try split; lra.
Qed.

Lemma rev_between (a b s q : A) :
  lexlt b a -> lexle s a -> lexle q a ->
  0 <= cross2D a b s -> cross2D a b q <= 0 -> 0 <= cross2D a q s.
Proof.
intros Hab Has Haq H1 H2.
apply lexlt_flip_lexpos in Hab. apply lexle_flip_lexnn in Has.
apply lexle_flip_lexnn in Haq.
unfold cross2D in *.
pose proof (turn_between _ _ _ _ _ _ Hab Has Haq) as K. lra.
Qed.

Lemma rev_behind (l t s q : A) :
  lexlt t l -> lexle t s -> lexle q t ->
  0 <= cross2D l t s -> 0 < cross2D l t q -> 0 <= cross2D t q s.
Proof.
intros Hlt Hst Htq H1 H2.
apply lexlt_flip_lexpos in Hlt. apply lexle_flip_lexnn in Htq.
apply lexle_lexnn in Hst.
unfold cross2D in *.
assert (Hs : lexnn (- - (lon s - lon t)) (- - (lat s - lat t))).
{ destruct Hst as [K|[K1 K2]]; [left|right]; try split; lra. }
pose proof (turn_behind (- (lon t - lon l)) (- (lat t - lat l))
              (- (lon s - lon t)) (- (lat s - lat t)) _ _ Hlt Hs Htq) as K.
lra.
Qed.

Lemma rev_twice (a b c q : A) :
  lexlt b a -> lexlt c b -> lexle q c ->
  0 < cross2D a b c -> 0 < cross2D b c q -> 0 < cross2D a b q.
Proof.
intros Hab Hbc Hcq H1 H2.
assert (Hbq : lexlt q b).
{ unfold lexle, lexlt in *.
  destruct Hbc as [K|[K1 K2]]; destruct Hcq as [K3|[K3 K4]];
    [left|left|left|right]; try split; lra. }
apply lexlt_flip_lexpos in Hbc. apply lexlt_flip_lexpos in Hbq.
apply lexlt_lexpos in Hab.
unfold cross2D in *.
assert (Ha : lexpos (- - (lon a - lon b)) (- - (lat a - lat b))).
{ destruct Hab as [K|[K1 K2]]; [left|right]; try split; lra. }
pose proof (turn_twice (- (lon c - lon b)) (- (lat c - lat b))
              (- (lon q - lon b)) (- (lat q - lat b))
              (- (lon a - lon b)) (- (lat a - lat b)) Hbc Hbq Ha) as K.
lra.
Qed.

End Points.

(** ** One chain loop *)

Section Chain.
Context {A : Type} `{HasLatLon A}.

(** The order in which the loop meets the points: [lexle] for the lower
    chain, its converse for the upper chain. *)
Variable le lt : A -> A -> Prop.
Hypothesis le_refl : forall a, le a a.
Hypothesis le_trans : forall a b c, le a b -> le b c -> le a c.
Hypothesis le_total : forall a b, le a b \/ le b a.
Hypothesis lt_le : forall a b, lt a b -> le a b.
Hypothesis le_cases : forall a b, le a b -> lt a b \/ same a b.
Hypothesis le_antisym : forall a b, le a b -> le b a -> same a b.
Hypothesis same_le : forall a b, same a b -> le a b.
Hypothesis between : forall a b s q,
  lt a b -> le a s -> le a q ->
  0 <= cross2D a b s -> cross2D a b q <= 0 -> 0 <= cross2D a q s.
Hypothesis behind : forall l t s q,
  lt l t -> le s t -> le t q ->
  0 <= cross2D l t s -> 0 < cross2D l t q -> 0 <= cross2D t q s.
Hypothesis twice : forall a b c q,
  lt a b -> lt b c -> le c q ->
  0 < cross2D a b c -> 0 < cross2D b c q -> 0 < cross2D a b q.

(** The edges of a chain, each from the lower array index to the next. *)
Fixpoint edges (stack : list A) : list (A * A) :=
match stack with
| top :: ((below :: _) as rest) => (below, top) :: edges rest
| _ => []
end.

(** Every three consecutive vertices make a strict left turn. *)
Fixpoint leftTurns (stack : list A) : Prop :=
match stack with
| c :: ((b :: a :: _) as rest) => 0 < cross2D a b c /\ leftTurns rest
| _ => True
end.

Definition strict (stack : list A) : Prop :=
forall a b, In (a, b) (edges stack) -> lt a b.

(** Every point met so far is on the non-negative side of every edge. *)
Definition supports (processed stack : list A) : Prop :=
forall a b s, In (a, b) (edges stack) -> In s processed ->
  0 <= cross2D a b s.

(** The element of lowest array index in the chain [x :: l]. *)
Fixpoint lastOf (x : A) (l : list A) : A :=
match l with
| [] => x
| y :: l' => lastOf y l'
end.

(** The chain after the points in [processed], in general. *)
Definition proper (processed stack : list A) : Prop :=
match stack with
| [] => False
| top :: rest =>
    (forall v, In v stack -> In v processed) /\
    (forall s, In s processed -> le s top) /\
    (forall s, In s processed -> le (lastOf top rest) s) /\
    strict stack /\ leftTurns stack /\ supports processed stack
end.

(** The chain while all points met so far have the same coordinates and
    there are at least two of them. *)
Definition degenerate (processed stack : list A) : Prop :=
exists p1 p2,
  stack = [p2; p1] /\ In p1 processed /\ In p2 processed /\
  forall s, In s processed -> same s p1.

Definition chainInv (processed stack : list A) : Prop :=
proper processed stack \/ degenerate processed stack.

Lemma edges_cons (x : A) (l : list A) (e : A * A) :
  In e (edges l) -> In e (edges (x :: l)).
Proof.
destruct l as [|y l]; simpl; [intros []|]. intro Hin. now right.
Qed.

Lemma edges_suffix (popped l : list A) (e : A * A) :
  In e (edges l) -> In e (edges (popped ++ l)).
Proof.
induction popped as [|x popped IH]; intro Hin; [exact Hin|].
simpl app. apply edges_cons. now apply IH.
Qed.

Lemma leftTurns_tl (x : A) (l : list A) : leftTurns (x :: l) -> leftTurns l.
Proof.
destruct l as [|b [|a l]]; simpl; try tauto.
Qed.

Lemma leftTurns_suffix (popped l : list A) :
  leftTurns (popped ++ l) -> leftTurns l.
Proof.
induction popped as [|x popped IH]; intro Hl; [exact Hl|].
simpl app in Hl. apply IH. eapply leftTurns_tl; eauto.
Qed.

Lemma lastOf_suffix (popped : list A) : forall (x t : A) (rest : list A),
  lastOf x (popped ++ t :: rest) = lastOf t rest.
Proof.
induction popped as [|y popped IH]; intros x t rest.
- reflexivity.
- simpl. apply IH.
Qed.

Lemma lastOf_In (l : list A) : forall x, In (lastOf x l) (x :: l).
Proof.
induction l as [|y l IH]; intro x.
- now left.
- right. apply IH.
Qed.

(** What the [while] loop leaves behind. *)
Lemma popWhile_spec (stack : list A) (q : A) :
  stack <> [] ->
  exists popped t rest,
    stack = popped ++ t :: rest /\
    popWhile stack q = t :: rest /\
    (popped = [] \/
     exists d, In (t, d) (edges stack) /\ cross2D t d q <= 0) /\
    (forall b r, rest = b :: r -> 0 < cross2D b t q).
Proof.
induction stack as [|top rest IH]; intro Hne; [congruence|].
destruct rest as [|below rest'].
- exists [], top, []. repeat split; auto. intros b r E. discriminate.
- cbn [popWhile].
  destruct (Qle_bool (cross2D below top q) 0) eqn:E.
  + apply Qle_bool_iff in E.
    destruct IH as (popped & t & rest & Hs & Hp & Hd & Hr); [discriminate|].
    exists (top :: popped), t, rest.
    split; [simpl app; now rewrite <- Hs|].
    split; [exact Hp|]. split; [|exact Hr].
    right. destruct Hd as [->|(d & Hin & Hc)].
    * simpl app in Hs. inversion Hs; subst.
      exists top. split; [now left|exact E].
    * exists d. split; [|exact Hc]. now apply edges_cons.
  + apply Qle_bool_gt in E.
    exists [], top, (below :: rest'). repeat split; auto.
    intros b r Eb. inversion Eb; subst. exact E.
Qed.

(** A new point on the left of the last edge of a chain is on the left
    of all its edges. *)
Lemma chain_left (q : A) (rest : list A) : forall t,
  strict (t :: rest) -> leftTurns (t :: rest) -> le t q ->
  (forall b r, rest = b :: r -> 0 < cross2D b t q) ->
  forall e, In e (edges (t :: rest)) -> 0 < cross2D (fst e) (snd e) q.
Proof.
induction rest as [|b0 r IH]; intros t Hst Hlt Htq Hlast e Hin.
- destruct Hin.
- cbn [edges] in Hin. destruct Hin as [<-|Hin].
  + simpl. now apply (Hlast b0 r).
  + assert (Hb0t : lt b0 t) by (apply Hst; now left).
    apply (IH b0); auto.
    * intros a' b' Hin'. apply Hst. now apply edges_cons.
    * eapply leftTurns_tl; eauto.
    * eapply le_trans; [apply lt_le; exact Hb0t|exact Htq].
    * intros a0 r0 Er. subst r.
      apply (twice a0 b0 t q); auto.
      -- apply Hst. right. now left.
      -- now destruct Hlt.
      -- now apply (Hlast b0 (a0 :: r0)).
Qed.

Lemma sandwich (t s q : A) : le t s -> le s q -> same t q -> same s t.
Proof.
intros H1 H2 H3. apply le_antisym; [|exact H1].
eapply le_trans; [exact H2|]. apply same_le. now apply same_sym.
Qed.

(** The pairs of the list in the order of the loop. *)
Fixpoint ordered (l : list A) : Prop :=
match l with
| [] => True
| a :: r => (forall b, In b r -> le a b) /\ ordered r
end.

(** One iteration keeps the invariant, from a chain in general. *)
Lemma step_proper (processed stack : list A) (q : A) :
  proper processed stack ->
  (forall s, In s processed -> le s q) ->
  chainInv (q :: processed) (pushPoint stack q).
Proof.
intros Hp Hq.
destruct stack as [|top rest]; [contradiction|].
destruct Hp as (I0 & I1 & I2 & Hst & Hlt & Hsup).
destruct (popWhile_spec (top :: rest) q) as (popped & t & rest' & Hs & Hpop & Hd & Hr);
  [discriminate|].
unfold pushPoint. rewrite Hpop.
assert (Hsub : forall v, In v (t :: rest') -> In v (top :: rest)).
{ intros v Hv. rewrite Hs. apply in_or_app. now right. }
assert (Htq : le t q) by (apply Hq, I0, Hsub; now left).
assert (Hbot : lastOf top rest = lastOf t rest').
{ destruct popped as [|x popped'].
  - simpl app in Hs. now inversion Hs.
  - simpl app in Hs. inversion Hs; subst. apply lastOf_suffix. }
assert (Hst' : strict (t :: rest')).
{ intros a b Hin. apply Hst. rewrite Hs. now apply edges_suffix. }
assert (Hlt' : leftTurns (t :: rest')).
{ rewrite Hs in Hlt. now apply leftTurns_suffix in Hlt. }
assert (Hsup' : supports processed (t :: rest')).
{ intros a b s0 Hin Hs0. apply Hsup; [|exact Hs0].
  rewrite Hs. now apply edges_suffix. }
destruct (le_cases t q Htq) as [Hlt_tq|Hsame].
- left. unfold proper.
  split; [|split; [|split; [|split; [|split]]]].
  + intros v [<-|Hv]; [now left|]. right. now apply I0, Hsub.
  + intros s0 [<-|Hs0]; [apply le_refl|now apply Hq].
  + intros s0 Hs0. change (le (lastOf t rest') s0). rewrite <- Hbot.
    destruct Hs0 as [<-|Hs0]; [|now apply I2].
    apply Hq, I0. apply lastOf_In.
  + intros a b Hin. cbn [edges] in Hin. destruct Hin as [Hin|Hin].
    * inversion Hin; subst. exact Hlt_tq.
    * now apply Hst'.
  + destruct rest' as [|b r]; [exact I|].
    split; [now apply (Hr b r)|exact Hlt'].
  + intros a b s0 Hin Hs0. cbn [edges] in Hin.
    destruct Hin as [Hin|Hin].
    * inversion Hin; subst a b. clear Hin.
      destruct Hs0 as [<-|Hs0]; [rewrite cross2D_end; apply Qle_refl|].
      assert (Hcase : le t s0 \/ (le s0 t /\ exists b r, rest' = b :: r)).
      { destruct rest' as [|b r].
        - left. specialize (I2 s0 Hs0). now rewrite Hbot in I2.
        - destruct (le_total t s0) as [K|K]; [now left|].
          right. split; [exact K|]. now exists b, r. }
      destruct Hcase as [Hts|(Hst0 & b & r & Er)].
      -- destruct Hd as [Hnil|(d & Hin_d & Hc)].
         ++ subst popped. simpl app in Hs. inversion Hs; subst top rest.
            assert (Hss : same s0 t) by (apply le_antisym; auto).
            rewrite (cross2D_same_third t q s0 t Hss), cross2D_start.
            apply Qle_refl.
         ++ apply (between t d s0 q); auto.
      -- subst rest'. apply (behind b t s0 q); auto.
         ++ apply Hst'. now left.
         ++ apply Hsup'; [now left|exact Hs0].
         ++ now apply (Hr b r).
    * destruct Hs0 as [<-|Hs0]; [|now apply (Hsup' a b)].
      apply Qlt_le_weak.
      apply (chain_left q rest' t Hst' Hlt' Htq Hr (a, b) Hin).
- right.
  destruct rest' as [|b r].
  + exists t, q. split; [reflexivity|].
    split; [right; apply I0, Hsub; now left|].
    split; [now left|].
    intros s0 [<-|Hs0]; [now apply same_sym|].
    apply (sandwich t s0 q); auto.
    specialize (I2 s0 Hs0). now rewrite Hbot in I2.
  + exfalso. specialize (Hr b r eq_refl).
    rewrite (cross2D_same_third b t q t (same_sym _ _ Hsame)) in Hr.
    rewrite cross2D_end in Hr. apply (Qlt_irrefl _ Hr).
Qed.

(** One iteration keeps the invariant, from a chain of coinciding
    points. *)
Lemma step_degenerate (processed stack : list A) (q : A) :
  degenerate processed stack ->
  (forall s, In s processed -> le s q) ->
  chainInv (q :: processed) (pushPoint stack q).
Proof.
intros (p1 & p2 & -> & Hp1 & Hp2 & Hall) Hq.
assert (Hsame12 : same p1 p2) by (apply same_sym, Hall, Hp2).
assert (Hpop : popWhile [p2; p1] q = [p1]).
{ cbn [popWhile].
  assert (E : Qle_bool (cross2D p1 p2 q) 0 = true).
  { apply Qle_bool_iff. rewrite (cross2D_same_edge p1 p2 q Hsame12).
    apply Qle_refl. }
  now rewrite E. }
unfold pushPoint. rewrite Hpop.
destruct (le_cases p1 q (Hq p1 Hp1)) as [Hlt1|Hsame].
- left. unfold proper.
  split; [|split; [|split; [|split; [|split]]]].
  + intros v [<-|[<-|[]]]; [now left|now right].
  + intros s0 [<-|Hs0]; [apply le_refl|now apply Hq].
  + intros s0 [<-|Hs0]; simpl.
    * now apply lt_le.
    * apply same_le, same_sym. now apply Hall.
  + intros a b [Hin|[]]. inversion Hin; subst. exact Hlt1.
  + exact I.
  + intros a b s0 [Hin|[]] Hs0. inversion Hin; subst a b.
    destruct Hs0 as [<-|Hs0]; [rewrite cross2D_end; apply Qle_refl|].
    rewrite (cross2D_same_third p1 q s0 p1 (Hall s0 Hs0)), cross2D_start.
    apply Qle_refl.
- right. exists p1, q. split; [reflexivity|].
  split; [now right|]. split; [now left|].
  intros s0 [<-|Hs0]; [now apply same_sym|now apply Hall].
Qed.

Lemma chain_step (processed stack : list A) (q : A) :
  chainInv processed stack ->
  (forall s, In s processed -> le s q) ->
  chainInv (q :: processed) (pushPoint stack q).
Proof.
intros [Hp|Hd] Hq; [now apply step_proper|now apply step_degenerate].
Qed.

Lemma chain_fold (pts : list A) : forall processed stack,
  chainInv processed stack ->
  (forall s q, In s processed -> In q pts -> le s q) ->
  ordered pts ->
  chainInv (rev pts ++ processed) (fold_left pushPoint pts stack).
Proof.
induction pts as [|q pts IH]; intros processed stack Hinv Hle Hord.
- exact Hinv.
- destruct Hord as [Hq Hord]. cbn [fold_left rev].
  rewrite <- app_assoc. cbn [app].
  apply IH.
  + apply chain_step; [exact Hinv|].
    intros s0 Hs0. apply Hle; [exact Hs0|now left].
  + intros s0 q0 [<-|Hs0] Hq0; [now apply Hq|].
    apply Hle; [exact Hs0|now right].
  + exact Hord.
Qed.

Lemma chainInv_supports (processed stack : list A) :
  chainInv processed stack -> supports processed stack.
Proof.
intros [Hp|(p1 & p2 & -> & Hp1 & Hp2 & Hall)].
- destruct stack as [|top rest]; [contradiction|]. apply Hp.
- intros a b s0 [Hin|[]] Hs0. inversion Hin; subst a b.
  rewrite (cross2D_same_edge p1 p2 s0); [apply Qle_refl|].
  apply same_sym. now apply Hall.
Qed.

(** After a whole chain loop every point of the list is on the
    non-negative side of every edge of the chain. *)
Lemma buildChain_supports (pts : list A) (a b s : A) :
  ordered pts -> In (a, b) (edges (buildChain pts)) -> In s pts ->
  0 <= cross2D a b s.
Proof.
intros Hord Hin Hs.
destruct pts as [|p pts]; [destruct Hs|].
destruct Hord as [Hp Hord].
assert (Hinit : chainInv [p] [p]).
{ left. unfold proper.
  split; [|split; [|split; [|split; [|split]]]].
  - intros v Hv. exact Hv.
  - intros s0 [<-|[]]. apply le_refl.
  - intros s0 [<-|[]]. apply le_refl.
  - intros a0 b0 [].
  - exact I.
  - intros a0 b0 s0 []. }
pose proof (chain_fold pts [p] [p] Hinit) as Hfold.
apply (chainInv_supports (rev pts ++ [p]) (buildChain (p :: pts))).
- apply Hfold; [|exact Hord].
  intros s0 q0 [<-|[]] Hq0. now apply Hp.
- exact Hin.
- apply in_or_app. destruct Hs as [<-|Hs]; [right; now left|].
  left. now apply -> in_rev.
Qed.

End Chain.

(** ** The two chains of [computeConvexHull] *)

Section Assembly.
Context {A : Type} `{HasLatLon A}.

Lemma lower_supports (pts : list A) (a b s : A) :
  ordered lexle pts -> In (a, b) (edges (buildChain pts)) -> In s pts ->
  0 <= cross2D a b s.
Proof.
apply (buildChain_supports lexle lexlt).
- apply lexle_refl.
- apply lexle_trans.
- apply lexle_total.
- apply lexlt_lexle.
- apply lexle_cases.
- apply lexle_antisym.
- apply same_lexle.
- apply lex_between.
- apply lex_behind.
- apply lex_twice.
Qed.

Lemma upper_supports (pts : list A) (a b s : A) :
  ordered (fun x y => lexle y x) pts ->
  In (a, b) (edges (buildChain pts)) -> In s pts ->
  0 <= cross2D a b s.
Proof.
apply (buildChain_supports (fun x y => lexle y x) (fun x y => lexlt y x)).
- intro x. apply lexle_refl.
- intros x y z H1 H2. apply (lexle_trans z y x H2 H1).
- intros x y. destruct (lexle_total x y); auto.
- intros x y. apply lexlt_lexle.
- intros x y Hle. destruct (lexle_cases y x Hle) as [K|K]; [now left|].
  right. now apply same_sym.
- intros x y H1 H2. apply (lexle_antisym x y H2 H1).
- intros x y Hs. apply same_lexle. now apply same_sym.
- apply rev_between.
- apply rev_behind.
- apply rev_twice.
Qed.

(** *** The sorted copy *)

Lemma insert_In (x y : A) (l : list A) :
  In y (insert byLonLat x l) -> y = x \/ In y l.
Proof.
intro Hin.
apply (Permutation_in y (Permutation_sym (insert_perm byLonLat x l))) in Hin.
destruct Hin as [<-|Hin]; auto.
Qed.

Lemma insert_ordered (x : A) (l : list A) :
  ordered lexle l -> ordered lexle (insert byLonLat x l).
Proof.
induction l as [|y l IH]; intro Hord.
- simpl. split; [intros b []|exact I].
- destruct Hord as [Hy Hord]. cbn [insert].
  destruct (Qle_bool (byLonLat x y) 0) eqn:E.
  + apply byLonLat_lexle in E. split; [|split; assumption].
    intros b [<-|Hb]; [exact E|].
    apply (lexle_trans x y b E). now apply Hy.
  + assert (Hyx : lexle y x).
    { destruct (lexle_total x y) as [K|K]; [|exact K].
      apply byLonLat_lexle in K. congruence. }
    split; [|now apply IH].
    intros b Hb. apply insert_In in Hb.
    destruct Hb as [->|Hb]; [exact Hyx|now apply Hy].
Qed.

Lemma sort_ordered (l : list A) : ordered lexle (sort byLonLat l).
Proof.
induction l as [|x l IH]; [exact I|]. simpl. now apply insert_ordered.
Qed.

Lemma ordered_app (R : A -> A -> Prop) (l1 l2 : list A) :
  ordered R l1 -> ordered R l2 ->
  (forall a b, In a l1 -> In b l2 -> R a b) ->
  ordered R (l1 ++ l2).
Proof.
induction l1 as [|x l1 IH]; intros H1 H2 H12; [exact H2|].
destruct H1 as [Hx H1]. simpl. split.
- intros b Hb. apply in_app_or in Hb. destruct Hb as [Hb|Hb].
  + now apply Hx.
  + apply H12; [now left|exact Hb].
- apply IH; auto. intros a b Ha Hb. apply H12; [now right|exact Hb].
Qed.

Lemma ordered_rev (R : A -> A -> Prop) (l : list A) :
  ordered R l -> ordered (fun x y => R y x) (rev l).
Proof.
induction l as [|x l IH]; intro Hord; [exact I|].
destruct Hord as [Hx Hord]. simpl. apply ordered_app.
- now apply IH.
- split; [intros b []|exact I].
- intros a b Ha [<-|[]]. apply Hx. now apply in_rev.
Qed.

(** *** The shape of a chain *)

Lemma suffix_keeps_last (l popped : list A) (p t : A) (rest : list A) :
  l ++ [p] = popped ++ t :: rest -> exists l', t :: rest = l' ++ [p].
Proof.
intro E.
destruct (@exists_last A (t :: rest)) as (l' & z & Ez); [discriminate|].
exists l'. rewrite Ez in E. rewrite app_assoc in E.
apply app_inj_tail in E. destruct E as [_ ->]. exact Ez.
Qed.

Lemma popWhile_keeps_last (l : list A) (p x : A) :
  exists l', popWhile (l ++ [p]) x = l' ++ [p].
Proof.
destruct (popWhile_spec (l ++ [p]) x) as (popped & t & rest & Hs & Hp & _).
- destruct l; discriminate.
- rewrite Hp. eapply suffix_keeps_last; eauto.
Qed.

Lemma fold_keeps_last (pts : list A) : forall (l : list A) (p : A),
  exists l', fold_left pushPoint pts (l ++ [p]) = l' ++ [p].
Proof.
induction pts as [|x pts IH]; intros l p.
- now exists l.
- cbn [fold_left]. unfold pushPoint at 2.
  destruct (popWhile_keeps_last l p x) as (l1 & ->).
  apply (IH (x :: l1) p).
Qed.

(** The chain over a list from [p] to [q] runs from [p] to [q]. *)
Lemma buildChain_shape (p q : A) (mid : list A) :
  exists m, buildChain (p :: mid ++ [q]) = q :: m ++ [p].
Proof.
unfold buildChain. cbn [fold_left]. rewrite fold_left_app. cbn [fold_left].
change (pushPoint [] p) with ([] ++ [p]).
destruct (fold_keeps_last mid [] p) as (l1 & ->).
unfold pushPoint.
destruct (popWhile_keeps_last l1 p q) as (l2 & ->).
now exists l2.
Qed.

(** *** Consecutive pairs *)

Fixpoint pairs (l : list A) : list (A * A) :=
match l with
| a :: ((b :: _) as r) => (a, b) :: pairs r
| _ => []
end.

Lemma cyc_pairs (t : list A) : forall a z,
  combine (a :: t) (t ++ [z]) = pairs (a :: t ++ [z]).
Proof.
induction t as [|b t IH]; intros a z; [reflexivity|].
simpl app. cbn [combine pairs]. f_equal. apply IH.
Qed.

Lemma pairs_app (X : list A) : forall (y : A) (Y : list A),
  pairs (X ++ y :: Y) = pairs (X ++ [y]) ++ pairs (y :: Y).
Proof.
induction X as [|a X IH]; intros y Y; [reflexivity|].
destruct X as [|b X'].
- reflexivity.
- specialize (IH y Y).
  change (pairs ((a :: b :: X') ++ y :: Y))
    with ((a, b) :: pairs ((b :: X') ++ y :: Y)).
  change (pairs ((a :: b :: X') ++ [y]))
    with ((a, b) :: pairs ((b :: X') ++ [y])).
  rewrite IH. reflexivity.
Qed.

Lemma pairs_snoc (l : list A) (x y : A) :
  pairs (l ++ [x; y]) = pairs (l ++ [x]) ++ [(x, y)].
Proof. apply (pairs_app l x [y]). Qed.

Lemma pairs_rev_edges (stack : list A) (e : A * A) :
  In e (pairs (rev stack)) -> In e (edges stack).
Proof.
induction stack as [|top rest IH]; [intros []|].
destruct rest as [|below r]; [intros []|].
intro Hin. cbn [edges].
change (rev (top :: below :: r)) with ((rev r ++ [below]) ++ [top]) in Hin.
rewrite <- app_assoc in Hin. simpl app in Hin.
rewrite pairs_snoc in Hin. apply in_app_or in Hin.
destruct Hin as [Hin|[<-|[]]].
- right. apply IH. exact Hin.
- now left.
Qed.

(** *** The polygon *)

(** The hull of at least three points, and the edges it is made of. *)
Lemma hull_edges (points : list A) :
  (3 <= length points)%nat ->
  exists (p q : A) (mL mU : list A),
    computeConvexHull points = (p :: rev mL) ++ (q :: rev mU) /\
    buildChain (sort byLonLat points) = q :: mL ++ [p] /\
    buildChain (rev (sort byLonLat points)) = p :: mU ++ [q] /\
    (forall s, In s points -> lexle p s /\ lexle s q) /\
    forall e, In e (cyc (computeConvexHull points)) ->
      In e (edges (buildChain (sort byLonLat points))) \/
      In e (edges (buildChain (rev (sort byLonLat points)))).
Proof.
intro Hn. unfold computeConvexHull.
rewrite (proj2 (Nat.ltb_ge _ _) Hn). cbv zeta.
pose proof (sort_ordered points) as Hord.
pose proof (sort_length byLonLat points) as Hlen.
pose proof (fun s => sort_In byLonLat points s) as HIn.
set (sorted := sort byLonLat points) in *.
destruct sorted as [|p r] eqn:Es; [simpl in Hlen; lia|].
destruct (@exists_last A r) as (mid & q & Er).
{ intro E. subst r. simpl in Hlen. lia. }
subst r.
assert (Erev : rev (p :: mid ++ [q]) = q :: rev mid ++ [p]).
{ simpl. rewrite rev_app_distr. reflexivity. }
destruct (buildChain_shape p q mid) as (mL & EL).
destruct (buildChain_shape q p (rev mid)) as (mU & EU).
rewrite Erev. rewrite EL, EU.
exists p, q, mL, mU.
assert (Ehull : rev (tl (q :: mL ++ [p])) ++ rev (tl (p :: mU ++ [q]))
                = (p :: rev mL) ++ (q :: rev mU)).
{ simpl tl. rewrite !rev_app_distr. reflexivity. }
rewrite Ehull.
split; [reflexivity|]. split; [reflexivity|]. split; [reflexivity|].
split.
- intros s Hs. apply HIn in Hs. split.
  + destruct Hs as [<-|Hs]; [apply lexle_refl|]. now apply Hord.
  + pose proof (ordered_rev lexle _ Hord) as Hrev. rewrite Erev in Hrev.
    destruct Hrev as [Hq _].
    assert (Hs' : In s (q :: rev mid ++ [p])).
    { rewrite <- Erev. now apply -> in_rev. }
    destruct Hs' as [<-|Hs']; [apply lexle_refl|now apply Hq].
- intros e He.
  unfold cyc in He. simpl app in He. cbn [rot] in He.
  rewrite cyc_pairs in He.
  rewrite <- app_assoc in He. simpl app in He.
  change (p :: rev mL ++ q :: rev mU ++ [p])
    with ((p :: rev mL) ++ q :: (rev mU ++ [p])) in He.
  rewrite pairs_app in He. apply in_app_or in He.
  destruct He as [He|He]; [left|right]; apply pairs_rev_edges.
  + simpl rev. rewrite rev_app_distr. exact He.
  + simpl rev. rewrite rev_app_distr. exact He.
Qed.

End Assembly.

Section Containment.
Context {A : Type} `{HasLatLon A}.

(** Every input point is on the non-negative side of every edge of the
    hull. *)
Lemma hull_supports (points : list A) (u w s : A) :
  (3 <= length points)%nat ->
  In (u, w) (cyc (computeConvexHull points)) -> In s points ->
  0 <= cross2D u w s.
Proof.
intros Hn He Hs.
destruct (hull_edges points Hn) as (p & q & mL & mU & _ & _ & _ & _ & Hedges).
apply (sort_In byLonLat) in Hs.
destruct (Hedges (u, w) He) as [K|K].
- apply (lower_supports (sort byLonLat points)); auto.
  apply sort_ordered.
- apply (upper_supports (rev (sort byLonLat points))); auto.
  + apply (ordered_rev lexle). apply sort_ordered.
  + now apply -> in_rev.
Qed.

Lemma same_trans (a b c : A) : same a b -> same b c -> same a c.
Proof.
intros [H1 H2] [H3 H4]. split; [now rewrite H1|now rewrite H2].
Qed.

(** Three points on the line through two distinct points are
    collinear. *)
Lemma collinear_on_line (p q a b c : A) :
  ~ same p q ->
  cross2D p q a == 0 -> cross2D p q b == 0 -> cross2D p q c == 0 ->
  cross2D a b c == 0.
Proof.
intros Hpq Ha Hb Hc.
assert (Ex : (lon q - lon p) * cross2D a b c ==
             (lon b - lon a) * (cross2D p q c - cross2D p q a)
             - (lon c - lon a) * (cross2D p q b - cross2D p q a)).
{ unfold cross2D. ring. }
assert (Ey : (lat q - lat p) * cross2D a b c ==
             (lat b - lat a) * (cross2D p q c - cross2D p q a)
             - (lat c - lat a) * (cross2D p q b - cross2D p q a)).
{ unfold cross2D. ring. }
rewrite Ha, Hb, Hc in Ex, Ey.
assert (Ex0 : (lon q - lon p) * cross2D a b c == 0) by (rewrite Ex; ring).
assert (Ey0 : (lat q - lat p) * cross2D a b c == 0) by (rewrite Ey; ring).
apply Qmult_integral in Ex0. apply Qmult_integral in Ey0.
destruct Ex0 as [Dx|K]; [|exact K].
destruct Ey0 as [Dy|K]; [|exact K].
exfalso. apply Hpq. split; lra.
Qed.

(** Points that are not all on one line give a hull of at least three
    vertices. *)
Lemma hull_polygon (points : list A) :
  (3 <= length points)%nat ->
  (exists a b c, In a points /\ In b points /\ In c points /\
                 ~ cross2D a b c == 0) ->
  (3 <= length (computeConvexHull points))%nat.
Proof.
intros Hn (a & b & c & Ha & Hb & Hc & Habc).
destruct (hull_edges points Hn)
  as (p & q & mL & mU & Eh & EL & EU & Hpq & _).
rewrite Eh. rewrite length_app. cbn [length]. rewrite !length_rev.
destruct mL as [|x mL]; [|simpl; lia].
destruct mU as [|y mU]; [|simpl; lia].
exfalso. apply Habc.
assert (Hline : forall s, In s points -> cross2D p q s == 0).
{ intros s Hs.
  assert (H1 : 0 <= cross2D p q s).
  { apply (lower_supports (sort byLonLat points)).
    - apply sort_ordered.
    - rewrite EL. simpl. now left.
    - now apply sort_In. }
  assert (H2 : 0 <= cross2D q p s).
  { apply (upper_supports (rev (sort byLonLat points))).
    - apply (ordered_rev lexle). apply sort_ordered.
    - rewrite EU. simpl. now left.
    - apply -> in_rev. now apply sort_In. }
  rewrite cross2D_flip in H2. lra. }
destruct (Qeq_dec (lon p) (lon q)) as [Ex|Nx].
- destruct (Qeq_dec (lat p) (lat q)) as [Ey|Ny].
  + assert (Hall : forall s, In s points -> same s p).
    { intros s Hs. destruct (Hpq s Hs) as [K1 K2].
      apply lexle_antisym; [|exact K1].
      apply (lexle_trans s q p K2). apply same_lexle. split; now symmetry. }
    apply cross2D_same_edge.
    apply (same_trans a p b); [now apply Hall|].
    apply same_sym. now apply Hall.
  + apply (collinear_on_line p q); auto. intros [_ K]. contradiction.
- apply (collinear_on_line p q); auto. intros [K _]. contradiction.
Qed.

End Containment.

(** In exact arithmetic the hull of at least 3 points that are not all
    on one line holds every one of them, points on the boundary
    included. *)
Lemma exact_hull_contains_input {A : Type} `{HasLatLon A}
  (points : list A) :
  (3 <= length points)%nat ->
  (exists a b c, In a points /\ In b points /\ In c points /\
                 ~ cross2D a b c == 0) ->
  forall p, In p points ->
    pointInConvexHull (lat p) (lon p) (computeConvexHull points) = true.
Proof.
intros Hn Hnc p Hp.
apply pointInConvexHull_edges. split.
- now apply hull_polygon.
- intros u w He. rewrite edgeCross_cross2D.
  now apply (hull_supports points u w p).
Qed.

(** The hull of points that are not all on one line is convex and
    counter-clockwise in the sense of [pointInConvexHull]. *)
Lemma computeConvexHull_convexCCW {A : Type} `{HasLatLon A} (points : list A) :
  (3 <= length points)%nat ->
  (exists a b c, In a points /\ In b points /\ In c points /\
                 ~ cross2D a b c == 0) ->
  AreaFacts.convexCCW (computeConvexHull points).
Proof.
intros Hn Hnc v Hv. apply hull_vertex_In in Hv.
apply pointInConvexHull_edges. split.
- now apply hull_polygon.
- intros u w He. rewrite edgeCross_cross2D.
  now apply (hull_supports points u w v).
Qed.

End HullContainment.

(* ================================================================== *)
(** * Double-precision rounding is accurate *)
(* ================================================================== *)

Module Binary64Facts.
Import Binary64.

Lemma pow2_pos (e : Z) : 0 < pow2 e.
Proof. unfold pow2. apply Qpower_0_lt. reflexivity. Qed.

Lemma pow2_plus (a b : Z) : pow2 (a + b) == pow2 a * pow2 b.
Proof. unfold pow2. apply Qpower_plus. discriminate. Qed.

Lemma pow2_inject (k : Z) : (0 <= k)%Z -> pow2 k == inject_Z (2 ^ k).
Proof. intro Hk. unfold pow2. now rewrite Zpower_Qpower. Qed.

Lemma exponent_le (x : Q) : 0 < x -> pow2 (exponent x) <= x.
Proof.
intro Hx. unfold exponent.
set (ln := Z.log2 (Qnum x)). set (ld := Z.log2 (Z.pos (Qden x))).
destruct (Qle_bool (pow2 (ln - ld)) x) eqn:E.
- now apply Qle_bool_iff.
- clear E.
  assert (Hn : (0 < Qnum x)%Z).
  { unfold Qlt in Hx. simpl in Hx. lia. }
  destruct (Z.log2_spec (Qnum x) Hn) as [Hn1 _].
  destruct (Z.log2_spec (Z.pos (Qden x)) eq_refl) as [_ Hd2].
  fold ln in Hn1. fold ld in Hd2.
  assert (Hln : (0 <= ln)%Z) by apply Z.log2_nonneg.
  assert (Hld : (0 <= ld)%Z) by apply Z.log2_nonneg.
  assert (Hx' : x == inject_Z (Qnum x) / inject_Z (Z.pos (Qden x))).
  { rewrite <- Qmake_Qdiv. now destruct x. }
  assert (Hd0 : 0 < inject_Z (Z.pos (Qden x))).
  { unfold Qlt. simpl. lia. }
  apply Qle_trans with (inject_Z (Qnum x) / inject_Z (Z.pos (Qden x)));
    [|rewrite <- Hx'; apply Qle_refl].
  apply Qle_shift_div_l; [exact Hd0|].
  apply Qle_trans with (pow2 (ln - ld - 1) * pow2 (ld + 1)).
  + apply Qmult_le_l; [apply pow2_pos|].
    rewrite pow2_inject by lia. rewrite <- Zle_Qle.
    unfold Z.succ in Hd2. lia.
  + rewrite <- pow2_plus.
    replace (ln - ld - 1 + (ld + 1))%Z with ln by lia.
    rewrite pow2_inject by lia. now rewrite <- Zle_Qle.
Qed.

Lemma nearestEven_near (q : Q) : Qabs (inject_Z (nearestEven q) - q) <= 1 # 2.
Proof.
unfold nearestEven.
pose proof (Qfloor_le q) as Hlo. pose proof (Qlt_floor q) as Hhi.
rewrite inject_Z_plus in Hhi.
change (inject_Z 1) with 1 in Hhi.
set (f := Qfloor q) in *.
assert (Hc : forall z : Z, (z = f \/ z = (f + 1)%Z) ->
             (z = f -> q - inject_Z f <= 1 # 2) ->
             (z = (f + 1)%Z -> (1 # 2) <= q - inject_Z f) ->
             Qabs (inject_Z z - q) <= 1 # 2).
{ intros z Hz H1 H2. apply Qabs_case; intros _.
  - destruct Hz as [->| ->].
    + lra.
    + specialize (H2 eq_refl). rewrite inject_Z_plus.
      change (inject_Z 1) with 1. lra.
  - destruct Hz as [->| ->].
    + specialize (H1 eq_refl). lra.
    + rewrite inject_Z_plus. change (inject_Z 1) with 1. lra. }
destruct (Qcompare_spec (q - inject_Z f) (1 # 2)) as [E|E|E].
- destruct (Z.even f); apply Hc; auto; intros; lra.
- apply Hc; auto; intros; try lra. lia.
- apply Hc; auto; intros; try lra. lia.
Qed.

Lemma round64_zero (x : Q) : Qnum x = 0%Z -> x == 0.
Proof. intro E. unfold Qeq. rewrite E. reflexivity. Qed.

Lemma round64_near (x : Q) :
  ~ x == 0 ->
  let a := Qabs x in
  let ulp := pow2 (exponent a - 52) in
  let m := inject_Z (nearestEven (a / ulp)) in
  Qabs ((if Qle_bool 0 x then m * ulp else - (m * ulp)) - x)
  <= epsilon * Qabs x.
Proof.
intros Hx a ulp m.
assert (Ha : 0 < a).
{ unfold a. apply Qabs_case; intro; [|assert (x < 0)];
    try (apply Qle_lteq in q; destruct q as [q|q]; [lra|]);
    try (exfalso; apply Hx; lra); lra. }
assert (Hu : 0 < ulp) by apply pow2_pos.
assert (He : pow2 (exponent a) <= a) by now apply exponent_le.
assert (Hp : pow2 (exponent a) == ulp * pow2 52).
{ unfold ulp. rewrite <- pow2_plus. apply Qpower_comp; [reflexivity|lia]. }
assert (Hm : Qabs (m - a / ulp) <= 1 # 2) by apply nearestEven_near.
assert (Hd : Qabs (m * ulp - a) <= ulp * (1 # 2)).
{ assert (E : m * ulp - a == (m - a / ulp) * ulp) by (field; lra).
  rewrite E, Qabs_Qmult, (Qabs_pos ulp) by lra.
  rewrite (Qmult_comm ulp). apply Qmult_le_compat_r; lra. }
assert (Hb : ulp * (1 # 2) <= epsilon * a).
{ assert (E : pow2 52 == 4503599627370496) by reflexivity.
  rewrite E in Hp. unfold epsilon.
  assert (ulp * 4503599627370496 <= a) by lra. lra. }
fold a. apply Qle_trans with (ulp * (1 # 2)); [|exact Hb].
destruct (Qle_bool 0 x) eqn:Es.
- apply Qle_bool_iff in Es.
  assert (E : a == x) by (unfold a; now apply Qabs_pos).
  assert (E2 : m * ulp - x == m * ulp - a) by (rewrite E; ring).
  rewrite E2. exact Hd.
- apply Qle_bool_gt in Es.
  assert (E : a == - x) by (unfold a; apply Qabs_neg; lra).
  assert (E' : - (m * ulp) - x == - (m * ulp - a)) by (rewrite E; ring).
  rewrite E', Qabs_opp. exact Hd.
Qed.

(** [round64] has relative error at most [2^-53]. *)
Lemma round64_accurate : accurate epsilon round64.
Proof.
intro x. unfold round64.
destruct (Qnum x) eqn:En.
- rewrite (round64_zero x En). vm_compute. discriminate.
- rewrite Qred_correct. apply round64_near.
  unfold Qeq. simpl. lia.
- rewrite Qred_correct. apply round64_near.
  unfold Qeq. simpl. lia.
Qed.

End Binary64Facts.

(* ================================================================== *)
(** * [computeIDW] in rounded arithmetic *)
(* ================================================================== *)

Module RoundedIDW.
Import Rounded.

Section AnyRounding.
Variable rnd : Q -> Q.
Variable conv : CoordConversion.

Lemma idwLoop_rounded_step (lt ln : Q) (p : SamplePoint)
  (rest : list SamplePoint) (num den : Q) :
  idwLoop rnd conv lt ln (p :: rest) num den =
  if Qltb (distSqTo rnd conv lt ln p) 1 then value p
  else
    let weight := div rnd 1 (distSqTo rnd conv lt ln p) in
    idwLoop rnd conv lt ln rest
      (add rnd num (mul rnd (value p) weight)) (add rnd den weight).
Proof. reflexivity. Qed.

Lemma idwLoop_first_near (lt ln : Q) (pre : list SamplePoint) (p : SamplePoint)
  (post : list SamplePoint) (num den : Q) :
  (forall s, In s pre -> 1 <= distSqTo rnd conv lt ln s) ->
  distSqTo rnd conv lt ln p < 1 ->
  idwLoop rnd conv lt ln (pre ++ p :: post) num den = value p.
Proof.
revert num den. induction pre as [|s pre IH]; intros num den Hpre Hp.
- simpl app. rewrite idwLoop_rounded_step.
  now rewrite (proj2 (Qltb_lt _ _) Hp).
- simpl app. rewrite idwLoop_rounded_step.
  rewrite (proj2 (Qltb_ge _ _) (Hpre s (or_introl eq_refl))).
  apply IH; [|exact Hp].
  intros s' Hs'. apply Hpre. now right.
Qed.

End AnyRounding.

(** C3, as first stated, fails.  With two samples at the same place and
    different values the query next to both gets the value of the first
    in the array, not that of the second.  And a query less than 1 m from
    the first sample, whose squared distance the loop rounds to 1, gets
    the value of the second, which is also within 1 m. *)
Lemma computeIDW_nearby_sample_not_returned :
  (let conv := mkConv 111000 88000 (3048 # 10000) in
   let p1 := mkSample 0 0 5 in
   let p2 := mkSample 0 0 7 in
   In p2 [p1; p2] /\
   Contour.distSqTo conv 0 0 p2 < 1 /\
   ~ computeIDW Binary64.round64 conv 0 0 [p1; p2] == value p2) /\
  (let conv := mkConv 1 1 1 in
   let lt := Binary64.round64 (9999996918875158 # 10000000000000000) in
   let ln := Binary64.round64 (7849999193772317 # 10000000000000000000) in
   let p1 := mkSample 0 0 5 in
   let p2 := mkSample 1 0 100 in
   In p1 [p1; p2] /\
   Contour.distSqTo conv lt ln p1 < 1 /\
   ~ computeIDW Binary64.round64 conv lt ln [p1; p2] == value p1).
Proof.
split; cbv zeta.
- split; [right; left; reflexivity|]. split.
  + reflexivity.
  + vm_compute. discriminate.
- split; [left; reflexivity|]. split.
  + vm_compute. reflexivity.
  + vm_compute. discriminate.
Qed.

(** C3, amended.  A query whose squared planar distance to a sample, as
    the loop computes it, is below 1 (closer than 1 m), the computed
    squared distance to every sample before it in the array being 1 or
    more, gets exactly that sample's value. *)
Theorem computeIDW_first_computed_nearby (rnd : Q -> Q)
  (conv : CoordConversion) (lt ln : Q)
  (pre : list SamplePoint) (p : SamplePoint) (post : list SamplePoint) :
  (forall s, In s pre -> 1 <= distSqTo rnd conv lt ln s) ->
  distSqTo rnd conv lt ln p < 1 ->
  computeIDW rnd conv lt ln (pre ++ p :: post) = value p.
Proof.
intros Hpre Hp. unfold computeIDW. now apply idwLoop_first_near.
Qed.

Lemma computeIDW_first_computed_nearby_witness :
  let conv := mkConv 111000 88000 (3048 # 10000) in
  let double := Binary64.round64 in
  computeIDW double conv (double (407 # 10)) (double (- 74))
    ([mkSample (double (4071 # 100)) (double (- 74)) 3]
     ++ mkSample (double (40700001 # 1000000)) (double (- 74)) 5
     :: [mkSample (double (407 # 10)) (double (- 74)) 7])
  = 5.
Proof.
cbv zeta.
apply (computeIDW_first_computed_nearby Binary64.round64
         (mkConv 111000 88000 (3048 # 10000))
         (Binary64.round64 (407 # 10)) (Binary64.round64 (- 74))
         [mkSample (Binary64.round64 (4071 # 100)) (Binary64.round64 (- 74)) 3]
         (mkSample (Binary64.round64 (40700001 # 1000000))
                   (Binary64.round64 (- 74)) 5)
         [mkSample (Binary64.round64 (407 # 10)) (Binary64.round64 (- 74)) 7]).
- intros s [<-|[]]. vm_compute. discriminate.
- vm_compute. reflexivity.
Defined.

(** ** The error a loop of [n] far samples can accumulate *)

(** The relative error of the running quotient after one more sample. *)
Definition stepErr (u e : Q) : Q := ((1 + u) * e + 3 * u + u * u) / (1 - u).

Fixpoint errAfter (u : Q) (n : nat) (e : Q) : Q :=
match n with
| O => e
| S k => errAfter u k (stepErr u e)
end.

(** The error after the final division. *)
Definition closing (u e : Q) : Q := e + u * (1 + e).

Definition tolerance (u : Q) (n : nat) : Q := closing u (errAfter u n 0).

Section Accurate.
Variables (u : Q) (rnd : Q -> Q).
Hypothesis Hu0 : 0 <= u.
Hypothesis Hu1 : u < 1.
Hypothesis Hacc : accurate u rnd.

Lemma rnd_near (x B : Q) :
  Qabs x <= B -> x - u * B <= rnd x /\ rnd x <= x + u * B.
Proof.
intro HB. pose proof (Hacc x) as H.
assert (H' : Qabs (rnd x - x) <= u * B).
{ eapply Qle_trans; [exact H|].
  rewrite !(Qmult_comm u). now apply Qmult_le_compat_r. }
apply Qabs_Qle_condition in H'. lra.
Qed.

Lemma rnd_scale (x : Q) :
  0 <= x -> (1 - u) * x <= rnd x /\ rnd x <= (1 + u) * x.
Proof.
intro Hx. destruct (rnd_near x x) as [H1 H2].
- rewrite Qabs_pos by exact Hx. apply Qle_refl.
- lra.
Qed.

Lemma rnd_pos (x : Q) : 0 < x -> 0 < rnd x.
Proof.
intro Hx. destruct (rnd_scale x) as [H1 _]; [lra|].
assert (0 < (1 - u) * x) by (apply Qmult_lt_0_compat; lra). lra.
Qed.

Lemma stepErr_nonneg (e : Q) : 0 <= e -> 0 <= stepErr u e.
Proof.
intro He. unfold stepErr. apply Qle_shift_div_l; [lra|].
rewrite Qmult_0_l. nra.
Qed.

Lemma stepErr_eq (e : Q) :
  stepErr u e * (1 - u) == (1 + u) * e + 3 * u + u * u.
Proof. unfold stepErr. field. lra. Qed.

Lemma errAfter_nonneg (n : nat) : forall e, 0 <= e -> 0 <= errAfter u n e.
Proof.
induction n as [|n IH]; intros e He; simpl; [exact He|].
apply IH. now apply stepErr_nonneg.
Qed.

Lemma closing_nonneg (e : Q) : 0 <= e -> 0 <= closing u e.
Proof. intro He. unfold closing. nra. Qed.

Lemma stepErr_le (e : Q) :
  0 <= e -> 2 * e + 5 * u <= 1 -> stepErr u e <= e + 4 * u.
Proof.
intros He Hs. unfold stepErr. apply Qle_shift_div_r; [lra|]. nra.
Qed.

(** As long as [8 n u <= 1] the error grows by no more than [4 u] a
    sample. *)
Lemma errAfter_le (n : nat) : forall e,
  0 <= e -> 2 * e + 8 * inject_Z (Z.of_nat n) * u <= 1 ->
  errAfter u n e <= e + 4 * inject_Z (Z.of_nat n) * u.
Proof.
induction n as [|n IH]; intros e He Hs.
- simpl. change (inject_Z 0) with 0. lra.
- assert (En : inject_Z (Z.of_nat (S n)) == inject_Z (Z.of_nat n) + 1).
  { rewrite Nat2Z.inj_succ. unfold Z.succ. now rewrite inject_Z_plus. }
  rewrite En in Hs |- *.
  assert (Hn : 0 <= inject_Z (Z.of_nat n)).
  { change 0 with (inject_Z 0). rewrite <- Zle_Qle. lia. }
  assert (Hnu : 0 <= inject_Z (Z.of_nat n) * u)
    by (apply Qmult_le_0_compat; lra).
  cbn [errAfter].
  pose proof (stepErr_nonneg e He) as He'.
  assert (Hle : stepErr u e <= e + 4 * u) by (apply stepErr_le; lra).
  eapply Qle_trans; [apply IH; [exact He'|lra]|]. lra.
Qed.

Lemma tolerance_le (n : nat) :
  8 * inject_Z (Z.of_nat n) * u <= 1 ->
  tolerance u n <= (4 * inject_Z (Z.of_nat n) + 2) * u.
Proof.
intro Hs. unfold tolerance, closing.
pose proof (errAfter_le n 0 (Qle_refl 0)) as He.
pose proof (errAfter_nonneg n 0 (Qle_refl 0)) as He0.
assert (Hn : 0 <= inject_Z (Z.of_nat n)).
{ change 0 with (inject_Z 0). rewrite <- Zle_Qle. lia. }
assert (Hnu : 0 <= inject_Z (Z.of_nat n) * u)
  by (apply Qmult_le_0_compat; lra).
assert (He1 : errAfter u n 0 <= 4 * inject_Z (Z.of_nat n) * u) by lra.
set (e := errAfter u n 0) in *.
assert (u * e <= u * (1 # 2)).
{ rewrite !(Qmult_comm u). apply Qmult_le_compat_r; lra. }
lra.
Qed.

(** One pass of the loop body keeps the running quotient within the
    widened interval. *)
Lemma step_bounds (m M V v e N D w t N' D' : Q) :
  - V <= m -> m <= v -> v <= M -> M <= V ->
  0 <= e -> 0 <= D -> 0 < w ->
  (m - e * V) * D <= N -> N <= (M + e * V) * D ->
  v * w - u * (V * w) <= t -> t <= v * w + u * (V * w) ->
  (N + t) - u * ((1 + e + u) * V * (D + w)) <= N' ->
  N' <= (N + t) + u * ((1 + e + u) * V * (D + w)) ->
  (1 - u) * (D + w) <= D' -> D' <= (1 + u) * (D + w) ->
  (m - stepErr u e * V) * D' <= N' /\ N' <= (M + stepErr u e * V) * D'.
Proof.
intros HVm Hmv HvM HMV He HD Hw HNlo HNhi Htlo Hthi HN'lo HN'hi HD'lo HD'hi.
pose proof (stepErr_eq e) as Ee. pose proof (stepErr_nonneg e He) as He3.
set (e3 := stepErr u e) in *.
assert (HV : 0 <= V) by lra.
set (S := D + w) in *.
assert (HS : 0 < S) by (unfold S; lra).
assert (HVD : 0 <= V * D) by (apply Qmult_le_0_compat; lra).
assert (HVw : 0 <= V * w) by (apply Qmult_le_0_compat; lra).
assert (HVS : 0 <= V * S) by (apply Qmult_le_0_compat; lra).
assert (HuVD : 0 <= u * (V * D)) by (apply Qmult_le_0_compat; lra).
assert (HeVw : 0 <= e * (V * w)) by (apply Qmult_le_0_compat; lra).
assert (HuVS : 0 <= u * (V * S)) by (apply Qmult_le_0_compat; lra).
assert (HeVS : 0 <= e * (V * S)) by (apply Qmult_le_0_compat; lra).
assert (HMw : v * w <= M * w) by (apply Qmult_le_compat_r; lra).
assert (Hmw : m * w <= v * w) by (apply Qmult_le_compat_r; lra).
assert (HMS : M * S <= V * S) by (apply Qmult_le_compat_r; lra).
assert (HmS : - (V * S) <= m * S).
{ assert ((- V) * S <= m * S) by (apply Qmult_le_compat_r; lra). lra. }
(* the exact sum *)
assert (Hs_hi : N + t <= M * S + (e + u) * (V * S)).
{ unfold S in *. nra. }
assert (Hs_lo : m * S - (e + u) * (V * S) <= N + t).
{ unfold S in *. nra. }
(* the rounded numerator *)
assert (HN'1 : N' <= M * S + (e + 2 * u + u * e + u * u) * (V * S)).
{ eapply Qle_trans; [exact HN'hi|].
  setoid_replace (u * ((1 + e + u) * V * S))
    with ((u + u * e + u * u) * (V * S)) by ring.
  lra. }
assert (HN'2 : m * S - (e + 2 * u + u * e + u * u) * (V * S) <= N').
{ eapply Qle_trans; [|exact HN'lo].
  setoid_replace (u * ((1 + e + u) * V * S))
    with ((u + u * e + u * u) * (V * S)) by ring.
  lra. }
(* the rounded denominator *)
assert (HMD' : M * S - u * (V * S) <= M * D').
{ destruct (Qlt_le_dec M 0) as [Hn|Hp].
  - assert (M * D' >= M * ((1 + u) * S)) by nra.
    assert (M * (u * S) >= (- V) * (u * S)) by nra. nra.
  - assert (M * ((1 - u) * S) <= M * D') by nra.
    assert (M * (u * S) <= V * (u * S)) by nra. nra. }
assert (HmD' : m * D' <= m * S + u * (V * S)).
{ destruct (Qlt_le_dec m 0) as [Hn|Hp].
  - assert (m * D' <= m * ((1 - u) * S)) by nra.
    assert ((- V) * (u * S) <= m * (u * S)) by nra. nra.
  - assert (m * D' <= m * ((1 + u) * S)) by nra.
    assert (m * (u * S) <= V * (u * S)) by nra. nra. }
assert (He3D' : (e + 3 * u + u * e + u * u) * (V * S) <= e3 * (V * D')).
{ assert (E : (e + 3 * u + u * e + u * u) * (V * S)
              == e3 * (V * ((1 - u) * S))).
  { setoid_replace (e3 * (V * ((1 - u) * S)))
      with (e3 * (1 - u) * (V * S)) by ring.
    rewrite Ee. ring. }
  rewrite E. rewrite !(Qmult_comm e3).
  apply Qmult_le_compat_r; [|exact He3].
  rewrite !(Qmult_comm V). apply Qmult_le_compat_r; lra. }
split.
- setoid_replace ((m - e3 * V) * D') with (m * D' - e3 * (V * D')) by ring.
  setoid_replace ((e + 3 * u + u * e + u * u) * (V * S))
    with ((e + 2 * u + u * e + u * u) * (V * S) + u * (V * S))
    in He3D' by ring.
  lra.
- setoid_replace ((M + e3 * V) * D') with (M * D' + e3 * (V * D')) by ring.
  setoid_replace ((e + 3 * u + u * e + u * u) * (V * S))
    with ((e + 2 * u + u * e + u * u) * (V * S) + u * (V * S))
    in He3D' by ring.
  lra.
Qed.

Section Loop.
Variable conv : CoordConversion.

Lemma idwLoop_tolerance (lt ln m M V : Q) (points : list SamplePoint) :
  - V <= m -> m <= M -> M <= V ->
  forall num den e,
  (forall p, In p points -> m <= value p /\ value p <= M) ->
  0 <= e -> 0 <= den ->
  (m - e * V) * den <= num /\ num <= (M + e * V) * den ->
  points <> [] \/ 0 < den ->
  let t := closing u (errAfter u (length points) e) in
  m - t * V <= idwLoop rnd conv lt ln points num den /\
  idwLoop rnd conv lt ln points num den <= M + t * V.
Proof.
intros HVm HmM HMV. assert (HV : 0 <= V) by lra.
induction points as [|p rest IH]; intros num den e Hall He Hden [Hlo Hhi] Hne.
- destruct Hne as [Hne|Hpos]; [congruence|].
  cbn [length errAfter idwLoop]. rewrite (proj2 (Qltb_lt _ _) Hpos).
  unfold div, closing.
  assert (Hq1 : m - e * V <= num / den) by now apply Qle_shift_div_l.
  assert (Hq2 : num / den <= M + e * V) by now apply Qle_shift_div_r.
  assert (HeV : 0 <= e * V) by (apply Qmult_le_0_compat; lra).
  destruct (rnd_near (num / den) ((1 + e) * V)) as [H1 H2].
  { apply Qabs_Qle_condition. lra. }
  setoid_replace ((e + u * (1 + e)) * V)
    with (e * V + u * ((1 + e) * V)) by ring.
  lra.
- rewrite idwLoop_rounded_step.
  destruct (Hall p (or_introl eq_refl)) as [Hpm HpM].
  destruct (Qltb (distSqTo rnd conv lt ln p) 1) eqn:E.
  + cbv zeta.
    pose proof (closing_nonneg _ (errAfter_nonneg (length (p :: rest)) e He))
      as Ht.
    assert (0 <= closing u (errAfter u (length (p :: rest)) e) * V)
      by (apply Qmult_le_0_compat; lra).
    lra.
  + apply Qltb_ge in E.
    pose proof (rnd_pos _ (IDWFacts.weight_pos E)) as Hw.
    fold (div rnd 1 (distSqTo rnd conv lt ln p)) in Hw.
    set (w := div rnd 1 (distSqTo rnd conv lt ln p)) in *.
    cbn [length errAfter].
    assert (HVw : 0 <= V * w) by (apply Qmult_le_0_compat; lra).
    destruct (rnd_near (value p * w) (V * w)) as [Ht1 Ht2].
    { apply Qabs_Qle_condition.
      assert (value p * w <= V * w) by (apply Qmult_le_compat_r; lra).
      assert ((- V) * w <= value p * w) by (apply Qmult_le_compat_r; lra).
      lra. }
    fold (mul rnd (value p) w) in Ht1, Ht2.
    set (t := mul rnd (value p) w) in *.
    assert (HeV : 0 <= e * V) by (apply Qmult_le_0_compat; lra).
    assert (HuV : 0 <= u * V) by (apply Qmult_le_0_compat; lra).
    assert (HS : 0 < den + w) by lra.
    destruct (rnd_near (num + t) ((1 + e + u) * V * (den + w))) as [Hn1 Hn2].
    { apply Qabs_Qle_condition.
      assert (HVD : 0 <= V * den) by (apply Qmult_le_0_compat; lra).
      assert (0 <= e * (V * w)) by (apply Qmult_le_0_compat; lra).
      assert (0 <= u * (V * den)) by (apply Qmult_le_0_compat; lra).
      assert (0 <= e * (V * den)) by (apply Qmult_le_0_compat; lra).
      assert (value p * w <= M * w) by (apply Qmult_le_compat_r; lra).
      assert (m * w <= value p * w) by (apply Qmult_le_compat_r; lra).
      assert (M * (den + w) <= V * (den + w))
        by (apply Qmult_le_compat_r; lra).
      assert ((- V) * (den + w) <= m * (den + w))
        by (apply Qmult_le_compat_r; lra).
      split; nra. }
    fold (add rnd num t) in Hn1, Hn2.
    destruct (rnd_scale (den + w)) as [Hd1 Hd2]; [lra|].
    fold (add rnd den w) in Hd1, Hd2.
    assert (Hd0 : 0 < add rnd den w).
    { unfold add. apply rnd_pos. lra. }
    apply IH.
    * intros q Hq. apply Hall. now right.
    * now apply stepErr_nonneg.
    * lra.
    * apply (step_bounds m M V (value p) e num den w t); auto; lra.
    * now right.
Qed.

End Loop.

End Accurate.

(** C4, as first stated, fails: two samples of value 3 in the array,
    neither within 1 m of the query, and the quotient of the rounded sums
    is the double just above 3. *)
Lemma computeIDW_above_max :
  let conv := mkConv 1 1 1 in
  let pts := [mkSample 1 0 3; mkSample 0 6 3] in
  listMax (map value pts) == 3 /\
  3 < computeIDW Binary64.round64 conv 0 0 pts.
Proof. cbv zeta. split; reflexivity. Qed.

(** C4, amended.  On a non-empty array of [n] samples the interpolated
    value lies between the least and the greatest sample value up to the
    rounding the loop accumulates: for arithmetic of relative error at
    most [u], with [8 n u <= 1], within [(4 n + 2) u] times the greatest
    magnitude of a sample value. *)
Theorem computeIDW_between_min_max_rounded (u : Q) (rnd : Q -> Q)
  (conv : CoordConversion) (lt ln : Q) (points : list SamplePoint) :
  0 <= u -> accurate u rnd ->
  points <> [] -> 8 * Qlen points * u <= 1 ->
  let lo := listMin (map value points) in
  let hi := listMax (map value points) in
  let slack := (4 * Qlen points + 2) * u * Qmax (Qabs lo) (Qabs hi) in
  lo - slack <= computeIDW rnd conv lt ln points /\
  computeIDW rnd conv lt ln points <= hi + slack.
Proof.
intros Hu0 Hacc Hne Hn lo hi slack.
assert (Hlen : 1 <= Qlen points).
{ unfold Qlen. change 1 with (inject_Z 1). rewrite <- Zle_Qle.
  destruct points; [congruence|simpl; lia]. }
assert (Hu1 : u < 1) by nra.
assert (Hall : forall p, In p points -> lo <= value p /\ value p <= hi).
{ intros p Hp. split.
  - apply listMin_le. now apply in_map.
  - apply listMax_ge. now apply in_map. }
assert (Hlh : lo <= hi).
{ destruct points as [|p ?]; [congruence|].
  destruct (Hall p (or_introl eq_refl)). lra. }
set (V := Qmax (Qabs lo) (Qabs hi)) in *.
assert (HV1 : Qabs lo <= V) by apply Q.le_max_l.
assert (HV2 : Qabs hi <= V) by apply Q.le_max_r.
apply Qabs_Qle_condition in HV1, HV2.
assert (HV : 0 <= V) by lra.
pose proof (tolerance_le u Hu0 Hu1 (length points) Hn) as Ht.
fold (Qlen points) in Ht.
assert (Hs : tolerance u (length points) * V <= slack).
{ unfold slack. apply Qmult_le_compat_r; [exact Ht|exact HV]. }
destruct (idwLoop_tolerance u rnd Hu0 Hu1 Hacc conv lt ln lo hi V points)
  with (num := 0) (den := 0) (e := 0) as [L1 L2]; try lra; auto.
cbv zeta in L1, L2. fold (tolerance u (length points)) in L1, L2.
unfold computeIDW. lra.
Qed.

Lemma computeIDW_between_min_max_rounded_witness :
  let conv := mkConv 1 1 1 in
  let pts := [mkSample 1 0 3; mkSample 0 6 3] in
  let lo := listMin (map value pts) in
  let hi := listMax (map value pts) in
  let slack :=
    (4 * Qlen pts + 2) * Binary64.epsilon * Qmax (Qabs lo) (Qabs hi) in
  lo - slack <= computeIDW Binary64.round64 conv 0 0 pts /\
  computeIDW Binary64.round64 conv 0 0 pts <= hi + slack.
Proof.
apply (computeIDW_between_min_max_rounded Binary64.epsilon Binary64.round64
         (mkConv 1 1 1) 0 0 [mkSample 1 0 3; mkSample 0 6 3]).
- discriminate.
- exact Binary64Facts.round64_accurate.
- discriminate.
- discriminate.
Defined.

End RoundedIDW.

(* ================================================================== *)
(** * The hull in rounded arithmetic *)
(* ================================================================== *)

Module RoundedHull.

(** The two numbers are both negative, both zero or both positive. *)
Definition sameSign (x y : Q) : bool :=
match Qcompare x 0, Qcompare y 0 with
| Lt, Lt | Eq, Eq | Gt, Gt => true
| _, _ => false
end.

Lemma forallb_pointwise {B : Type} (f g : B -> bool) (l : list B) :
  (forall x, f x = g x) -> forallb f l = forallb g l.
Proof.
intro E. induction l as [|x l IH]; simpl; [reflexivity|].
now rewrite E, IH.
Qed.

Section Signs.
Context {A : Type} `{HasLatLon A}.
Variable rnd : Q -> Q.

(** Rounding changes the sign of no comparison of two points of [points]
    that the sort makes, and of no cross product of three points of
    [points] that [computeConvexHull] or [pointInConvexHull] computes. *)
Definition signsKept (points : list A) : bool :=
forallb (fun a =>
  forallb (fun b =>
    sameSign (Rounded.byLonLat rnd a b) (Contour.byLonLat a b) &&
    forallb (fun c =>
      sameSign (Rounded.cross2D rnd a b c) (Contour.cross2D a b c))
      points)
    points)
  points.

Lemma sameSign_le (x y : Q) :
  sameSign x y = true -> Qle_bool x 0 = Qle_bool y 0.
Proof.
unfold sameSign.
destruct (Qcompare_spec x 0) as [Ex|Ex|Ex];
  destruct (Qcompare_spec y 0) as [Ey|Ey|Ey]; try discriminate; intros _.
- rewrite (proj2 (Qle_bool_iff x 0)), (proj2 (Qle_bool_iff y 0)); lra.
- rewrite (proj2 (Qle_bool_iff x 0)), (proj2 (Qle_bool_iff y 0)); lra.
- rewrite (proj2 (Qle_bool_gt x 0)), (proj2 (Qle_bool_gt y 0)); auto.
Qed.

Lemma sameSign_lt (x y : Q) :
  sameSign x y = true -> Qltb x 0 = Qltb y 0.
Proof.
unfold sameSign.
destruct (Qcompare_spec x 0) as [Ex|Ex|Ex];
  destruct (Qcompare_spec y 0) as [Ey|Ey|Ey]; try discriminate; intros _.
- rewrite (proj2 (Qltb_ge x 0)), (proj2 (Qltb_ge y 0)); lra.
- rewrite (proj2 (Qltb_lt x 0)), (proj2 (Qltb_lt y 0)); auto.
- rewrite (proj2 (Qltb_ge x 0)), (proj2 (Qltb_ge y 0)); lra.
Qed.

Lemma signsKept_compare (points : list A) (a b : A) :
  signsKept points = true -> In a points -> In b points ->
  Qle_bool (Rounded.byLonLat rnd a b) 0 = Qle_bool (Contour.byLonLat a b) 0.
Proof.
intros Hk Ha Hb. unfold signsKept in Hk.
rewrite forallb_forall in Hk. specialize (Hk a Ha).
rewrite forallb_forall in Hk. specialize (Hk b Hb).
apply andb_true_iff in Hk. now apply sameSign_le.
Qed.

Lemma signsKept_sign (points : list A) (a b c : A) :
  signsKept points = true -> In a points -> In b points -> In c points ->
  sameSign (Rounded.cross2D rnd a b c) (Contour.cross2D a b c) = true.
Proof.
intros Hk Ha Hb Hc. unfold signsKept in Hk.
rewrite forallb_forall in Hk. specialize (Hk a Ha).
rewrite forallb_forall in Hk. specialize (Hk b Hb).
apply andb_true_iff in Hk. destruct Hk as [_ Hk].
rewrite forallb_forall in Hk. now apply Hk.
Qed.

(** ** With the signs kept the rounded code takes the path of the exact
    one *)

Lemma insert_agrees (all : list A) (x : A) (l : list A) :
  signsKept all = true -> In x all -> (forall y, In y l -> In y all) ->
  insert (Rounded.byLonLat rnd) x l = insert Contour.byLonLat x l.
Proof.
intros Hk Hx. induction l as [|y l IH]; intro Hl; [reflexivity|].
cbn [insert].
rewrite (signsKept_compare all x y Hk Hx (Hl y (or_introl eq_refl))).
destruct (Qle_bool (Contour.byLonLat x y) 0); [reflexivity|].
f_equal. apply IH. intros z Hz. apply Hl. now right.
Qed.

Lemma sort_agrees (all l : list A) :
  signsKept all = true -> (forall y, In y l -> In y all) ->
  sort (Rounded.byLonLat rnd) l = sort Contour.byLonLat l.
Proof.
intro Hk. induction l as [|x l IH]; intro Hl; [reflexivity|].
cbn [sort fold_right].
fold (sort (Rounded.byLonLat rnd) l). fold (sort Contour.byLonLat l).
rewrite IH by (intros y Hy; apply Hl; now right).
apply (insert_agrees all); auto.
- apply Hl. now left.
- intros y Hy. apply sort_In in Hy. apply Hl. now right.
Qed.

Lemma popWhile_agrees (all stack : list A) (p : A) :
  signsKept all = true -> In p all -> (forall v, In v stack -> In v all) ->
  Rounded.popWhile rnd stack p = Contour.popWhile stack p.
Proof.
intros Hk Hp. induction stack as [|top rest IH]; intro Hs; [reflexivity|].
destruct rest as [|below rest']; [reflexivity|].
cbn [Rounded.popWhile Contour.popWhile].
rewrite (sameSign_le _ _
           (signsKept_sign all below top p Hk
              (Hs below (or_intror (or_introl eq_refl)))
              (Hs top (or_introl eq_refl)) Hp)).
destruct (Qle_bool (Contour.cross2D below top p) 0); [|reflexivity].
apply IH. intros v Hv. apply Hs. now right.
Qed.

Lemma fold_agrees (all pts : list A) : forall stack,
  signsKept all = true ->
  (forall v, In v pts -> In v all) -> (forall v, In v stack -> In v all) ->
  fold_left (Rounded.pushPoint rnd) pts stack =
  fold_left Contour.pushPoint pts stack.
Proof.
induction pts as [|p pts IH]; intros stack Hk Hp Hs; [reflexivity|].
cbn [fold_left]. unfold Rounded.pushPoint at 2.
rewrite (popWhile_agrees all stack p Hk (Hp p (or_introl eq_refl)) Hs).
fold (Contour.pushPoint stack p).
apply IH; auto.
- intros v Hv. apply Hp. now right.
- intros v [<-|Hv]; [apply Hp; now left|].
  apply Hs. eapply HullVertices.popWhile_In; eauto.
Qed.

Lemma buildChain_agrees (all pts : list A) :
  signsKept all = true -> (forall v, In v pts -> In v all) ->
  Rounded.buildChain rnd pts = Contour.buildChain pts.
Proof.
intros Hk Hp. unfold Rounded.buildChain, Contour.buildChain.
apply (fold_agrees all); auto. intros v [].
Qed.

Lemma computeConvexHull_agrees (points : list A) :
  signsKept points = true ->
  Rounded.computeConvexHull rnd points = Contour.computeConvexHull points.
Proof.
intro Hk. unfold Rounded.computeConvexHull, Contour.computeConvexHull.
destruct (length points <? 3)%nat; [reflexivity|]. cbv zeta.
rewrite (sort_agrees points points Hk) by auto.
rewrite !(buildChain_agrees points); auto.
- intros v Hv. apply in_rev in Hv. now apply sort_In in Hv.
- intros v Hv. now apply sort_In in Hv.
Qed.

Lemma pointInConvexHull_agrees (all hull : list A) (p : A) :
  signsKept all = true -> In p all -> (forall v, In v hull -> In v all) ->
  Rounded.pointInConvexHull rnd (lat p) (lon p) hull =
  Contour.pointInConvexHull (lat p) (lon p) hull.
Proof.
intros Hk Hp Hh. unfold Rounded.pointInConvexHull, Contour.pointInConvexHull.
cbv zeta. destruct (length hull <? 3)%nat; [reflexivity|].
apply forallb_pointwise. intro i.
unfold Rounded.edgeOk, Contour.edgeOk. cbv zeta.
destruct (nth_error hull i) as [hi|] eqn:Ei; [|reflexivity].
destruct (nth_error hull ((i + 1) mod length hull)) as [hj|] eqn:Ej;
  [|reflexivity].
apply nth_error_In in Ei, Ej.
f_equal.
apply (sameSign_lt (Rounded.cross2D rnd hi hj p) (Contour.cross2D hi hj p)).
apply (signsKept_sign all); auto.
Qed.

End Signs.

(** C1, as first stated, fails.  Three points on one line give a hull of
    two vertices, and [pointInConvexHull] answers false below three; and
    of the four points below, not on one line, the rounded cross products
    leave the second out of the hull, a quadrilateral, and
    [pointInConvexHull] reports it outside. *)
Lemma hull_member_reported_outside :
  (let pts := [mkLatLng 0 0; mkLatLng 1 1; mkLatLng 2 2] in
   (3 <= length pts)%nat /\
   In (mkLatLng 1 1) pts /\
   Rounded.pointInConvexHull Binary64.round64 1 1
     (Rounded.computeConvexHull Binary64.round64 pts) = false) /\
  (let double := Binary64.round64 in
   let p1 := mkLatLng (double (21 # 10)) (double (19 # 10)) in
   let p2 := mkLatLng (double (4 # 10)) (double (2 # 10)) in
   let p3 := mkLatLng (double (14 # 10)) (double (1 # 10)) in
   let p4 := mkLatLng (double (26 # 10)) (double (24 # 10)) in
   let pts := [p1; p2; p3; p4] in
   ~ Contour.cross2D p1 p2 p3 == 0 /\
   In p2 pts /\
   length (Rounded.computeConvexHull double pts) = 4%nat /\
   Rounded.pointInConvexHull double (lat p2) (lon p2)
     (Rounded.computeConvexHull double pts) = false).
Proof.
split; cbv zeta.
- split; [simpl; lia|]. split; [right; left; reflexivity|].
  vm_compute. reflexivity.
- split; [vm_compute; discriminate|].
  split; [right; left; reflexivity|].
  split; vm_compute; reflexivity.
Qed.

(** C1, amended.  For at least 3 sample points that are not all on one
    line, and such that rounding changes the sign of no comparison and of
    no cross product that the two functions compute from points of the
    input, every point of the input lies inside or on the hull computed
    by [computeConvexHull]: [pointInConvexHull] is true for every member,
    points on the boundary counting as inside. *)
Theorem computeConvexHull_contains_input_rounded {A : Type} `{HasLatLon A}
  (rnd : Q -> Q) (points : list A) :
  (3 <= length points)%nat ->
  (exists a b c, In a points /\ In b points /\ In c points /\
                 ~ Contour.cross2D a b c == 0) ->
  signsKept rnd points = true ->
  forall p, In p points ->
    Rounded.pointInConvexHull rnd (lat p) (lon p)
      (Rounded.computeConvexHull rnd points) = true.
Proof.
intros Hn Hnc Hk p Hp.
rewrite (computeConvexHull_agrees rnd points Hk).
rewrite (pointInConvexHull_agrees rnd points); auto.
- now apply HullContainment.exact_hull_contains_input.
- intros v Hv. now apply HullVertices.hull_vertex_In.
Qed.

Lemma computeConvexHull_contains_input_rounded_witness :
  let double := Binary64.round64 in
  let pts := [mkLatLng (double (407 # 10)) (double (- 740 # 10));
              mkLatLng (double (4071 # 100)) (double (- 7399 # 100));
              mkLatLng (double (407 # 10)) (double (- 7398 # 100));
              mkLatLng (double (4072 # 100)) (double (- 740 # 10));
              mkLatLng (double (4071 # 100)) (double (- 7399 # 100))] in
  Rounded.pointInConvexHull double (double (4071 # 100))
    (double (- 7399 # 100)) (Rounded.computeConvexHull double pts) = true.
Proof.
cbv zeta.
set (double := Binary64.round64).
set (pts := [mkLatLng (double (407 # 10)) (double (- 740 # 10));
              mkLatLng (double (4071 # 100)) (double (- 7399 # 100));
              mkLatLng (double (407 # 10)) (double (- 7398 # 100));
              mkLatLng (double (4072 # 100)) (double (- 740 # 10));
              mkLatLng (double (4071 # 100)) (double (- 7399 # 100))]).
assert (Hn : (3 <= length pts)%nat) by (simpl; lia).
assert (Hnc : exists a b c : LatLng,
          In a pts /\ In b pts /\ In c pts /\ ~ Contour.cross2D a b c == 0).
{ exists (mkLatLng (double (407 # 10)) (double (- 740 # 10))),
         (mkLatLng (double (407 # 10)) (double (- 7398 # 100))),
         (mkLatLng (double (4072 # 100)) (double (- 740 # 10))).
  split; [left; reflexivity|].
  split; [right; right; left; reflexivity|].
  split; [right; right; right; left; reflexivity|].
  vm_compute. discriminate. }
assert (Hk : signsKept double pts = true) by (vm_compute; reflexivity).
apply (@computeConvexHull_contains_input_rounded LatLng _ double pts Hn Hnc
         Hk (mkLatLng (double (4071 # 100)) (double (- 7399 # 100)))).
right. left. reflexivity.
Defined.

(** ** When the hull is a polygon *)

Section Flat.
Context {A : Type} `{HasLatLon A}.
Variable rnd : Q -> Q.

(** The cross product of [base] and each two consecutive points of [l],
    as computed, is zero or negative. *)
Fixpoint turnsRight (base : A) (l : list A) : bool :=
match l with
| a :: ((b :: _) as rest) =>
    Qle_bool (Rounded.cross2D rnd base a b) 0 && turnsRight base rest
| _ => true
end.

(** A pass over [pts] that keeps no point between the first and the
    last. *)
Definition flatPass (pts : list A) : bool :=
match pts with
| base :: rest => turnsRight base rest
| [] => true
end.

Lemma last_after (x : A) (l : list A) (d : A) : last (x :: l) d = last l x.
Proof.
revert x d. induction l as [|y l IH]; intros x d; [reflexivity|].
change (last (y :: l) d = last (y :: l) x). now rewrite !IH.
Qed.

Lemma fold_flat (l : list A) : forall top base,
  turnsRight base (top :: l) = true ->
  fold_left (Rounded.pushPoint rnd) l [top; base] = [last l top; base].
Proof.
induction l as [|y l IH]; intros top base Hf; [reflexivity|].
cbn [turnsRight] in Hf. apply andb_true_iff in Hf. destruct Hf as [Hc Hf].
cbn [fold_left]. unfold Rounded.pushPoint at 2. cbn [Rounded.popWhile].
rewrite Hc. rewrite IH by exact Hf. now rewrite last_after.
Qed.

Lemma buildChain_flat (a : A) (m : list A) :
  flatPass (a :: m) = true -> m <> [] ->
  Rounded.buildChain rnd (a :: m) = [last m a; a].
Proof.
intros Hf Hm. destruct m as [|b m]; [congruence|].
unfold Rounded.buildChain. cbn [fold_left].
unfold Rounded.pushPoint at 2 3. cbn [Rounded.popWhile].
rewrite fold_flat by exact Hf. now rewrite last_after.
Qed.

Lemma hull_flat (points : list A) :
  (3 <= length points)%nat ->
  let sorted := sort (Rounded.byLonLat rnd) points in
  flatPass sorted = true -> flatPass (rev sorted) = true ->
  exists p rest,
    sorted = p :: rest /\
    Rounded.computeConvexHull rnd points = [p; last rest p].
Proof.
intros Hn sorted HL HU. unfold Rounded.computeConvexHull.
rewrite (proj2 (Nat.ltb_ge _ _) Hn). cbv zeta. fold sorted.
pose proof (sort_length (Rounded.byLonLat rnd) points) as Hlen.
fold sorted in Hlen.
destruct sorted as [|p rest]; [simpl in Hlen; lia|].
assert (Hrest : rest <> []).
{ intro E. subst rest. simpl in Hlen. lia. }
exists p, rest. split; [reflexivity|].
destruct (exists_last Hrest) as (rest' & q & E).
rewrite (buildChain_flat p rest HL Hrest).
assert (Erev : rev (p :: rest) = q :: (rev rest' ++ [p])).
{ rewrite E. cbn [rev]. rewrite rev_app_distr. reflexivity. }
rewrite Erev in HU |- *.
rewrite (buildChain_flat q (rev rest' ++ [p]) HU).
- rewrite last_last. rewrite E, last_last. reflexivity.
- intro K. apply app_eq_nil in K. destruct K as [_ K]. discriminate.
Qed.

(** X23.  Of three input points or more, the hull has three vertices or
    more when the points are not all on one line and rounding changes the
    sign of no comparison and of no cross product computed from them;
    and when in both passes over the sorted points no computed cross
    product of the first point of the pass and two consecutive points is
    positive, the hull is the pair of the first and the last point in
    the sorted order. *)
Theorem computeConvexHull_vertex_count (points : list A) :
  (3 <= length points)%nat ->
  let sorted := sort (Rounded.byLonLat rnd) points in
  (signsKept rnd points = true ->
   (exists a b c, In a points /\ In b points /\ In c points /\
                  ~ Contour.cross2D a b c == 0) ->
   (3 <= length (Rounded.computeConvexHull rnd points))%nat) /\
  (flatPass sorted = true -> flatPass (rev sorted) = true ->
   exists p rest,
     sorted = p :: rest /\
     Rounded.computeConvexHull rnd points = [p; last rest p]).
Proof.
intros Hn sorted. split.
- intros Hk Hnc. rewrite (computeConvexHull_agrees rnd points Hk).
  now apply HullContainment.hull_polygon.
- now apply hull_flat.
Qed.

End Flat.

Lemma computeConvexHull_vertex_count_witness :
  let double := Binary64.round64 in
  let p1 := mkLatLng 1 3 in
  let p2 := mkLatLng (double (8 # 10)) (double (double (8 # 10) * 3)) in
  let p3 := mkLatLng 0 0 in
  ~ Contour.cross2D p1 p2 p3 == 0 /\
  exists p q, Rounded.computeConvexHull double [p1; p2; p3] = [p; q].
Proof.
cbv zeta. split; [vm_compute; discriminate|].
destruct (computeConvexHull_vertex_count Binary64.round64
            [mkLatLng 1 3;
             mkLatLng (Binary64.round64 (8 # 10))
               (Binary64.round64 (Binary64.round64 (8 # 10) * 3));
             mkLatLng 0 0]) as [_ Hc].
- simpl. lia.
- destruct Hc as (p & rest & _ & E).
  + vm_compute. reflexivity.
  + vm_compute. reflexivity.
  + exists p, (last rest p). exact E.
Defined.

End RoundedHull.

(* ================================================================== *)
(** * Grid size, buffer radius and the colours of the gap grid *)
(* ================================================================== *)

Module SettingsFacts.
Import Analysis Tools.

(** X1.  With [minSizeFt <= maxSizeFt], [adjustGridSize] leaves the grid
    size within the configured bounds, at the old size plus [delta]
    whenever that lies within them, and changes nothing else of the
    state. *)
Theorem adjustGridSize_clamps (defaults : GridDefaults) (st : AppState)
  (delta : Q) :
  minSizeFt defaults <= maxSizeFt defaults ->
  let st' := adjustGridSize defaults st delta in
  minSizeFt defaults <= gridSizeFt st' /\
  gridSizeFt st' <= maxSizeFt defaults /\
  (minSizeFt defaults <= gridSizeFt st + delta ->
   gridSizeFt st + delta <= maxSizeFt defaults ->
   gridSizeFt st' = gridSizeFt st + delta) /\
  data st' = data st /\ plannedPoints st' = plannedPoints st /\
  includePlannedInGaps st' = includePlannedInGaps st /\
  currentAnalyte st' = currentAnalyte st.
Proof.
intros Hmm st'. subst st'. unfold adjustGridSize, setGridSize. simpl.
destruct (Qltb (gridSizeFt st + delta) (minSizeFt defaults)) eqn:E1.
- apply Qltb_lt in E1.
  rewrite (proj2 (Qltb_ge _ _) Hmm).
  repeat split; try apply Qle_refl; auto. intros. lra.
- apply Qltb_ge in E1.
  destruct (Qltb (maxSizeFt defaults) (gridSizeFt st + delta)) eqn:E2.
  + apply Qltb_lt in E2. repeat split; try apply Qle_refl; auto. intros. lra.
  + apply Qltb_ge in E2. repeat split; auto.
Qed.

Lemma adjustGridSize_clamps_witness :
  gridSizeFt (adjustGridSize (mkDefaults 100 25 500)
                (mkState (mkData [] []) [] true 490 "Mercury") 25) <= 500.
Proof.
apply (adjustGridSize_clamps (mkDefaults 100 25 500)
         (mkState (mkData [] []) [] true 490 "Mercury") 25).
simpl. discriminate.
Defined.

(** X2.  [adjustBufferRadius] always leaves the radius between 25 and
    200 ft, and at the old radius plus [delta] when that lies between
    them. *)
Theorem adjustBufferRadius_clamps (bufferRadiusFt delta : Q) :
  25 <= adjustBufferRadius bufferRadiusFt delta /\
  adjustBufferRadius bufferRadiusFt delta <= 200 /\
  (25 <= bufferRadiusFt + delta <= 200 ->
   adjustBufferRadius bufferRadiusFt delta == bufferRadiusFt + delta).
Proof.
unfold adjustBufferRadius. set (x := bufferRadiusFt + delta).
split; [apply Q.le_max_l|]. split.
- apply Q.max_lub; [discriminate|apply Q.le_min_l].
- intros [H1 H2]. rewrite (Q.min_r 200 x H2). now apply Q.max_r.
Qed.

Lemma adjustBufferRadius_clamps_witness :
  adjustBufferRadius 50 25 == 50 + 25.
Proof.
apply (adjustBufferRadius_clamps 50 25). split; discriminate.
Defined.

Section Gap.
Variable conv : CoordConversion.
Variable distanceTo : LatLng -> LatLng -> Q.

Lemma countNear_fold (st : AppState) (center : LatLng) (l : list LatLng)
  (n : nat) :
  fold_left (fun count s =>
    if Qle_bool (distanceTo center (mkLatLng (lat s) (lon s)))
         (searchRadius conv st)
    then S count else count) l n =
  (n + length (filter (fun s =>
     Qle_bool (distanceTo center (mkLatLng (lat s) (lon s)))
       (searchRadius conv st)) l))%nat.
Proof.
revert n. induction l as [|s l IH]; intro n; simpl.
- lia.
- destruct (Qle_bool _ _); rewrite IH; simpl; lia.
Qed.

(** The samples counted for the cell centred at [center]. *)
Definition nearby (st : AppState) (center : LatLng) : list LatLng :=
filter (fun s => Qle_bool (distanceTo center (mkLatLng (lat s) (lon s)))
                   (searchRadius conv st)) (densitySamples st).

Lemma countNear_nearby (st : AppState) (center : LatLng) :
  countNear conv distanceTo st center = length (nearby st center).
Proof.
unfold countNear, nearby. now rewrite countNear_fold.
Qed.

(** X3.  A cell of the gap grid is red with opacity 0.35 when no density
    sample lies within the search radius of its centre, yellow with 0.3
    for one or two, green with 0.2 for three or more. *)
Theorem gapCell_colour (st : AppState) (lt ln : Q) :
  let n := length (nearby st (cellCenter conv st lt ln)) in
  exists colour opacity,
    gapCell conv distanceTo st lt ln =
      [mkRect lt ln (lt + gridSizeLat conv st) (ln + gridSizeLon conv st)
         colour opacity] /\
    (n = 0%nat -> colour = "#ff0000"%string /\ opacity = 35 # 100) /\
    ((1 <= n <= 2)%nat -> colour = "#ffff00"%string /\ opacity = 3 # 10) /\
    ((3 <= n)%nat -> colour = "#00ff00"%string /\ opacity = 2 # 10).
Proof.
intro n. unfold gapCell. rewrite countNear_nearby. fold n.
destruct (n =? 0)%nat eqn:E0.
- apply Nat.eqb_eq in E0. do 2 eexists. split; [reflexivity|].
  repeat split; intros; try lia; reflexivity.
- apply Nat.eqb_neq in E0.
  destruct (n <=? 2)%nat eqn:E2.
  + apply Nat.leb_le in E2. do 2 eexists. split; [reflexivity|].
    repeat split; intros; try lia; reflexivity.
  + apply Nat.leb_gt in E2. do 2 eexists. split; [reflexivity|].
    repeat split; intros; try lia; reflexivity.
Qed.

Lemma baseSamples_toggle (st : AppState) :
  baseSamples (toggleIncludePlanned st) = baseSamples st.
Proof. reflexivity. Qed.

Lemma filter_app_length {B : Type} (f : B -> bool) (l l' : list B) :
  (length (filter f l) <= length (filter f (l ++ l')))%nat.
Proof.
rewrite filter_app, length_app. lia.
Qed.

(** X4.  Counting the planned points moves no cell and removes no sample
    from any count: with the planned points switched on the grid has the
    same rectangles, and every cell counts at least the samples it
    counted without them. *)
Theorem planned_points_only_add (st : AppState) :
  includePlannedInGaps st = false ->
  let st' := toggleIncludePlanned st in
  map (fun r => (latMin r, lonMin r, latMax r, lonMax r))
      (createGapGrid conv distanceTo st') =
  map (fun r => (latMin r, lonMin r, latMax r, lonMax r))
      (createGapGrid conv distanceTo st) /\
  forall center,
    (countNear conv distanceTo st center
     <= countNear conv distanceTo st' center)%nat.
Proof.
intros Hoff st'. subst st'. split.
- unfold createGapGrid. rewrite baseSamples_toggle.
  destruct (baseSamples st) as [|b0 bs]; [reflexivity|].
  cbv zeta. unfold gridLoop.
  change (gridSizeLat conv (toggleIncludePlanned st))
    with (gridSizeLat conv st).
  change (gridSizeLon conv (toggleIncludePlanned st))
    with (gridSizeLon conv st).
  rewrite !flat_map_concat_map, !concat_map, !map_map.
  f_equal. apply map_ext. intro y.
  rewrite !flat_map_concat_map, !concat_map, !map_map.
  f_equal. apply map_ext. intro x.
  destruct (@GapGridFacts.gapCell_shape conv distanceTo st y x) as (c & o & E).
  destruct (@GapGridFacts.gapCell_shape conv distanceTo
              (toggleIncludePlanned st) y x) as (c' & o' & E').
  change (gridSizeLat conv (toggleIncludePlanned st))
    with (gridSizeLat conv st) in E'.
  change (gridSizeLon conv (toggleIncludePlanned st))
    with (gridSizeLon conv st) in E'.
  rewrite E, E'. reflexivity.
- intro center. rewrite !countNear_nearby. unfold nearby.
  change (searchRadius conv (toggleIncludePlanned st))
    with (searchRadius conv st).
  unfold densitySamples. rewrite baseSamples_toggle, Hoff.
  simpl includePlannedInGaps.
  rewrite app_nil_r. apply filter_app_length.
Qed.

End Gap.

Lemma gapCell_colour_witness :
  let conv := mkConv 111000 88000 (3048 # 10000) in
  let dist := fun p q : LatLng => Qabs (ll_lat p - ll_lat q) * 111000 in
  let st := mkState (mkData [] []) [] false 100 "Mercury" in
  exists colour opacity,
    gapCell conv dist st 0 0 =
      [mkRect 0 0 (0 + gridSizeLat conv st) (0 + gridSizeLon conv st)
         colour opacity] /\
    colour = "#ff0000"%string.
Proof.
cbv zeta.
destruct (gapCell_colour (mkConv 111000 88000 (3048 # 10000))
            (fun p q : LatLng => Qabs (ll_lat p - ll_lat q) * 111000)
            (mkState (mkData [] []) [] false 100 "Mercury") 0 0)
  as (c & o & E & H0 & _).
exists c, o. split; [exact E|]. apply H0. reflexivity.
Defined.

Lemma planned_points_only_add_witness :
  let conv := mkConv 111000 88000 (3048 # 10000) in
  let dist := fun p q : LatLng => Qabs (ll_lat p - ll_lat q) * 111000 in
  let ea := mkSampleRec 0 0 false None None None None None in
  let st := mkState (mkData [] [ea]) [mkLatLng 0 0] false 100 "Mercury" in
  (countNear conv dist st (mkLatLng 0 0)
   <= countNear conv dist (toggleIncludePlanned st) (mkLatLng 0 0))%nat.
Proof.
cbv zeta.
apply (planned_points_only_add (mkConv 111000 88000 (3048 # 10000))
         (fun p q : LatLng => Qabs (ll_lat p - ll_lat q) * 111000)
         (mkState (mkData [] [mkSampleRec 0 0 false None None None None None])
            [mkLatLng 0 0] false 100 "Mercury") eq_refl).
Defined.

End SettingsFacts.

(* ================================================================== *)
(** * Inverse-distance weighting away from the samples *)
(* ================================================================== *)

Module WeightFacts.
Import Contour CyclicFacts.

Section WithConv.
Variable conv : CoordConversion.
Variables lt ln : Q.

(** The weight of a sample, [1 / distSq]. *)
Definition weight (p : SamplePoint) : Q := 1 / distSqTo conv lt ln p.

(** No sample within one meter of the query. *)
Definition allFar (points : list SamplePoint) : Prop :=
forall p, In p points -> 1 <= distSqTo conv lt ln p.

Lemma weights_nonneg (points : list SamplePoint) :
  allFar points -> 0 <= sumQ (map weight points).
Proof.
induction points as [|p rest IH]; intro Hfar; simpl.
- apply Qle_refl.
- pose proof (IDWFacts.weight_pos (Hfar p (or_introl eq_refl))) as Hw.
  fold (weight p) in Hw.
  assert (0 <= sumQ (map weight rest)).
  { apply IH. intros q Hq. apply Hfar. now right. }
  lra.
Qed.

Lemma weights_pos (points : list SamplePoint) :
  allFar points -> points <> [] -> 0 < sumQ (map weight points).
Proof.
intros Hfar Hne. destruct points as [|p rest]; [congruence|]. simpl.
pose proof (IDWFacts.weight_pos (Hfar p (or_introl eq_refl))) as Hw.
fold (weight p) in Hw.
assert (0 <= sumQ (map weight rest)).
{ apply weights_nonneg. intros q Hq. apply Hfar. now right. }
lra.
Qed.



End WithConv.


End WeightFacts.

(* ================================================================== *)
(** * The colour ramp away from its stops *)
(* ================================================================== *)

Module RampFacts.
Import Contour.

Lemma jsRound_between (lo hi : Z) (x : Q) :
  inject_Z lo <= x -> x <= inject_Z hi -> (lo <= jsRound x <= hi)%Z.
Proof.
intros Hlo Hhi. unfold jsRound. split.
- rewrite <- (Qfloor_Z lo). apply Qfloor_resp_le. lra.
- pose proof (Qfloor_le (x + (1 # 2))) as Hf.
  assert (Hlt : inject_Z (Qfloor (x + (1 # 2))) < inject_Z (hi + 1)).
  { rewrite inject_Z_plus. change (inject_Z 1) with 1. lra. }
  rewrite <- Zlt_Qlt in Hlt. lia.
Qed.

Lemma lerpChannel_between (c1 c2 : Z) (t : Q) :
  0 <= t -> t <= 1 ->
  (Z.min c1 c2 <= lerpChannel c1 c2 t <= Z.max c1 c2)%Z.
Proof.
intros H0 H1. unfold lerpChannel. apply jsRound_between.
- destruct (Z.le_gt_cases c1 c2) as [Hle|Hgt].
  + rewrite Z.min_l by exact Hle. rewrite Zle_Qle in Hle. nra.
  + rewrite Z.min_r by lia. apply Z.lt_le_incl in Hgt.
    rewrite Zle_Qle in Hgt. nra.
- destruct (Z.le_gt_cases c1 c2) as [Hle|Hgt].
  + rewrite Z.max_r by exact Hle. rewrite Zle_Qle in Hle. nra.
  + rewrite Z.max_l by lia. apply Z.lt_le_incl in Hgt.
    rewrite Zle_Qle in Hgt. nra.
Qed.

Lemma clamp_unit (t : Q) : 0 <= Qmax 0 (Qmin 1 t) /\ Qmax 0 (Qmin 1 t) <= 1.
Proof.
split; [apply Q.le_max_l|].
apply Q.max_lub; [discriminate|apply Q.le_min_l].
Qed.

(** Every channel of [c] lies between the channels of [c1] and [c2]. *)
Definition betweenColors (c1 c2 c : Color) : Prop :=
(Z.min (r c1) (r c2) <= r c <= Z.max (r c1) (r c2))%Z /\
(Z.min (g c1) (g c2) <= g c <= Z.max (g c1) (g c2))%Z /\
(Z.min (b c1) (b c2) <= b c <= Z.max (b c1) (b c2))%Z.

Lemma lerpColor_between (c1 c2 : Color) (t : Q) :
  betweenColors c1 c2 (lerpColor c1 c2 t).
Proof.
destruct (clamp_unit t) as [H0 H1].
unfold betweenColors, lerpColor. simpl.
repeat split; apply lerpChannel_between; assumption.
Qed.

Lemma lerpColor_end (c1 c2 : Color) (t : Q) :
  1 <= t -> lerpColor c1 c2 t = c2.
Proof.
  intro Ht. unfold lerpColor, lerpChannel.
  assert (E : Qmax 0 (Qmin 1 t) == 1).
  { rewrite (Q.min_l 1 t Ht). apply Q.max_r. discriminate. }
  assert (R : forall a c : Z,
    jsRound (inject_Z a + (inject_Z c - inject_Z a) * Qmax 0 (Qmin 1 t)) = c).
  { intros a c.
    assert (Hc : (c <= jsRound (inject_Z a + (inject_Z c - inject_Z a)
                                 * Qmax 0 (Qmin 1 t)) <= c)%Z).
    { apply jsRound_between; rewrite E; lra. }
    lia. }
  rewrite !R. now destruct c2.
Qed.

(** X7.  [lerpColor] never leaves the span of its two colours, whatever
    [t] is, and from [t = 1] on it is the second colour. *)
Theorem lerpColor_clamped (c1 c2 : Color) (t : Q) :
  betweenColors c1 c2 (lerpColor c1 c2 t) /\
  (1 <= t -> lerpColor c1 c2 t = c2).
Proof.
split; [apply lerpColor_between|apply lerpColor_end].
Qed.

Lemma lerpColor_clamped_witness : lerpColor C_YELLOW C_RED 3 = C_RED.
Proof.
apply (lerpColor_clamped C_YELLOW C_RED 3). discriminate.
Defined.




(** X8.  With [0 < low <= high] the ramp ends in the red stop: from
    twice the threshold on when there is one threshold, and from [high]
    plus the width of the orange band on when there are two. *)
Theorem valueToColor_saturates (value : Q) (thresh : Threshold) :
  0 < low thresh -> low thresh <= high thresh ->
  high thresh + (if Qeq_bool (low thresh) (high thresh)
                 then high thresh
                 else high thresh - low thresh) <= value ->
  valueToColor value thresh = C_RED.
Proof.
destruct thresh as [lo hi]. simpl. intros Hlo Hle Hv.
unfold valueToColor. simpl.
destruct (Qeq_bool lo hi) eqn:E.
- apply Qeq_bool_eq in E.
  assert (Hpos : 0 < value) by lra.
  rewrite (proj2 (Qle_bool_gt value 0) Hpos).
  rewrite (proj2 (Qltb_ge value lo)) by lra.
  apply lerpColor_end.
  assert (H1 : 1 <= (value - hi) / hi).
  { apply Qle_shift_div_l; lra. }
  rewrite (Q.min_r _ 1 H1). apply Qle_refl.
- assert (Hlt : lo < hi).
  { apply Qle_lt_or_eq in Hle. destruct Hle as [H|H]; [exact H|].
    apply Qeq_eq_bool in H. congruence. }
  assert (Hpos : 0 < value) by lra.
  rewrite (proj2 (Qle_bool_gt value 0) Hpos).
  rewrite (proj2 (Qltb_ge value lo)) by lra.
  rewrite (proj2 (Qltb_ge value hi)) by lra.
  apply lerpColor_end.
  assert (H1 : 1 <= (value - hi) / (hi - lo)).
  { apply Qle_shift_div_l; lra. }
  rewrite (Q.min_r _ 1 H1). apply Qle_refl.
Qed.

Lemma valueToColor_saturates_witness :
  valueToColor 407 (mkThreshold 1 204) = C_RED
  /\ valueToColor 22 (mkThreshold 11 11) = C_RED.
Proof.
split.
- apply (valueToColor_saturates 407 (mkThreshold 1 204)); simpl.
  + reflexivity.
  + discriminate.
  + vm_compute. discriminate.
- apply (valueToColor_saturates 22 (mkThreshold 11 11)); simpl.
  + reflexivity.
  + discriminate.
  + vm_compute. discriminate.
Defined.

End RampFacts.

(* ================================================================== *)
(** * The transect tool as a state machine *)
(* ================================================================== *)

Module MachineFacts.
Import CrossSection Mode.

Section Machine.
Variable Interval : Type.
Variable distanceTo : LatLng -> LatLng -> Q.
Variable collectSamples : LatLng -> LatLng -> Q -> list Interval.
Variable corridorCorners : LatLng -> LatLng -> Q -> list LatLng.

(** What the map, the panel and the status bar show for the points
    placed so far. *)
Definition shown (s : State Interval) : Prop :=
match transectPoints s with
| [] =>
    transectLine s = None /\ corridorPolygon s = None /\
    panel s = None /\ lastSamples s = None /\
    (active s = true -> status s = Some MsgClickFirst)
| [_] =>
    transectLine s = None /\ corridorPolygon s = None /\
    panel s = None /\ lastSamples s = None /\
    (status s = Some MsgClickSecond \/ status s = Some MsgTooShort)
| [a; b] =>
    3 <= distanceTo a b /\
    transectLine s = Some (a, b) /\
    corridorPolygon s = Some (corridorCorners a b (corridorWidthFt s)) /\
    match collectSamples a b (corridorWidthFt s) with
    | [] =>
        panel s = None /\ lastSamples s = None /\
        status s = Some (MsgNoSamples (corridorWidthFt s))
    | samples =>
        panel s = Some samples /\ lastSamples s = Some samples /\
        status s = None
    end
| _ => False
end.

Definition consistent (tool : Tool Interval) : Prop :=
let s := cs Interval tool in
transectMarkers s = transectPoints s /\
listening Interval tool = active s /\
crossSectionMode Interval tool = active s /\
(active s = false -> transectPoints s = [] /\ status s = None) /\
shown s.

Lemma consistent_initial (mode : string) :
  consistent (initial Interval mode).
Proof.
unfold consistent, shown, initial. simpl.
repeat split; try reflexivity; discriminate.
Qed.

Lemma consistent_step (tool : Tool Interval) (ev : Event) :
  consistent tool ->
  consistent (step Interval distanceTo collectSamples corridorCorners tool ev).
Proof.
destruct tool as [s cm sm csm li].
destruct s as [act mm w pts mks line poly st pn ls].
unfold consistent, shown. simpl.
intros (Hmk & Hli & Hcs & Hoff & Hsh). subst mks li csm.
destruct ev as [c| | | |]; simpl.
- (* a click *)
  destruct act; simpl; [|tauto].
  destruct mm; simpl; [tauto|].
  destruct pts as [|a [|b [|x pts]]]; simpl.
  + intuition (auto; discriminate).
  + unfold handleTransectClick. simpl.
    destruct (Qltb (distanceTo a c) 3) eqn:E; simpl.
    * intuition (auto; discriminate).
    * apply Qltb_ge in E.
      destruct Hsh as (H1 & H2 & H3 & H4 & _). subst.
      unfold drawTransectOnMap. simpl.
      destruct (collectSamples a c w) as [|i l] eqn:Ec; simpl;
        rewrite Ec; intuition (auto; discriminate).
  + intuition (auto; discriminate).
  + contradiction.
- (* the toolbar button *)
  unfold toggle, activate, deactivate. simpl.
  destruct act; simpl; intuition (auto; discriminate).
- (* Escape *)
  unfold deactivate.
  destruct act; simpl; [intuition (auto; discriminate)|tauto].
- (* the close button *)
  unfold closePanel. simpl.
  destruct act; simpl.
  + intuition (auto; discriminate).
  + destruct (Hoff eq_refl) as [-> ->]. intuition (auto; discriminate).
- (* the measure button *)
  destruct pts as [|a [|b [|x pts]]]; simpl in *; tauto.
Qed.

(** X9.  Whatever sequence of clicks, toolbar toggles, Escape keys,
    panel closings and measure toggles the tool receives from its initial
    state: there is one marker per transect point and at most two points;
    the line and the corridor are drawn exactly when there are two, which
    are then at least 3 m apart; the panel is shown exactly when the
    corridor of the drawn transect holds samples, and shows those; the
    click handler is bound exactly while the tool is active; an inactive
    tool has no points and no status. *)
Theorem tool_stays_consistent (mode : string) (events : list Event) :
  consistent
    (run Interval distanceTo collectSamples corridorCorners
       (initial Interval mode) events).
Proof.
unfold run.
assert (G : forall tool, consistent tool ->
  consistent (fold_left
    (step Interval distanceTo collectSamples corridorCorners) events tool)).
{ induction events as [|ev evs IH]; intros tool Hc; simpl.
  - exact Hc.
  - apply IH. now apply consistent_step. }
apply G. apply consistent_initial.
Qed.

(** X10.  With a complete transect on the map, the next click starts a
    new one: the old markers, line, corridor, panel and cached samples
    are gone, the clicked point is the only point, and the status asks
    for the second point. *)
Theorem click_on_complete_transect_restarts (s : State Interval)
  (a b c : LatLng) :
  active s = true -> measureMode s = false -> transectPoints s = [a; b] ->
  let s' := handleTransectClick distanceTo collectSamples corridorCorners s c in
  transectPoints s' = [c] /\ transectMarkers s' = [c] /\
  transectLine s' = None /\ corridorPolygon s' = None /\
  panel s' = None /\ lastSamples s' = None /\
  status s' = Some MsgClickSecond.
Proof.
intros Hact Hmm Hpts. cbv zeta. unfold handleTransectClick.
rewrite Hact, Hmm, Hpts. simpl. repeat split; reflexivity.
Qed.

(** Switching the tool on and off again restores the planning mode it
    found. *)
Lemma mode_is_restored (tool : Tool Interval) :
  active (cs Interval tool) = false ->
  let on := toggle Interval tool in
  active (cs Interval on) = true /\
  currentMode Interval on = "view"%string /\
  measureMode (cs Interval on) = false /\
  currentMode Interval (toggle Interval on) = currentMode Interval tool /\
  currentMode Interval (deactivate Interval on) = currentMode Interval tool /\
  active (cs Interval (toggle Interval on)) = false.
Proof.
intro Hoff. cbv zeta. unfold toggle, activate, deactivate.
rewrite Hoff. simpl. repeat split; reflexivity.
Qed.

End Machine.

Lemma click_on_complete_transect_restarts_witness :
  transectPoints
    (handleTransectClick
       (fun p q : LatLng => Qabs (ll_lat p - ll_lat q) * 111000)
       (fun (p q : LatLng) (w : Q) => [1%nat])
       (fun (p q : LatLng) (w : Q) => [p; q])
       (mkCS true false 50 [mkLatLng 0 0; mkLatLng 1 0]
          [mkLatLng 0 0; mkLatLng 1 0] (Some (mkLatLng 0 0, mkLatLng 1 0))
          (Some [mkLatLng 0 0; mkLatLng 1 0]) None (Some [1%nat])
          (Some [1%nat]))
       (mkLatLng 2 2))
  = [mkLatLng 2 2].
Proof.
apply (click_on_complete_transect_restarts nat
         (fun p q : LatLng => Qabs (ll_lat p - ll_lat q) * 111000)
         (fun (p q : LatLng) (w : Q) => [1%nat])
         (fun (p q : LatLng) (w : Q) => [p; q])
         (mkCS true false 50 [mkLatLng 0 0; mkLatLng 1 0]
            [mkLatLng 0 0; mkLatLng 1 0] (Some (mkLatLng 0 0, mkLatLng 1 0))
            (Some [mkLatLng 0 0; mkLatLng 1 0]) None (Some [1%nat])
            (Some [1%nat]))
         (mkLatLng 0 0) (mkLatLng 1 0) (mkLatLng 2 2)
         eq_refl eq_refl eq_refl).
Defined.

End MachineFacts.

(* ================================================================== *)
(** * The corridor of a transect and the plot of its samples *)
(* ================================================================== *)

Module CorridorFacts.
Import Corridor.

Lemma clamp_unit_id (s : Q) : 0 <= s -> s <= 1 -> Qmax 0 (Qmin 1 s) == s.
Proof.
intros H0 H1. rewrite (Q.min_r 1 s H1). now apply Q.max_r.
Qed.

(** Non-decreasing keys along a list. *)
Fixpoint nondecreasing {B : Type} (key : B -> Q) (l : list B) : Prop :=
match l with
| [] => True
| x :: l' => (forall y, In y l' -> key x <= key y) /\ nondecreasing key l'
end.

Lemma insert_In_key {B : Type} (cmp : B -> B -> Q) (x y : B) (l : list B) :
  In y (insert cmp x l) -> y = x \/ In y l.
Proof.
intro Hy. apply (Permutation_in y (Permutation_sym (insert_perm cmp x l))) in Hy.
destruct Hy as [<-|Hy]; auto.
Qed.

Lemma insert_nondecreasing {B : Type} (key : B -> Q) (x : B) (l : list B) :
  nondecreasing key l ->
  nondecreasing key (insert (fun a b => key a - key b) x l).
Proof.
induction l as [|y l IH]; intro Hl.
- simpl. split; [intros z []|exact I].
- destruct Hl as [Hy Hl]. cbn [insert].
  destruct (Qle_bool (key x - key y) 0) eqn:E.
  + apply Qle_bool_iff in E. split; [|split; assumption].
    intros z [<-|Hz]; [lra|]. specialize (Hy z Hz). lra.
  + apply Qle_bool_gt in E. split; [|now apply IH].
    intros z Hz. apply insert_In_key in Hz.
    destruct Hz as [->|Hz]; [lra|now apply Hy].
Qed.

Lemma sort_nondecreasing {B : Type} (key : B -> Q) (l : list B) :
  nondecreasing key (sort (fun a b => key a - key b) l).
Proof.
induction l as [|x l IH]; [exact I|]. simpl. now apply insert_nondecreasing.
Qed.

Section WithTransect.
Variable distanceTo : LatLng -> LatLng -> Q.
Variable cosDeg : Q -> Q.
Variable conv : CoordConversion.

(** The parameter [t] of a projection is never outside [0, 1]. *)
Lemma projectOntoSegment_t_range (p a b : LatLng) :
  0 <= t (projectOntoSegment distanceTo cosDeg p a b) /\
  t (projectOntoSegment distanceTo cosDeg p a b) <= 1.
Proof.
unfold projectOntoSegment. cbv zeta.
match goal with |- context [Qltb ?u ?v] => destruct (Qltb u v) end; simpl.
- split; discriminate.
- split; [apply Q.le_max_l|].
  apply Q.max_lub; [discriminate|apply Q.le_min_l].
Qed.

(** X11.  A point [s] of the way from [a] to [b], the two not coinciding
    in the planar approximation, projects onto itself: [t] is [s] and the
    distance is that of a point from itself. *)
Theorem projectOntoSegment_on_segment (p a b : LatLng) (s : Q) :
  (forall u v : LatLng,
     ll_lat u == ll_lat v -> ll_lon u == ll_lon v -> distanceTo u v == 0) ->
  let abLat := ll_lat b - ll_lat a in
  let abLng := (ll_lon b - ll_lon a) * cosDeg (ll_lat a) in
  (1 # 100000000000000000000) <= abLat * abLat + abLng * abLng ->
  0 <= s -> s <= 1 ->
  ll_lat p == ll_lat a + s * (ll_lat b - ll_lat a) ->
  ll_lon p == ll_lon a + s * (ll_lon b - ll_lon a) ->
  t (projectOntoSegment distanceTo cosDeg p a b) == s /\
  distance (projectOntoSegment distanceTo cosDeg p a b) == 0.
Proof.
intros Hd abLat abLng Hab H0 H1 Hlat Hlon.
unfold projectOntoSegment. cbv zeta.
fold abLat. fold abLng.
rewrite (proj2 (Qltb_ge _ _) Hab). simpl.
set (t0 := ((ll_lat p - ll_lat a) * abLat
            + (ll_lon p - ll_lon a) * cosDeg (ll_lat a) * abLng)
           / (abLat * abLat + abLng * abLng)).
assert (Hpos : 0 < abLat * abLat + abLng * abLng).
{ eapply Qlt_le_trans; [|exact Hab]. reflexivity. }
assert (Ht0 : t0 == s).
{ unfold t0. rewrite Hlat, Hlon. subst abLat abLng.
  field. intro K. rewrite K in Hpos. apply (Qlt_irrefl _ Hpos). }
assert (Hc : Qmax 0 (Qmin 1 t0) == s).
{ rewrite <- Ht0 in H0, H1. rewrite (clamp_unit_id t0 H0 H1). exact Ht0. }
split; [exact Hc|].
apply Hd; simpl; rewrite Hc; [rewrite Hlat|rewrite Hlon]; reflexivity.
Qed.

(** What [tryAdd] makes of a location it accepts. *)
Definition inCorridor (a b : LatLng) (corridorWidthFt : Q) (r : Interval)
  : Prop :=
let proj :=
  projectOntoSegment distanceTo cosDeg (mkLatLng (i_lat r) (i_lon r)) a b in
distance proj <= corridorWidthFt * feetToMeters conv /\
i_distAlong r = t proj * (distanceTo a b * METERS_TO_FEET) /\
i_offset r = distance proj * METERS_TO_FEET.

Lemma tryAdd_inCorridor (a b : LatLng) (w lt ln : Q) (id type : string)
  (ds de : Q) (v : option Q) (lbl : string) (r : Interval) :
  In r (tryAdd distanceTo cosDeg conv a b w lt ln id type ds de v lbl) ->
  inCorridor a b w r.
Proof.
unfold tryAdd. cbv zeta.
destruct (Qle_bool _ _) eqn:E; [|intros []].
apply Qle_bool_iff in E. intros [<-|[]].
unfold inCorridor. simpl. repeat split. exact E.
Qed.

Lemma addLocation_inCorridor (a b : LatLng) (w : Q) (analyte type : string)
  (loc : Location) (r : Interval) :
  In r (addLocation distanceTo cosDeg conv a b w analyte type loc) ->
  inCorridor a b w r.
Proof.
unfold addLocation. destruct (depths loc) as [ds|]; [|intros []].
intro Hr. apply in_flat_map in Hr. destruct Hr as (d & _ & Hr).
now apply tryAdd_inCorridor in Hr.
Qed.

Lemma collected_inCorridor (a b : LatLng) (w : Q) (analyte : string)
  (data : TransectData) (r : Interval) :
  In r (collected distanceTo cosDeg conv a b w analyte data) ->
  inCorridor a b w r.
Proof.
unfold collected. intro Hr.
repeat (apply in_app_or in Hr; destruct Hr as [Hr|Hr]);
  apply in_flat_map in Hr; destruct Hr as (x & _ & Hr).
- destruct (negb (sampled (sample x))); [destruct Hr|].
  now apply tryAdd_inCorridor in Hr.
- now apply tryAdd_inCorridor in Hr.
- now apply addLocation_inCorridor in Hr.
- now apply addLocation_inCorridor in Hr.
Qed.

(** X12.  [collectSamples] returns what the four loops collect, in
    non-decreasing order of the distance along the transect. *)
Theorem collectSamples_sorted (a b : LatLng) (w : Q) (analyte : string)
  (data : TransectData) :
  nondecreasing i_distAlong
    (collectSamples distanceTo cosDeg conv a b w analyte data) /\
  Permutation (collected distanceTo cosDeg conv a b w analyte data)
    (collectSamples distanceTo cosDeg conv a b w analyte data).
Proof.
unfold collectSamples. split.
- apply (sort_nondecreasing i_distAlong).
- apply sort_perm.
Qed.

(** X13.  Every interval [collectSamples] returns belongs to a location
    within the corridor width of the transect; its offset is that
    distance in feet, and its distance along the transect lies between 0
    and the length of the transect. *)
Theorem collectSamples_within_corridor (a b : LatLng) (w : Q)
  (analyte : string) (data : TransectData) (r : Interval) :
  0 <= distanceTo a b ->
  In r (collectSamples distanceTo cosDeg conv a b w analyte data) ->
  inCorridor a b w r /\
  i_offset r <= w * feetToMeters conv * METERS_TO_FEET /\
  0 <= i_distAlong r /\
  i_distAlong r <= distanceTo a b * METERS_TO_FEET.
Proof.
intros Hlen Hr. unfold collectSamples in Hr. apply sort_In in Hr.
apply collected_inCorridor in Hr.
split; [exact Hr|].
destruct Hr as (Hd & Ht & Ho).
destruct (projectOntoSegment_t_range (mkLatLng (i_lat r) (i_lon r)) a b)
  as [T0 T1].
rewrite Ht, Ho. unfold METERS_TO_FEET in *.
set (tt := t _) in *. set (dd := distance _) in *.
repeat split; nra.
Qed.

(** X14.  A sampled 2025 surface sample whose projection lies within the
    corridor is among the intervals returned, under its label, as a
    surface interval from 0 to 0.5 ft, whether or not it has a value for
    the analyte. *)
Theorem collectSamples_has_surface_sample (a b : LatLng) (w : Q)
  (analyte : string) (data : TransectData) (s : Named) :
  In s (surface2025 data) -> sampled (sample s) = true ->
  distance (projectOntoSegment distanceTo cosDeg
              (mkLatLng (lat (sample s)) (lon (sample s))) a b)
    <= w * feetToMeters conv ->
  exists r,
    In r (collectSamples distanceTo cosDeg conv a b w analyte data) /\
    i_id r = name s /\ i_type r = "SS"%string /\
    i_depthStart r = 0 /\ i_depthEnd r = 1 # 2 /\
    i_value r = Utils.getSampleValue (sample s) analyte false /\
    i_lat r = lat (sample s) /\ i_lon r = lon (sample s).
Proof.
intros Hs Hsam Hd.
eexists. split.
- unfold collectSamples. apply sort_In. unfold collected.
  apply in_or_app. left. apply in_flat_map. exists s. split; [exact Hs|].
  rewrite Hsam. cbn [negb]. unfold tryAdd. cbv zeta.
  rewrite (proj2 (Qle_bool_iff _ _) Hd). left. reflexivity.
- simpl. repeat split; reflexivity.
Qed.

End WithTransect.

(** ** The scales of the plot *)

Lemma deepest_fold (samples : list Interval) : forall m,
  m <= fold_left (fun maxDepth s =>
         if Qltb maxDepth (i_depthEnd s) then i_depthEnd s else maxDepth)
         samples m /\
  forall s, In s samples ->
    i_depthEnd s <= fold_left (fun maxDepth s =>
         if Qltb maxDepth (i_depthEnd s) then i_depthEnd s else maxDepth)
         samples m.
Proof.
induction samples as [|x l IH]; intro m; simpl.
- split; [apply Qle_refl|intros s []].
- destruct (Qltb m (i_depthEnd x)) eqn:E.
  + apply Qltb_lt in E. destruct (IH (i_depthEnd x)) as [H1 H2]. split.
    * lra.
    * intros s [<-|Hs]; [exact H1|now apply H2].
  + apply Qltb_ge in E. destruct (IH m) as [H1 H2]. split.
    * exact H1.
    * intros s [<-|Hs]; [lra|now apply H2].
Qed.

Lemma plotMaxDepth_ge_deepest (samples : list Interval) :
  deepest samples <= plotMaxDepth samples /\ 2 <= plotMaxDepth samples.
Proof.
pose proof (proj1 (deepest_fold samples 1)) as H1. fold (deepest samples) in H1.
unfold plotMaxDepth. cbv zeta.
destruct (Qle_bool (deepest samples) 2) eqn:E2.
{ apply Qle_bool_iff in E2. split; [exact E2|apply Qle_refl]. }
destruct (Qle_bool (deepest samples) 5) eqn:E5.
{ apply Qle_bool_iff in E5. split; [exact E5|discriminate]. }
destruct (Qle_bool (deepest samples) 10) eqn:E10.
{ apply Qle_bool_iff in E10. split; [exact E10|discriminate]. }
destruct (Qle_bool (deepest samples) 15) eqn:E15.
{ apply Qle_bool_iff in E15. split; [exact E15|discriminate]. }
apply Qle_bool_gt in E15.
pose proof (Qle_ceiling (deepest samples / 10)) as Hc.
assert (Hm : deepest samples <= inject_Z (Qceiling (deepest samples / 10)) * 10).
{ assert (K : deepest samples == deepest samples / 10 * 10) by field.
  set (q := deepest samples / 10) in *.
  set (c := inject_Z (Qceiling q)) in *. lra. }
split; [exact Hm|lra].
Qed.

(** X15.  The depth axis reaches below every interval: the plot depth is
    at least 2 ft and at least the deepest [depthEnd], so an interval
    with [0 <= depthStart <= depthEnd] has its top and bottom edge
    between the top and the bottom of the plot, the top edge above the
    bottom edge. *)
Theorem intervals_within_depth_axis (samples : list Interval) (s : Interval) :
  In s samples -> 0 <= i_depthStart s -> i_depthStart s <= i_depthEnd s ->
  let maxDepth := plotMaxDepth samples in
  i_depthEnd s <= maxDepth /\
  pT <= yPx maxDepth (i_depthStart s) /\
  yPx maxDepth (i_depthStart s) <= yPx maxDepth (i_depthEnd s) /\
  yPx maxDepth (i_depthEnd s) <= pB.
Proof.
intros Hs H0 Hse. cbv zeta.
destruct (plotMaxDepth_ge_deepest samples) as [Hd H2].
pose proof (proj2 (deepest_fold samples 1) s Hs) as He.
fold (deepest samples) in He.
set (m := plotMaxDepth samples) in *.
assert (Hm : i_depthEnd s <= m) by lra.
assert (Hpos : 0 < m) by lra.
assert (A0 : 0 <= i_depthStart s / m).
{ apply Qle_shift_div_l; [exact Hpos|lra]. }
assert (A1 : i_depthStart s / m <= i_depthEnd s / m).
{ unfold Qdiv. apply Qmult_le_compat_r; [exact Hse|].
  apply Qlt_le_weak. now apply Qinv_lt_0_compat. }
assert (A2 : i_depthEnd s / m <= 1).
{ apply Qle_shift_div_r; [exact Hpos|lra]. }
unfold yPx, pT, pB, pH, pT, pB, MARGIN_top, MARGIN_bottom, CANVAS_HEIGHT.
split; [exact Hm|]. repeat split; nra.
Qed.

Section WithTransect2.
Variable distanceTo : LatLng -> LatLng -> Q.
Variable cosDeg : Q -> Q.
Variable conv : CoordConversion.

(** X16.  On a transect of positive length, the distance scale puts
    every collected interval between the left and the right edge of the
    plot. *)
Theorem intervals_within_distance_axis (a b : LatLng) (w : Q)
  (analyte : string) (data : TransectData) (r : Interval) :
  0 < distanceTo a b ->
  In r (collectSamples distanceTo cosDeg conv a b w analyte data) ->
  let transectFt := distanceTo a b * METERS_TO_FEET in
  pL <= xPx transectFt (i_distAlong r) /\
  xPx transectFt (i_distAlong r) <= pR.
Proof.
intros Hlen Hr. cbv zeta.
unfold collectSamples in Hr. apply sort_In in Hr.
apply collected_inCorridor in Hr. destruct Hr as (_ & Ht & _).
destruct (projectOntoSegment_t_range distanceTo cosDeg
            (mkLatLng (i_lat r) (i_lon r)) a b) as [T0 T1].
set (tt := t _) in *.
assert (Hft : 0 < distanceTo a b * METERS_TO_FEET).
{ apply Qmult_lt_0_compat; [exact Hlen|reflexivity]. }
assert (K : i_distAlong r / (distanceTo a b * METERS_TO_FEET) == tt).
{ rewrite Ht. apply Qdiv_mult_l. intro K0. rewrite K0 in Hft.
  apply (Qlt_irrefl 0 Hft). }
unfold xPx. rewrite K.
unfold pL, pR, pW, pL, pR, MARGIN_left, MARGIN_right, CANVAS_WIDTH.
split; nra.
Qed.

End WithTransect2.

(** ** The columns of the plot *)

Lemma seen_In (i : string) (seen : list string) :
  existsb (String.eqb i) seen = true <-> In i seen.
Proof.
rewrite existsb_exists. split.
- intros (j & Hj & E). apply String.eqb_eq in E. now subst.
- intro Hi. exists i. split; [exact Hi|apply String.eqb_refl].
Qed.

Lemma resolveOverlaps_ids (minGap plotLeft plotRight : Q)
  (positions : list CrossSection.Pos) :
  Permutation (map CrossSection.id positions)
    (map CrossSection.id
       (CrossSection.resolveOverlaps minGap plotLeft plotRight positions)).
Proof.
unfold CrossSection.resolveOverlaps.
destruct (length positions <=? 1)%nat; [apply Permutation_refl|].
rewrite map_map.
rewrite (map_ext _ CrossSection.id
           (fun p => LayoutFacts.clamp_id plotLeft plotRight p)).
rewrite LayoutFacts.relax_ids.
apply Permutation_map. apply sort_perm.
Qed.

Lemma groupColumns_throws (transectFt : Q) (samples : list Interval) :
  forall seen,
  groupColumns transectFt seen samples = None <->
  exists s, In s samples /\ inherited (i_id s) = true.
Proof.
induction samples as [|s rest IH]; intro seen; cbn [groupColumns].
- split; [discriminate|]. intros (s & [] & _).
- destruct (inherited (i_id s)) eqn:Ei.
  + split; [|reflexivity]. intros _. exists s. split; [now left|exact Ei].
  + assert (Hrest : (exists s0, In s0 (s :: rest) /\ inherited (i_id s0) = true)
                    <-> exists s0, In s0 rest /\ inherited (i_id s0) = true).
    { split; intros (s0 & Hin & Hs0).
      - destruct Hin as [<-|Hin]; [congruence|]. now exists s0.
      - exists s0. split; [now right|exact Hs0]. }
    rewrite Hrest.
    destruct (existsb (String.eqb (i_id s)) seen); [apply IH|].
    rewrite <- (IH (i_id s :: seen)).
    destruct (groupColumns transectFt (i_id s :: seen) rest); simpl;
      split; congruence.
Qed.

Lemma groupColumns_ids (transectFt : Q) (samples : list Interval) :
  forall seen g,
  groupColumns transectFt seen samples = Some g ->
  let ids := map CrossSection.id g in
  NoDup ids /\
  forall i, In i ids <-> (In i (map i_id samples) /\ ~ In i seen).
Proof.
induction samples as [|s rest IH]; intros seen g Hg; cbv zeta;
  cbn [groupColumns] in Hg.
- inversion Hg. simpl. split; [constructor|]. intro i. tauto.
- destruct (inherited (i_id s)); [discriminate|].
  destruct (existsb (String.eqb (i_id s)) seen) eqn:E.
  + apply seen_In in E. destruct (IH seen g Hg) as [Hn Hi].
    split; [exact Hn|].
    intro i. rewrite Hi. simpl. split; [tauto|].
    intros [[<-|K] Hs]; [contradiction|tauto].
  + assert (Hs : ~ In (i_id s) seen).
    { intro K. apply seen_In in K. congruence. }
    destruct (groupColumns transectFt (i_id s :: seen) rest) as [g'|] eqn:Eg;
      [|discriminate].
    simpl in Hg. inversion Hg. subst g. clear Hg.
    destruct (IH (i_id s :: seen) g' Eg) as [Hn Hi]. simpl. split.
    * constructor; [|exact Hn]. intro K. apply Hi in K. simpl in K. tauto.
    * intro i. rewrite Hi. simpl.
      destruct (string_dec (i_id s) i) as [E'|Hne];
        [rewrite <- E'|]; tauto.
Qed.

(** X17.  Drawing the plot throws exactly when the id of some sample
    names a member that plain objects inherit.  Otherwise the plot has
    one column per location id among the samples, no id twice; and when
    there are two columns or more, each is drawn within the left and
    right edge of the plot. *)
Theorem displayPositions_columns (transectFt : Q) (samples : list Interval) :
  (displayPositions transectFt samples = None <->
   exists s, In s samples /\ inherited (i_id s) = true) /\
  forall columns, displayPositions transectFt samples = Some columns ->
    NoDup (map CrossSection.id columns) /\
    (forall i, In i (map CrossSection.id columns) <->
               In i (map i_id samples)) /\
    ((2 <= length columns)%nat ->
     forall p, In p columns -> LayoutFacts.within pL pR p).
Proof.
unfold displayPositions. split.
- rewrite <- (groupColumns_throws transectFt samples []).
  destruct (groupColumns transectFt [] samples); simpl; split; congruence.
- intros columns Hc.
  destruct (groupColumns transectFt [] samples) as [g|] eqn:Eg;
    [|discriminate].
  simpl in Hc. inversion Hc as [Ec]. clear Hc.
  pose proof (resolveOverlaps_ids (CrossSection.COLUMN_WIDTH_PX + 2) pL pR g)
    as Hperm.
  destruct (groupColumns_ids transectFt samples [] g Eg) as [Hn Hi].
  split; [|split].
  + apply (Permutation_NoDup Hperm Hn).
  + intro i. split.
    * intro K.
      apply (Permutation_in i (Permutation_sym Hperm)) in K.
      now apply Hi in K.
    * intro K. apply (Permutation_in i Hperm). apply Hi.
      split; [exact K|intros []].
  + unfold CrossSection.resolveOverlaps.
    destruct (length g <=? 1)%nat eqn:E.
    * apply Nat.leb_le in E. intro. lia.
    * intros _ p Hp. apply in_map_iff in Hp. destruct Hp as (q & <- & _).
      apply LayoutFacts.clamp_within. vm_compute. discriminate.
Qed.

(** ** A transect to try the statements on *)

Definition demoDistance (u v : LatLng) : Q :=
(Qabs (ll_lat u - ll_lat v) + Qabs (ll_lon u - ll_lon v)) * 111000.

Definition demoConv : CoordConversion := mkConv 111000 88000 (3048 # 10000).

Definition demoData : TransectData :=
mkTransectData
  [mkNamed (mkSampleRec (5 # 10000) 0 true None None None None None) "SS-1"]
  []
  [mkLocation (2 # 10000) 0 "TP-1" (Some [mkDepth 0 3 "0-3 ft" None])]
  [].

Definition demoA : LatLng := mkLatLng 0 0.
Definition demoB : LatLng := mkLatLng (1 # 1000) 0.

Definition demoSamples : list Interval :=
collectSamples demoDistance (fun _ => 1) demoConv demoA demoB 50 "Mercury"
  demoData.

Definition demoInterval : Interval :=
hd (mkInterval "" "" 0 0 0 None "" 0 0 0) demoSamples.

Lemma displayPositions_columns_witness :
  (exists columns,
     displayPositions (demoDistance demoA demoB * METERS_TO_FEET) demoSamples
     = Some columns /\
     LayoutFacts.within pL pR (hd (CrossSection.mkPos "" 0) columns)) /\
  displayPositions 100
    [mkInterval "constructor" "SS" 10 0 (1 # 2) None "0-6 in" 0 0 0] = None.
Proof.
split.
- assert (E : exists columns,
            displayPositions (demoDistance demoA demoB * METERS_TO_FEET)
              demoSamples = Some columns /\
            (2 <= length columns)%nat /\
            In (hd (CrossSection.mkPos "" 0) columns) columns).
  { vm_compute. eexists. split; [reflexivity|]. split; [lia|].
    left. reflexivity. }
  destruct E as (columns & E & Hn & Hin).
  exists columns. split; [exact E|].
  exact (proj2 (proj2 (proj2 (displayPositions_columns
                  (demoDistance demoA demoB * METERS_TO_FEET) demoSamples)
           columns E)) Hn _ Hin).
- apply (proj1 (displayPositions_columns 100
           [mkInterval "constructor" "SS" 10 0 (1 # 2) None "0-6 in" 0 0 0])).
  eexists. split; [left; reflexivity|reflexivity].
Defined.

Lemma projectOntoSegment_on_segment_witness :
  t (projectOntoSegment
       (fun u v => (ll_lat u - ll_lat v) * (ll_lat u - ll_lat v)
                   + (ll_lon u - ll_lon v) * (ll_lon u - ll_lon v))
       (fun _ => 1) (mkLatLng 1 0) (mkLatLng 0 0) (mkLatLng 2 0)) == 1 # 2.
Proof.
apply (projectOntoSegment_on_segment
         (fun u v => (ll_lat u - ll_lat v) * (ll_lat u - ll_lat v)
                     + (ll_lon u - ll_lon v) * (ll_lon u - ll_lon v))
         (fun _ => 1) (mkLatLng 1 0) (mkLatLng 0 0) (mkLatLng 2 0) (1 # 2)).
- intros u v H1 H2. rewrite H1, H2. ring.
- vm_compute. discriminate.
- discriminate.
- discriminate.
- reflexivity.
- reflexivity.
Defined.

Lemma collectSamples_within_corridor_witness :
  0 <= i_distAlong demoInterval /\
  i_distAlong demoInterval <= demoDistance demoA demoB * METERS_TO_FEET.
Proof.
apply (collectSamples_within_corridor demoDistance (fun _ => 1) demoConv
         demoA demoB 50 "Mercury" demoData demoInterval).
- vm_compute. discriminate.
- vm_compute. left. reflexivity.
Defined.

Lemma collectSamples_has_surface_sample_witness :
  exists r, In r demoSamples /\ i_id r = "SS-1"%string.
Proof.
destruct (collectSamples_has_surface_sample demoDistance (fun _ => 1)
            demoConv demoA demoB 50 "Mercury" demoData
            (mkNamed (mkSampleRec (5 # 10000) 0 true None None None None None)
               "SS-1"))
  as (r & Hr & Hid & _).
- left. reflexivity.
- reflexivity.
- vm_compute. discriminate.
- exists r. split; [exact Hr|exact Hid].
Defined.

Lemma intervals_within_depth_axis_witness :
  i_depthEnd demoInterval <= plotMaxDepth demoSamples.
Proof.
apply (intervals_within_depth_axis demoSamples demoInterval).
- vm_compute. left. reflexivity.
- vm_compute. discriminate.
- vm_compute. discriminate.
Defined.

Lemma intervals_within_distance_axis_witness :
  pL <= xPx (demoDistance demoA demoB * METERS_TO_FEET)
          (i_distAlong demoInterval) /\
  xPx (demoDistance demoA demoB * METERS_TO_FEET) (i_distAlong demoInterval)
  <= pR.
Proof.
apply (intervals_within_distance_axis demoDistance (fun _ => 1) demoConv
         demoA demoB 50 "Mercury" demoData demoInterval).
- vm_compute. reflexivity.
- vm_compute. left. reflexivity.
Defined.

End CorridorFacts.

(* ================================================================== *)
(** * Polygon module: ray casting, area and statistics *)
(* ================================================================== *)

Module RegionFacts.
Import Region Polygon CyclicFacts.

Section Ray.
Context {A : Type} `{HasLatLon A}.
Variables lt ln : Q.

(** The vertex is north of the query, [polygon[i].lat > lat]. *)
Definition north (v : A) : bool := Qltb lt (lat v).

(** The x-coordinate at which the edge meets the ray. *)
Definition crossing (vi vj : A) : Q :=
(lon vj - lon vi) * (lt - lat vi) / (lat vj - lat vi) + lon vi.

Lemma intersect_unfold (vi vj : A) :
  intersect lt ln vi vj =
  negb (Bool.eqb (north vi) (north vj)) && Qltb ln (crossing vi vj).
Proof. reflexivity. Qed.

Lemma crossing_between (vi vj : A) :
  negb (Bool.eqb (north vi) (north vj)) = true ->
  Qmin (lon vi) (lon vj) <= crossing vi vj /\
  crossing vi vj <= Qmax (lon vi) (lon vj).
Proof.
unfold north, crossing. intro Hs.
set (f := (lt - lat vi) / (lat vj - lat vi)).
assert (Hf : 0 <= f /\ f <= 1).
{ unfold f.
  destruct (Qltb lt (lat vi)) eqn:Ei; destruct (Qltb lt (lat vj)) eqn:Ej;
    try discriminate.
  - apply Qltb_lt in Ei. apply Qltb_ge in Ej.
    assert (Hneg : 0 < lat vi - lat vj) by lra.
    assert (E : (lt - lat vi) / (lat vj - lat vi)
                == (lat vi - lt) / (lat vi - lat vj)) by (field; lra).
    rewrite E. split.
    + apply Qle_shift_div_l; [exact Hneg|lra].
    + apply Qle_shift_div_r; [exact Hneg|lra].
  - apply Qltb_ge in Ei. apply Qltb_lt in Ej.
    assert (Hpos : 0 < lat vj - lat vi) by lra. split.
    + apply Qle_shift_div_l; [exact Hpos|lra].
    + apply Qle_shift_div_r; [exact Hpos|lra]. }
assert (E : (lon vj - lon vi) * (lt - lat vi) / (lat vj - lat vi) + lon vi
            == lon vi + f * (lon vj - lon vi)).
{ unfold f, Qdiv. ring. }
rewrite E. destruct Hf as [F0 F1].
pose proof (Q.le_min_l (lon vi) (lon vj)).
pose proof (Q.le_min_r (lon vi) (lon vj)).
pose proof (Q.le_max_l (lon vi) (lon vj)).
pose proof (Q.le_max_r (lon vi) (lon vj)).
split; nra.
Qed.

Lemma rayLoop_quiet (rest : list A) : forall vj inside,
  (forall vi vj', In vi (vj :: rest) -> In vj' (vj :: rest) ->
                  intersect lt ln vi vj' = false) ->
  rayLoop lt ln vj rest inside = inside.
Proof.
induction rest as [|vi rest IH]; intros vj inside Hno; simpl.
- reflexivity.
- rewrite Hno; [|right; now left|now left].
  apply IH. intros a b Ha Hb. apply Hno; right; assumption.
Qed.

Lemma last_default (x : A) (l : list A) (d d' : A) :
  last (x :: l) d = last (x :: l) d'.
Proof.
revert x. induction l as [|y l IH]; intro x; [reflexivity|].
change (last (y :: l) d = last (y :: l) d'). apply IH.
Qed.

Lemma last_cons (vi : A) (rest : list A) (d : A) :
  last (vi :: rest) d = last rest vi.
Proof.
destruct rest as [|x rest]; [reflexivity|].
change (last (x :: rest) d = last (x :: rest) vi). apply last_default.
Qed.

Lemma rayLoop_parity (rest : list A) : forall vj inside,
  (forall vi vj', In vi (vj :: rest) -> In vj' (vj :: rest) ->
     intersect lt ln vi vj' = negb (Bool.eqb (north vi) (north vj'))) ->
  rayLoop lt ln vj rest inside =
  xorb inside (xorb (north vj) (north (last rest vj))).
Proof.
induction rest as [|vi rest IH]; intros vj inside Hall; simpl rayLoop.
- simpl. rewrite xorb_nilpotent. now rewrite xorb_false_r.
- rewrite Hall; [|right; now left|now left].
  rewrite IH.
  2:{ intros a b Ha Hb. apply Hall; right; assumption. }
  rewrite last_cons.
  destruct inside, (north vi), (north vj), (north (last rest vi));
    reflexivity.
Qed.

(** X18.  A point north of or level with every vertex, or south of every
    vertex, is outside the polygon, whatever the polygon. *)
Theorem pointInPolygon_outside_box (polygon : list A) :
  (forall v, In v polygon -> lat v <= lt) \/
  (forall v, In v polygon -> lt < lat v) ->
  pointInPolygon lt ln polygon = false.
Proof.
intro Hout. unfold pointInPolygon.
destruct polygon as [|v0 rest]; [reflexivity|].
set (polygon := v0 :: rest) in *.
assert (Hlast : In (last polygon v0) polygon).
{ unfold polygon.
  destruct (exists_last (l := v0 :: rest)) as (l' & a & E');
    [discriminate|].
  rewrite E'. rewrite last_last. apply in_or_app. right. now left. }
assert (Hin : forall v, In v (last polygon v0 :: polygon) -> In v polygon).
{ intros v [<-|Hv]; assumption. }
destruct Hout as [Hn|Hs].
- apply rayLoop_quiet. intros vi vj Hi Hj. rewrite intersect_unfold.
  unfold north.
  rewrite (proj2 (Qltb_ge _ _) (Hn vi (Hin vi Hi))).
  rewrite (proj2 (Qltb_ge _ _) (Hn vj (Hin vj Hj))). reflexivity.
- apply rayLoop_quiet. intros vi vj Hi Hj. rewrite intersect_unfold.
  unfold north.
  rewrite (proj2 (Qltb_lt _ _) (Hs vi (Hin vi Hi))).
  rewrite (proj2 (Qltb_lt _ _) (Hs vj (Hin vj Hj))). reflexivity.
Qed.

End Ray.

(** X19.  For the rectangle with corners at latitudes [y0 < y1] and
    longitudes [x0 < x1], [pointInPolygon] holds exactly for
    [y0 <= lat < y1] and [x0 <= lon < x1]: the south and west sides count
    as inside, the north and east sides as outside. *)
Theorem pointInPolygon_rectangle (y0 y1 x0 x1 lt ln : Q) :
  y0 < y1 -> x0 < x1 ->
  pointInPolygon lt ln
    [mkLatLng y0 x0; mkLatLng y0 x1; mkLatLng y1 x1; mkLatLng y1 x0] = true
  <-> (y0 <= lt /\ lt < y1 /\ x0 <= ln /\ ln < x1).
Proof.
intros Hy Hx. unfold pointInPolygon. simpl last. cbn [rayLoop].
rewrite !intersect_unfold. unfold north, crossing. simpl lat. simpl lon.
assert (C0 : (x0 - x0) * (lt - y0) / (y1 - y0) + x0 == x0) by (field; lra).
assert (C1 : (x1 - x1) * (lt - y1) / (y0 - y1) + x1 == x1) by (field; lra).
destruct (Qltb lt y0) eqn:E0; destruct (Qltb lt y1) eqn:E1; simpl;
  try (apply Qltb_lt in E0); try (apply Qltb_ge in E0);
  try (apply Qltb_lt in E1); try (apply Qltb_ge in E1).
- split; [discriminate|]. intros (K & _). lra.
- lra.
- destruct (Qltb ln ((x0 - x0) * (lt - y0) / (y1 - y0) + x0)) eqn:L0;
    destruct (Qltb ln ((x1 - x1) * (lt - y1) / (y0 - y1) + x1)) eqn:L1;
    simpl;
    try (apply Qltb_lt in L0); try (apply Qltb_ge in L0);
    try (apply Qltb_lt in L1); try (apply Qltb_ge in L1);
    rewrite C0 in L0; rewrite C1 in L1.
  + split; [discriminate|]. intros (_ & _ & K & _). lra.
  + lra.
  + split; [intros _; repeat split; assumption|reflexivity].
  + split; [discriminate|]. intros (_ & _ & _ & K). lra.
- split; [discriminate|]. intros (_ & K & _). lra.
Qed.

Lemma pointInPolygon_rectangle_witness :
  pointInPolygon 0 0
    [mkLatLng 0 0; mkLatLng 0 1; mkLatLng 1 1; mkLatLng 1 0] = true.
Proof.
apply (pointInPolygon_rectangle 0 1 0 1 0 0); try reflexivity.
repeat split; try discriminate; reflexivity.
Defined.

Lemma pointInPolygon_outside_box_witness :
  pointInPolygon 5 0 [mkLatLng 0 0; mkLatLng 0 1; mkLatLng 1 0] = false.
Proof.
apply (pointInPolygon_outside_box 5 0
         [mkLatLng 0 0; mkLatLng 0 1; mkLatLng 1 0]).
left. intros v [<-|[<-|[<-|[]]]]; simpl; discriminate.
Defined.

(** ** The shoelace area *)

(** X21.  The area of the rectangle with corners at latitudes [y0], [y1]
    and longitudes [x0], [x1] is the product of its two sides in feet. *)
Theorem calculateAreaSqFt_rectangle (conv : CoordConversion)
  (y0 y1 x0 x1 : Q) :
  conv_positive conv ->
  calculateAreaSqFt conv
    [mkLatLng y0 x0; mkLatLng y0 x1; mkLatLng y1 x1; mkLatLng y1 x0] ==
  Qabs ((x1 - x0) * metersPerDegLon conv / feetToMeters conv)
  * Qabs ((y1 - y0) * metersPerDegLat conv / feetToMeters conv).
Proof.
intro Hconv.
rewrite (AreaFacts.calculateAreaSqFt_relSum conv Hconv 0 0); [|simpl; lia].
rewrite <- Qabs_Qmult. apply Qabs_wd.
unfold AreaFacts.relSum, AreaFacts.rel, AreaFacts.sqFtPerSqDeg. simpl.
destruct Hconv as (_ & _ & Hf). field. lra.
Qed.

Lemma calculateAreaSqFt_rectangle_witness :
  calculateAreaSqFt (mkConv 111000 88000 (3048 # 10000))
    [mkLatLng 0 0; mkLatLng 0 1; mkLatLng 1 1; mkLatLng 1 0] ==
  Qabs ((1 - 0) * 88000 / (3048 # 10000))
  * Qabs ((1 - 0) * 111000 / (3048 # 10000)).
Proof.
apply (calculateAreaSqFt_rectangle (mkConv 111000 88000 (3048 # 10000))
         0 1 0 1).
repeat split; reflexivity.
Defined.

(** ** The statistics of a polygon *)

(** The relative error of a sum of [n] values rounded after each
    addition. *)
Fixpoint sumErr (u : Q) (n : nat) (e : Q) : Q :=
match n with
| O => e
| S k => sumErr u k (e + u * (1 + e))
end.

Section Mean.
Variables (u : Q) (rnd : Q -> Q).
Hypothesis Hu0 : 0 <= u.
Hypothesis Hacc : accurate u rnd.

Lemma sumErr_nonneg (n : nat) : forall e, 0 <= e -> 0 <= sumErr u n e.
Proof.
induction n as [|n IH]; intros e He; simpl; [exact He|].
apply IH. nra.
Qed.

(** As long as [2 n u <= 1] the error grows by no more than [2 u] a
    value. *)
Lemma sumErr_le (n : nat) : forall e,
  0 <= e -> e + 2 * inject_Z (Z.of_nat n) * u <= 1 ->
  sumErr u n e <= e + 2 * inject_Z (Z.of_nat n) * u.
Proof.
induction n as [|n IH]; intros e He Hs.
- simpl. change (inject_Z 0) with 0. lra.
- assert (En : inject_Z (Z.of_nat (S n)) == inject_Z (Z.of_nat n) + 1).
  { rewrite Nat2Z.inj_succ. unfold Z.succ. now rewrite inject_Z_plus. }
  rewrite En in Hs |- *.
  assert (Hn : 0 <= inject_Z (Z.of_nat n)).
  { change 0 with (inject_Z 0). rewrite <- Zle_Qle. lia. }
  assert (Hnu : 0 <= inject_Z (Z.of_nat n) * u)
    by (apply Qmult_le_0_compat; lra).
  cbn [sumErr].
  assert (Hue : u * e <= u * 1).
  { rewrite !(Qmult_comm u). apply Qmult_le_compat_r; lra. }
  assert (Hue0 : 0 <= u * e) by (apply Qmult_le_0_compat; lra).
  eapply Qle_trans; [apply IH; lra|]. lra.
Qed.

Lemma rounded_near (x B : Q) :
  Qabs x <= B -> x - u * B <= rnd x /\ rnd x <= x + u * B.
Proof.
intro HB. pose proof (Hacc x) as K.
assert (K' : Qabs (rnd x - x) <= u * B).
{ eapply Qle_trans; [exact K|].
  rewrite !(Qmult_comm u). now apply Qmult_le_compat_r. }
apply Qabs_Qle_condition in K'. lra.
Qed.

Lemma sum_tolerance (lo hi V : Q) (values : list Q) :
  - V <= lo -> lo <= hi -> hi <= V ->
  forall acc k e,
  (forall v, In v values -> lo <= v /\ v <= hi) ->
  0 <= e -> 0 <= k ->
  (lo - e * V) * k <= acc /\ acc <= (hi + e * V) * k ->
  let e' := sumErr u (length values) e in
  let k' := k + Qlen values in
  (lo - e' * V) * k' <= fold_left (fun a b => rnd (a + b)) values acc /\
  fold_left (fun a b => rnd (a + b)) values acc <= (hi + e' * V) * k'.
Proof.
intros HVlo Hlh HhV. assert (HV : 0 <= V) by lra.
induction values as [|v rest IH]; intros acc k e Hall He Hk [Hlo Hhi].
- cbv zeta. unfold Qlen. simpl.
  setoid_replace (k + inject_Z 0) with k by (change (inject_Z 0) with 0; ring).
  now split.
- cbv zeta. cbn [fold_left length sumErr].
  destruct (Hall v (or_introl eq_refl)) as [Hv1 Hv2].
  assert (Ek : k + Qlen (v :: rest) == (k + 1) + Qlen rest).
  { unfold Qlen. cbn [length]. rewrite Nat2Z.inj_succ. unfold Z.succ.
    rewrite inject_Z_plus. change (inject_Z 1) with 1. ring. }
  rewrite Ek.
  apply IH.
  + intros w Hw. apply Hall. now right.
  + nra.
  + lra.
  + assert (HeV : 0 <= e * V) by (apply Qmult_le_0_compat; lra).
    assert (HeVk : 0 <= e * V * k) by (apply Qmult_le_0_compat; lra).
    assert (HVk : 0 <= V * (k + 1)) by (apply Qmult_le_0_compat; lra).
    assert (Hhk : hi * k <= V * k) by (apply Qmult_le_compat_r; lra).
    assert (Hlk : (- V) * k <= lo * k) by (apply Qmult_le_compat_r; lra).
    destruct (rounded_near (acc + v) ((1 + e) * V * (k + 1))) as [H1 H2].
    { apply Qabs_Qle_condition. split; nra. }
    split.
    * eapply Qle_trans; [|exact H1]. nra.
    * eapply Qle_trans; [exact H2|]. nra.
Qed.

Lemma mean_tolerance (values : list Q) :
  values <> [] -> 2 * (Qlen values + 1) * u <= 1 ->
  let lo := listMin values in
  let hi := listMax values in
  let slack := 2 * (Qlen values + 1) * u * Qmax (Qabs lo) (Qabs hi) in
  let mu := rnd (fold_left (fun a b => rnd (a + b)) values 0 / Qlen values) in
  lo - slack <= mu /\ mu <= hi + slack.
Proof.
intros Hne Hsmall lo hi slack mu.
assert (Hall : forall v, In v values -> lo <= v /\ v <= hi).
{ intros v Hv. split; [now apply listMin_le|now apply listMax_ge]. }
assert (Hlh : lo <= hi).
{ destruct values as [|v ?]; [congruence|].
  destruct (Hall v (or_introl eq_refl)). lra. }
set (V := Qmax (Qabs lo) (Qabs hi)) in *.
assert (HV1 : Qabs lo <= V) by apply Q.le_max_l.
assert (HV2 : Qabs hi <= V) by apply Q.le_max_r.
apply Qabs_Qle_condition in HV1, HV2.
assert (HV : 0 <= V) by lra.
assert (Hlen : 0 < Qlen values).
{ unfold Qlen. change 0 with (inject_Z 0). rewrite <- Zlt_Qlt.
  destruct values; [congruence|simpl; lia]. }
destruct (sum_tolerance lo hi V values) with (acc := 0) (k := 0) (e := 0)
  as [S1 S2]; try lra; auto.
cbv zeta in S1, S2.
set (e := sumErr u (length values) 0) in *.
assert (He : 0 <= e) by (apply sumErr_nonneg; lra).
set (sum := fold_left (fun a b => rnd (a + b)) values 0) in *.
setoid_replace (0 + Qlen values) with (Qlen values) in S1 by ring.
setoid_replace (0 + Qlen values) with (Qlen values) in S2 by ring.
assert (Hq1 : lo - e * V <= sum / Qlen values)
  by now apply Qle_shift_div_l.
assert (Hq2 : sum / Qlen values <= hi + e * V)
  by now apply Qle_shift_div_r.
assert (HeV : 0 <= e * V) by (apply Qmult_le_0_compat; lra).
destruct (rounded_near (sum / Qlen values) ((1 + e) * V)) as [H1 H2].
{ apply Qabs_Qle_condition. lra. }
assert (Em : forall n e0, sumErr u (S n) e0
                          == sumErr u n e0 + u * (1 + sumErr u n e0)).
{ induction n as [|n IHn]; intro e0; [simpl; reflexivity|].
  change (sumErr u (S (S n)) e0) with (sumErr u (S n) (e0 + u * (1 + e0))).
  rewrite IHn. reflexivity. }
assert (Es : (e + u * (1 + e)) * V <= slack).
{ unfold slack. apply Qmult_le_compat_r; [|exact HV].
  pose proof (Em (length values) 0) as Em0. fold e in Em0.
  assert (Ek : inject_Z (Z.of_nat (S (length values))) == Qlen values + 1).
  { rewrite Nat2Z.inj_succ. unfold Z.succ. now rewrite inject_Z_plus. }
  pose proof (sumErr_le (S (length values)) 0 (Qle_refl 0)) as K.
  rewrite Ek in K. lra. }
unfold mu. fold sum. lra.
Qed.

End Mean.

Section Stats.
Variable conv : CoordConversion.
Variable exceedsROD : Q -> string -> bool.

Lemma exceed_fold (analyte : string) (values : list Q) : forall n,
  (n <= fold_left (fun n val => if exceedsROD val analyte then S n else n)
          values n
   <= n + length values)%nat.
Proof.
induction values as [|v l IH]; intro n; simpl.
- lia.
- destruct (exceedsROD v analyte).
  + specialize (IH (S n)). lia.
  + specialize (IH n). lia.
Qed.

Lemma valuesOf_length (analyte : string) (inside : list (Sample * bool)) :
  (length (valuesOf analyte inside) <= length inside)%nat.
Proof.
unfold valuesOf. induction inside as [|e l IH]; simpl; [lia|].
rewrite length_app.
destruct (Utils.getSampleValue (fst e) analyte (snd e)); simpl; lia.
Qed.

(** X22.  In what [analyzePolygon] returns, the statistics of each
    analyte count no more values than there are samples inside and no
    more exceedances than values; without values minimum, maximum and
    mean are null; with values the minimum is at most every value, the
    maximum at least every value, and the mean lies between the two up
    to rounding: for arithmetic of relative error at most [u] and [n]
    values with [2 (n + 1) u <= 1], within [2 (n + 1) u] times the
    greatest magnitude of a value. *)
Theorem analyzePolygon_stats (u : Q) (rnd : Q -> Q) (verts : list LatLng)
  (data : AppData) (analyte : string) (s : AnalyteStats) :
  0 <= u -> accurate u rnd ->
  In (analyte, s) (stats (analyzePolygon conv exceedsROD rnd verts data)) ->
  let values := valuesOf analyte (samplesInside verts data) in
  count s = length values /\
  (count s <= totalSamples (analyzePolygon conv exceedsROD rnd verts data))%nat
  /\
  (exceedances s <= count s)%nat /\
  (values = [] -> min s = None /\ max s = None /\ mean s = None) /\
  (values <> [] ->
   exists lo hi mu,
     min s = Some lo /\ max s = Some hi /\ mean s = Some mu /\
     (forall v, In v values -> lo <= v /\ v <= hi) /\
     (2 * (Qlen values + 1) * u <= 1 ->
      let slack := 2 * (Qlen values + 1) * u * Qmax (Qabs lo) (Qabs hi) in
      lo - slack <= mu /\ mu <= hi + slack)).
Proof.
intros Hu Hacc Hin. cbv zeta. unfold analyzePolygon in *. simpl in Hin.
set (inside := samplesInside verts data) in *.
assert (Hs : s = statsOf exceedsROD rnd analyte inside).
{ repeat (destruct Hin as [Hin|Hin]; [now inversion Hin|]). destruct Hin. }
subst s. unfold statsOf. cbv zeta.
set (values := valuesOf analyte inside).
pose proof (exceed_fold analyte values 0) as Hex. simpl in Hex.
pose proof (valuesOf_length analyte inside) as Hlen. fold values in Hlen.
destruct (0 <? length values)%nat eqn:E; simpl.
- apply Nat.ltb_lt in E.
  assert (Hne : values <> []) by (intro K; rewrite K in E; simpl in E; lia).
  split; [reflexivity|]. split; [exact Hlen|]. split; [lia|].
  split; [intro K; congruence|]. intros _.
  exists (listMin values), (listMax values),
         (rnd (fold_left (fun a b => rnd (a + b)) values 0 / Qlen values)).
  split; [reflexivity|]. split; [reflexivity|]. split; [reflexivity|].
  split.
  + intros v Hv. split; [now apply listMin_le|now apply listMax_ge].
  + intro Hsmall. apply (mean_tolerance u rnd Hu Hacc values Hne Hsmall).
- apply Nat.ltb_ge in E.
  assert (He : values = []) by (destruct values; [reflexivity|simpl in E; lia]).
  split; [reflexivity|]. split; [exact Hlen|]. split; [lia|].
  split; [intros _; repeat split; reflexivity|].
  intro K. congruence.
Qed.

End Stats.

Lemma analyzePolygon_stats_witness :
  let double := Binary64.round64 in
  let sample v := mkSampleRec (1 # 2) (1 # 2) true None (Some (double v))
                    None None None in
  let data := mkData [] [sample (1 # 10); sample (1 # 10); sample (1 # 10)] in
  let verts := [mkLatLng 0 0; mkLatLng 0 1; mkLatLng 1 1; mkLatLng 1 0] in
  exists s,
    In ("Mercury"%string, s)
       (stats (analyzePolygon (mkConv 111000 88000 (3048 # 10000))
                 (fun v _ => Qltb 1 v) double verts data)) /\
    count s = 3%nat /\
    exists mu, mean s = Some mu /\ double (1 # 10) < mu.
Proof.
cbv zeta.
set (data := mkData [] [mkSampleRec (1 # 2) (1 # 2) true None
                          (Some (Binary64.round64 (1 # 10))) None None None;
                        mkSampleRec (1 # 2) (1 # 2) true None
                          (Some (Binary64.round64 (1 # 10))) None None None;
                        mkSampleRec (1 # 2) (1 # 2) true None
                          (Some (Binary64.round64 (1 # 10))) None None None]).
set (verts := [mkLatLng 0 0; mkLatLng 0 1; mkLatLng 1 1; mkLatLng 1 0]).
set (s := statsOf (fun v _ => Qltb 1 v) Binary64.round64 "Mercury"
            (samplesInside verts data)).
assert (Hin : In ("Mercury"%string, s)
                (stats (analyzePolygon (mkConv 111000 88000 (3048 # 10000))
                          (fun v _ => Qltb 1 v) Binary64.round64 verts data)))
  by (left; reflexivity).
exists s. split; [exact Hin|].
destruct (analyzePolygon_stats (mkConv 111000 88000 (3048 # 10000))
            (fun v _ => Qltb 1 v) Binary64.epsilon Binary64.round64
            verts data "Mercury" s) as (Hc & _).
- discriminate.
- exact Binary64Facts.round64_accurate.
- exact Hin.
- split; [rewrite Hc; vm_compute; reflexivity|].
  vm_compute. eexists. split; [reflexivity|reflexivity].
Defined.

End RegionFacts.

(* ================================================================== *)
(** * When the hull is a polygon *)
(* ================================================================== *)

Module HullShape.
Import Contour HullContainment.

Section Collinear.
Context {A : Type} `{HasLatLon A}.

(** All points on one line. *)
Definition collinear (pts : list A) : Prop :=
forall a b c, In a pts -> In b pts -> In c pts -> cross2D a b c == 0.

Lemma pushPoint_collinear (all stack : list A) (p : A) :
  collinear all -> (forall v, In v stack -> In v all) -> In p all ->
  (length stack <= 2)%nat ->
  (length (pushPoint stack p) <= 2)%nat /\
  forall v, In v (pushPoint stack p) -> In v all.
Proof.
intros Hcol Hst Hp Hlen. unfold pushPoint.
destruct stack as [|t [|s [|x rest]]]; cbn [popWhile].
- split; [simpl; lia|]. intros v [<-|[]]. exact Hp.
- split; [simpl; lia|]. intros v [<-|Hv]; [exact Hp|now apply Hst].
- assert (E : cross2D s t p == 0).
  { apply Hcol; [apply Hst; right; now left|apply Hst; now left|exact Hp]. }
  assert (Hb : Qle_bool (cross2D s t p) 0 = true).
  { apply Qle_bool_iff. rewrite E. apply Qle_refl. }
  rewrite Hb. split; [simpl; lia|].
  intros v [<-|[<-|[]]]; [exact Hp|apply Hst; right; now left].
- simpl in Hlen. lia.
Qed.

Lemma fold_collinear (all pts : list A) : forall stack,
  collinear all -> (forall v, In v stack -> In v all) ->
  (forall v, In v pts -> In v all) -> (length stack <= 2)%nat ->
  (length (fold_left pushPoint pts stack) <= 2)%nat.
Proof.
induction pts as [|p pts IH]; intros stack Hcol Hst Hpts Hlen; simpl.
- exact Hlen.
- destruct (pushPoint_collinear all stack p Hcol Hst
              (Hpts p (or_introl eq_refl)) Hlen) as [L I].
  apply IH; auto. intros v Hv. apply Hpts. now right.
Qed.

Lemma buildChain_collinear (all pts : list A) :
  collinear all -> (forall v, In v pts -> In v all) ->
  (length (buildChain pts) <= 2)%nat.
Proof.
intros Hcol Hpts. unfold buildChain.
apply (fold_collinear all pts [] Hcol); [intros v []|exact Hpts|simpl; lia].
Qed.

Lemma hull_two_vertices (points : list A) :
  (3 <= length points)%nat -> collinear points ->
  exists p q,
    computeConvexHull points = [p; q] /\
    forall s, In s points -> lexle p s /\ lexle s q.
Proof.
intros Hn Hcol.
destruct (hull_edges points Hn)
  as (p & q & mL & mU & Eh & EL & EU & Hpq & _).
assert (HL : (length (buildChain (sort byLonLat points)) <= 2)%nat).
{ apply (buildChain_collinear points); [exact Hcol|].
  intros v Hv. now apply sort_In in Hv. }
assert (HU : (length (buildChain (rev (sort byLonLat points))) <= 2)%nat).
{ apply (buildChain_collinear points); [exact Hcol|].
  intros v Hv. apply in_rev in Hv. now apply sort_In in Hv. }
rewrite EL in HL. rewrite EU in HU.
destruct mL as [|x mL]; [|simpl in HL; rewrite length_app in HL; simpl in HL; lia].
destruct mU as [|y mU]; [|simpl in HU; rewrite length_app in HU; simpl in HU; lia].
exists p, q. split; [exact Eh|exact Hpq].
Qed.

End Collinear.

End HullShape.

(* ================================================================== *)
(** * How far the buffer moves a vertex *)
(* ================================================================== *)

Module BufferFacts.
Import Contour.

Section Buffer.
Context {A : Type} `{HasLatLon A}.
Variable conv : CoordConversion.
Variable sqrt : Q -> Q.

(** The squared planar distance in meters between a vertex and a
    point. *)
Definition metersSq (v : A) (p : LatLng) : Q :=
((ll_lat p - lat v) * metersPerDegLat conv)
* ((ll_lat p - lat v) * metersPerDegLat conv)
+ ((ll_lon p - lon v) * metersPerDegLon conv)
  * ((ll_lon p - lon v) * metersPerDegLon conv).

(** X24.  A hull of three vertices or more keeps the number of its
    vertices under [bufferConvexHull]; a vertex whose computed distance
    from the centroid is below 0.001 stays where it is, and any other
    vertex, where [Math.sqrt] returns a square root, ends exactly
    [bufferMeters] meters from where it was. *)
Theorem bufferConvexHull_moves_by_buffer (hull : list A) (bufferMeters : Q)
  (d : A) (i : nat) :
  conv_positive conv -> (3 <= length hull)%nat -> (i < length hull)%nat ->
  let v := nth i hull d in
  let v' := nth i (bufferConvexHull conv sqrt hull bufferMeters)
              (mkLatLng 0 0) in
  let dLatM := (lat v - centroidLat hull) * metersPerDegLat conv in
  let dLonM := (lon v - centroidLon hull) * metersPerDegLon conv in
  let dist := sqrt (dLatM * dLatM + dLonM * dLonM) in
  length (bufferConvexHull conv sqrt hull bufferMeters) = length hull /\
  (dist < 1 # 1000 -> v' = mkLatLng (lat v) (lon v)) /\
  ((1 # 1000) <= dist -> dist * dist == dLatM * dLatM + dLonM * dLonM ->
   metersSq v v' == bufferMeters * bufferMeters).
Proof.
intros (H1 & H2 & _) Hn Hi. cbv zeta.
unfold bufferConvexHull. rewrite (proj2 (Nat.ltb_ge _ _) Hn). cbv zeta.
split; [apply length_map|].
rewrite (nth_indep _ (mkLatLng 0 0)
           (bufferVertex conv sqrt (centroidLat hull) (centroidLon hull)
              (bufferMeters / metersPerDegLat conv)
              (bufferMeters / metersPerDegLon conv) d))
  by (rewrite length_map; exact Hi).
rewrite map_nth.
set (v := nth i hull d).
unfold bufferVertex. cbv zeta.
set (dLatM := (lat v - centroidLat hull) * metersPerDegLat conv).
set (dLonM := (lon v - centroidLon hull) * metersPerDegLon conv).
set (dist := sqrt (dLatM * dLatM + dLonM * dLonM)).
split.
- intro Hlt. now rewrite (proj2 (Qltb_lt _ _) Hlt).
- intros Hge Hsq. rewrite (proj2 (Qltb_ge _ _) Hge).
  unfold metersSq. simpl.
  assert (Hd : 0 < dist) by (eapply Qlt_le_trans; [|exact Hge]; reflexivity).
  assert (E1 : (lat v + dLatM / dist * (bufferMeters / metersPerDegLat conv)
                - lat v) * metersPerDegLat conv
               == dLatM / dist * bufferMeters) by (field; lra).
  assert (E2 : (lon v + dLonM / dist * (bufferMeters / metersPerDegLon conv)
                - lon v) * metersPerDegLon conv
               == dLonM / dist * bufferMeters) by (field; lra).
  rewrite E1, E2.
  assert (E3 : dLatM / dist * bufferMeters * (dLatM / dist * bufferMeters)
               + dLonM / dist * bufferMeters * (dLonM / dist * bufferMeters)
               == (dLatM * dLatM + dLonM * dLonM) / (dist * dist)
                  * (bufferMeters * bufferMeters)) by (field; lra).
  rewrite E3, <- Hsq. field. nra.
Qed.

End Buffer.

Lemma bufferConvexHull_moves_by_buffer_witness :
  metersSq (mkConv 1 1 1) (mkLatLng 3 4)
    (nth 0 (bufferConvexHull (mkConv 1 1 1) (fun _ => 5)
              [mkLatLng 3 4; mkLatLng (-3) 0; mkLatLng 0 (-4)] 30)
       (mkLatLng 0 0))
  == 30 * 30.
Proof.
destruct (bufferConvexHull_moves_by_buffer (mkConv 1 1 1) (fun _ => 5)
            [mkLatLng 3 4; mkLatLng (-3) 0; mkLatLng 0 (-4)] 30
            (mkLatLng 0 0) 0) as (_ & _ & Hmove).
- repeat split; reflexivity.
- simpl. lia.
- simpl. lia.
- apply Hmove.
  + discriminate.
  + vm_compute. reflexivity.
Defined.

End BufferFacts.

(* ================================================================== *)
(** * The raster of the contour overlay *)
(* ================================================================== *)

Module OverlayFacts.
Import Contour Overlay.




Section Generate.
Variable conv : CoordConversion.
Variable sqrt : Q -> Q.
Variable thresholds : string -> option Threshold.
Variable st : AppState.




(** X26.  When all valued samples lie on one line the hull has two
    vertices, no cell centre is inside it, and the overlay that
    [generateContour] adds is transparent in every pixel. *)
Theorem generateContour_collinear_blank (thresh : Threshold) :
  (3 <= length (collectSamplePoints st))%nat ->
  thresholds (currentAnalyte st) = Some thresh ->
  HullShape.collinear (collectSamplePoints st) ->
  exists raster,
    generateContour conv sqrt thresholds st = Some raster /\
    forall z, In z (pixels raster) -> z = 0%Z.
Proof.
intros Hn Hth Hcol. unfold generateContour.
rewrite (proj2 (Nat.ltb_ge _ _) Hn), Hth.
eexists. split; [reflexivity|]. simpl.
destruct (HullShape.hull_two_vertices (collectSamplePoints st) Hn Hcol)
  as (p & q & Eh & _).
assert (Hout : forall lt ln,
  pointInConvexHull lt ln (bufferedHull conv sqrt st) = false).
{ intros lt ln. unfold bufferedHull. rewrite Eh. reflexivity. }
intros z Hz. apply in_flat_map in Hz. destruct Hz as (row & _ & Hz).
apply in_flat_map in Hz. destruct Hz as (col & _ & Hz).
unfold pixelAt in Hz. cbv zeta in Hz. rewrite Hout in Hz. simpl in Hz.
destruct Hz as [<-|[<-|[<-|[<-|[]]]]]; reflexivity.
Qed.



End Generate.

(** ** Three samples to try the statements on *)

Definition rasterConv : CoordConversion := mkConv 111000 88000 (3048 # 10000).

Definition rasterThresholds (analyte : string) : option Threshold :=
Some (mkThreshold 1 204).

Definition rasterEA (lt ln v : Q) : Sample :=
mkSampleRec lt ln false None (Some v) None None None.


Definition rasterLine : AppState :=
mkState (mkData [] [rasterEA 0 0 5; rasterEA 0 (1 # 1000) 50;
                    rasterEA 0 (2 # 1000) 500])
        [] false 100 "Mercury".


Lemma generateContour_collinear_blank_witness :
  exists raster,
    generateContour rasterConv (fun q => q) rasterThresholds rasterLine
    = Some raster.
Proof.
destruct (generateContour_collinear_blank rasterConv (fun q => q)
            rasterThresholds rasterLine (mkThreshold 1 204)) as (raster & E & _).
- vm_compute. lia.
- reflexivity.
- intros a b c Ha Hb Hc. vm_compute in Ha, Hb, Hc.
  destruct Ha as [<-|[<-|[<-|[]]]]; destruct Hb as [<-|[<-|[<-|[]]]];
    destruct Hc as [<-|[<-|[<-|[]]]]; reflexivity.
- exists raster. exact E.
Defined.


End OverlayFacts.

(* ================================================================== *)
(** * The next point number *)
(* ================================================================== *)

Module NumberingFacts.
Import Numbering.

Lemma isUsed_In (used : list (option Z)) (n : nat) :
  isUsed used n = true <-> In (Some (Z.of_nat n)) used.
Proof.
unfold isUsed. rewrite existsb_exists. split.
- intros ([z|] & Hin & E); [|discriminate].
  apply Z.eqb_eq in E. now subst.
- intro Hin. exists (Some (Z.of_nat n)). split; [exact Hin|apply Z.eqb_refl].
Qed.

Lemma nextFrom_spec (used : list (option Z)) (fuel : nat) : forall n,
  let r := nextFrom fuel used n in
  (n <= r <= n + fuel)%nat /\
  (forall k, (n <= k < r)%nat -> isUsed used k = true) /\
  ((r < n + fuel)%nat -> isUsed used r = false).
Proof.
induction fuel as [|fuel IH]; intro n; cbv zeta; simpl.
- split; [lia|]. split; [intros k Hk; lia|intro; lia].
- destruct (isUsed used n) eqn:E.
  + destruct (IH (S n)) as (H1 & H2 & H3). cbv zeta in *.
    split; [lia|]. split.
    * intros k Hk. destruct (Nat.eq_dec k n) as [->|Hne]; [exact E|].
      apply H2. lia.
    * intro Hlt. apply H3. lia.
  + split; [lia|]. split; [intros k Hk; lia|intros _; exact E].
Qed.

Lemma used_run_length (used : list (option Z)) (m : nat) :
  (forall k, (1 <= k < 1 + m)%nat -> In (Some (Z.of_nat k)) used) ->
  (m <= length used)%nat.
Proof.
intro Hall.
assert (Hnd : NoDup (map (fun k => Some (Z.of_nat k)) (seq 1 m))).
{ apply Finite.Injective_map_NoDup_in; [|apply seq_NoDup].
  intros x y _ _ E. inversion E. lia. }
assert (Hincl : incl (map (fun k => Some (Z.of_nat k)) (seq 1 m)) used).
{ intros x Hx. apply in_map_iff in Hx. destruct Hx as (k & <- & Hk).
  apply in_seq in Hk. apply Hall. lia. }
pose proof (NoDup_incl_length Hnd Hincl) as Hl.
now rewrite length_map, length_seq in Hl.
Qed.

(** X28.  [getNextPointNumber] returns the least positive number that is
    not in use for the prefix: the result is at least 1, it is not among
    the numbers parsed from the ids with that prefix, and every smaller
    positive number is.  The loop ends within one more round than there
    are numbers in use. *)
Theorem getNextPointNumber_least_unused (parseInt : string -> option Z)
  (prefix : string) (ids : list string) :
  let used := usedNums parseInt prefix ids in
  let next := getNextPointNumber parseInt prefix ids in
  (1 <= next <= S (length used))%nat /\
  ~ In (Some (Z.of_nat next)) used /\
  forall k, (1 <= k < next)%nat -> In (Some (Z.of_nat k)) used.
Proof.
cbv zeta. unfold getNextPointNumber. cbv zeta.
set (used := usedNums parseInt prefix ids).
destruct (nextFrom_spec used (S (length used)) 1) as (H1 & H2 & H3).
cbv zeta in *. set (r := nextFrom (S (length used)) used 1) in *.
assert (Hin : forall k, (1 <= k < r)%nat -> In (Some (Z.of_nat k)) used).
{ intros k Hk. apply isUsed_In. now apply H2. }
assert (Hr : (r <= S (length used))%nat).
{ destruct (Nat.le_gt_cases r (S (length used))) as [K|K]; [exact K|].
  assert (r = S (S (length used))) by lia.
  pose proof (used_run_length used (S (length used))) as Hl.
  assert ((S (length used) <= length used)%nat).
  { apply Hl. intros k Hk. apply Hin. lia. }
  lia. }
split; [lia|]. split; [|exact Hin].
intro K. apply isUsed_In in K. rewrite H3 in K; [discriminate|lia].
Qed.

End NumberingFacts.

(* ================================================================== *)
(** * The undo history *)
(* ================================================================== *)

Module HistoryFacts.
Import History.

(** The two stacks together hold no more than [maxUndoSize] entries. *)
Definition bounded (s : Plan) : Prop :=
(length (undoStack s) + length (redoStack s) <= maxUndoSize)%nat.

Lemma pushUndo_stack (s : Plan) (action : Action) :
  exists below,
    undoStack (pushUndo s action) = below ++ [action] /\
    (below = undoStack s \/ below = tl (undoStack s)) /\
    ((length (undoStack s) <= maxUndoSize)%nat ->
     (length (below ++ [action]) <= maxUndoSize)%nat).
Proof.
unfold pushUndo. simpl.
destruct (maxUndoSize <? length (undoStack s ++ [action]))%nat eqn:E.
- apply Nat.ltb_lt in E. rewrite length_app in E. simpl in E.
  destruct (undoStack s) as [|a0 rest] eqn:Eu.
  + unfold maxUndoSize in E. simpl in E. lia.
  + exists rest. simpl. split; [reflexivity|]. split; [now right|].
    intro Hl. rewrite length_app. simpl. simpl in Hl. lia.
- apply Nat.ltb_ge in E. exists (undoStack s).
  split; [reflexivity|]. split; [now left|]. intros _. exact E.
Qed.

Lemma pushUndo_bounded (s : Plan) (action : Action) :
  (length (undoStack s) <= maxUndoSize)%nat -> bounded (pushUndo s action).
Proof.
intro Hl. destruct (pushUndo_stack s action) as (below & E & _ & Hb).
unfold bounded. rewrite E. simpl. specialize (Hb Hl). lia.
Qed.

Lemma deleteAt_bounded (s : Plan) (idx : nat) :
  bounded s -> bounded (deleteAt s idx).
Proof.
intro Hb. unfold deleteAt.
destruct (nth_error (plannedPoints s) idx); [|exact Hb].
apply pushUndo_bounded. simpl. unfold bounded in Hb. lia.
Qed.

Lemma deletePointById_bounded (s : Plan) (pointId : string) :
  bounded s -> bounded (deletePointById s pointId).
Proof.
intro Hb. unfold deletePointById.
destruct (findIndex s pointId); [now apply deleteAt_bounded|exact Hb].
Qed.

Lemma last_push {B : Type} (rest : list B) : forall a0 d : B,
  last (a0 :: rest) d = last rest a0.
Proof.
induction rest as [|x rest IH]; intros a0 d; [reflexivity|].
change (last (a0 :: x :: rest) d) with (last (x :: rest) d).
rewrite (IH x d). symmetry. apply IH.
Qed.

Lemma pop_shape (a0 : Action) (rest : list Action) :
  a0 :: rest = removelast (a0 :: rest) ++ [last rest a0] /\
  length (a0 :: rest) = S (length (removelast (a0 :: rest))).
Proof.
assert (E : a0 :: rest = removelast (a0 :: rest) ++ [last rest a0]).
{ rewrite <- (last_push rest a0 a0).
  apply app_removelast_last. discriminate. }
split; [exact E|].
rewrite E at 1. rewrite length_app. simpl. lia.
Qed.

Lemma undo_bounded (s : Plan) : bounded s -> bounded (undo s).
Proof.
intro Hb. unfold undo.
destruct (undoStack s) as [|a0 rest] eqn:Eu; [exact Hb|]. cbv zeta.
destruct (pop_shape a0 rest) as [_ Hl].
set (s' := mkPlan (objects s) (plannedPoints s) (removelast (a0 :: rest))
                  (redoStack s ++ [last rest a0])).
assert (Hb' : bounded s').
{ unfold bounded in *. rewrite Eu in Hb. unfold s'.
  cbn [undoStack redoStack]. rewrite length_app.
  change (length [last rest a0]) with 1%nat. lia. }
destruct (last rest a0).
- now apply deletePointById_bounded.
- exact Hb'.
- destruct (find s' id); exact Hb'.
- destruct (find s' id); exact Hb'.
Qed.

Lemma redo_bounded (s : Plan) : bounded s -> bounded (redo s).
Proof.
intro Hb. unfold redo.
destruct (redoStack s) as [|a0 rest] eqn:Er; [exact Hb|]. cbv zeta.
destruct (pop_shape a0 rest) as [_ Hl].
set (s' := mkPlan (objects s) (plannedPoints s)
                  (undoStack s ++ [last rest a0])
                  (removelast (a0 :: rest))).
assert (Hb' : bounded s').
{ unfold bounded in *. rewrite Er in Hb. unfold s'.
  cbn [undoStack redoStack]. rewrite length_app.
  change (length [last rest a0]) with 1%nat. lia. }
destruct (last rest a0).
- exact Hb'.
- now apply deletePointById_bounded.
- destruct (find s' id); exact Hb'.
- destruct (find s' id); exact Hb'.
Qed.

Lemma apply_bounded (s : Plan) (e : Edit) : bounded s -> bounded (apply s e).
Proof.
intro Hb.
assert (Hu : (length (undoStack s) <= maxUndoSize)%nat)
  by (unfold bounded in Hb; lia).
destruct e; simpl.
- unfold addPoint. now apply pushUndo_bounded.
- now apply deletePointById_bounded.
- now apply deleteAt_bounded.
- unfold dragEnd. now apply pushUndo_bounded.
- unfold savePointNote. destruct (find s pointId); [|exact Hb].
  now apply pushUndo_bounded.
- unfold clearAllPlanned. destruct (plannedPoints s); [exact Hb|].
  unfold bounded, maxUndoSize. simpl. lia.
- now apply undo_bounded.
- now apply redo_bounded.
Qed.

(** X29.  Whatever the user does to the plan, starting with empty
    stacks, the undo and the redo stack together never hold more than 50
    entries. *)
Theorem history_stays_bounded (objs : list Point) (points : list nat)
  (edits : list Edit) :
  bounded (applyAll (mkPlan objs points [] []) edits).
Proof.
unfold applyAll.
assert (G : forall s, bounded s -> bounded (fold_left apply edits s)).
{ induction edits as [|e es IH]; intros s Hs; simpl; [exact Hs|].
  apply IH. now apply apply_bounded. }
apply G. unfold bounded, maxUndoSize. simpl. lia.
Qed.

Lemma undo_top (s : Plan) (below : list Action) (action : Action) :
  undoStack s = below ++ [action] ->
  undo s =
  let s' := mkPlan (objects s) (plannedPoints s) below
                   (redoStack s ++ [action]) in
  match action with
  | add_point data => deletePointById s' (p_id (obj s' data))
  | delete_point data => pushPoint s' data
  | move_point id oldLat oldLon _ _ =>
      match find s' id with
      | Some ref => assign s' ref (setLatLon oldLat oldLon)
      | None => s'
      end
  | edit_point id oldNote oldDepth _ _ =>
      match find s' id with
      | Some ref => assign s' ref (setNoteDepth oldNote oldDepth)
      | None => s'
      end
  end.
Proof.
intro E. unfold undo. rewrite E.
destruct (below ++ [action]) as [|a0 rest] eqn:Eb.
- destruct below; discriminate.
- destruct (pop_shape a0 rest) as [Hs _]. rewrite Hs in Eb.
  apply app_inj_tail in Eb. destruct Eb as [<- <-]. reflexivity.
Qed.

Lemma findIndexFrom_fresh (s : Plan) (pointId : string) (refs : list nat) :
  forall idx,
  (forall ref, In ref refs -> p_id (obj s ref) <> pointId) ->
  forall ref', p_id (obj s ref') = pointId ->
  findIndexFrom s pointId (refs ++ [ref']) idx = Some (idx + length refs)%nat.
Proof.
induction refs as [|r refs IH]; intros idx Hfresh ref' Hid; simpl.
- rewrite Hid, String.eqb_refl. f_equal. lia.
- destruct (String.eqb (p_id (obj s r)) pointId) eqn:E.
  + apply String.eqb_eq in E. exfalso. apply (Hfresh r); [now left|exact E].
  + rewrite IH; [f_equal; lia| |exact Hid].
    intros x Hx. apply Hfresh. now right.
Qed.

Lemma removeAt_last {B : Type} (l : list B) (x : B) :
  removeAt (length l) (l ++ [x]) = l.
Proof.
induction l as [|y l IH]; [reflexivity|]. simpl. now rewrite IH.
Qed.

Lemma nth_error_last {B : Type} (l : list B) (x : B) :
  nth_error (l ++ [x]) (length l) = Some x.
Proof.
induction l as [|y l IH]; [reflexivity|]. exact IH.
Qed.

Lemma delete_fresh_last (objs : list Point) (pts : list nat)
  (below redo : list Action) (point : Point) :
  (forall ref, In ref pts -> (ref < length objs)%nat) ->
  (forall ref, In ref pts -> p_id (nth ref objs nullPoint) <> p_id point) ->
  deletePointById
    (mkPlan (objs ++ [point]) (pts ++ [length objs]) below redo)
    (p_id point)
  = pushUndo (mkPlan ((objs ++ [point]) ++ [point]) pts below redo)
      (delete_point (length (objs ++ [point]))).
Proof.
intros Hvalid Hfresh.
set (s' := mkPlan (objs ++ [point]) (pts ++ [length objs]) below redo).
assert (Hobj : obj s' (length objs) = point).
{ unfold obj, s'. simpl. rewrite app_nth2 by lia. now rewrite Nat.sub_diag. }
unfold deletePointById, findIndex.
change (plannedPoints s') with (pts ++ [length objs]).
rewrite (findIndexFrom_fresh s' (p_id point) pts 0).
2:{ intros r Hr. unfold obj, s'. simpl.
    rewrite app_nth1 by (now apply Hvalid). now apply Hfresh. }
2:{ now rewrite Hobj. }
simpl Nat.add. unfold deleteAt.
change (plannedPoints s') with (pts ++ [length objs]).
rewrite nth_error_last, removeAt_last, Hobj. reflexivity.
Qed.

Lemma addPoint_fields (s : Plan) (point : Point) :
  objects (addPoint s point) = objects s ++ [point] /\
  plannedPoints (addPoint s point)
  = plannedPoints s ++ [length (objects s)] /\
  redoStack (addPoint s point) = [] /\
  exists below,
    undoStack (addPoint s point) = below ++ [add_point (length (objects s))].
Proof.
repeat split; try reflexivity.
destruct (pushUndo_stack
            (mkPlan (objects s ++ [point])
               (plannedPoints s ++ [length (objects s)])
               (undoStack s) (redoStack s)) (add_point (length (objects s))))
  as (below & Eu & _).
exists below. exact Eu.
Qed.

(** X30.  Undoing the addition of a point with a fresh id takes the
    point off the plan, but the undo is itself recorded as a deletion:
    the redo stack is empty afterwards, so that [redo] does nothing, the
    top of the undo stack is the deletion of a copy of the point, and a
    second [undo] puts that copy on the plan. *)
Theorem undo_of_add_is_recorded_as_delete (s : Plan) (point : Point) :
  (forall ref, In ref (plannedPoints s) -> (ref < length (objects s))%nat) ->
  (forall ref, In ref (plannedPoints s) -> p_id (obj s ref) <> p_id point) ->
  let undone := undo (addPoint s point) in
  plannedPoints undone = plannedPoints s /\
  redoStack undone = [] /\
  redo undone = undone /\
  exists copy below,
    undoStack undone = below ++ [delete_point copy] /\
    obj undone copy = point /\
    plannedPoints (undo undone) = plannedPoints s ++ [copy].
Proof.
intros Hvalid Hfresh. cbv zeta.
destruct (addPoint_fields s point) as (Eo & Ep & Er & below & Eu).
rewrite (undo_top (addPoint s point) below
           (add_point (length (objects s))) Eu).
cbv zeta. rewrite Eo, Ep, Er.
assert (Hobj : obj (mkPlan (objects s ++ [point])
                      (plannedPoints s ++ [length (objects s)]) below
                      ([] ++ [add_point (length (objects s))]))
                 (length (objects s)) = point).
{ unfold obj. simpl. rewrite app_nth2 by lia. now rewrite Nat.sub_diag. }
rewrite Hobj.
rewrite (delete_fresh_last (objects s) (plannedPoints s) below _ point
           Hvalid Hfresh).
set (copy := length (objects s ++ [point])).
set (s2 := mkPlan ((objects s ++ [point]) ++ [point]) (plannedPoints s)
                  below ([] ++ [add_point (length (objects s))])).
destruct (pushUndo_stack s2 (delete_point copy)) as (below' & Eu' & _ & _).
split; [reflexivity|]. split; [reflexivity|]. split; [reflexivity|].
exists copy, below'. split; [exact Eu'|]. split.
- unfold obj, copy. simpl. rewrite app_nth2 by lia. now rewrite Nat.sub_diag.
- rewrite (undo_top (pushUndo s2 (delete_point copy)) below'
             (delete_point copy) Eu').
  reflexivity.
Qed.

Lemma undo_of_add_is_recorded_as_delete_witness :
  redoStack (undo (addPoint (mkPlan [] [] [] [])
                     (mkPoint "P-1" "proposed" 1 2 "" "Shallow" "#00f")))
  = [].
Proof.
apply (undo_of_add_is_recorded_as_delete (mkPlan [] [] [] [])
         (mkPoint "P-1" "proposed" 1 2 "" "Shallow" "#00f")).
- intros ref [].
- intros ref [].
Defined.

End HistoryFacts.
